(** * md-to-confl-publisher: a shallow embedding of the converter and the publisher

    The development follows the two source files it verifies:
    - [converter/md_to_confluence_storage.py]: front matter, heading
      normalisation, link rewriting (module [Converter]);
    - [publish_docs.py]: the upsert [ensure_page], rename handling in
      [publish_entry] and the link resolver (module [Publisher]).

    Python values are modelled as follows.
    - [str] is a list of Unicode code points ([list N]); literals are written
      [py "..."], which decodes the UTF-8 text and the escapes \n \r \t \\.
    - A dict used as an index (key_to_page, label_to_page, path_to_page) is a
      [gmap]; a bs4 attribute dict, whose order is serialised, is an
      association list.
    - The remote store is reached through the interface [Confluence]; every
      call is recorded in a log, the way the test double FakeConfluence
      records [created], [updated], [labeled], [props], [deleted_labels].
    - Exceptions are explicit: a computation returns [Ok v] or [Raise e]. *)

From Stdlib Require Import NArith ZArith Lia List Ascii String Bool.
From stdpp Require Import base option list gmap.
Import ListNotations.
Local Open Scope N_scope.
Set Warnings "-register-all".

(* ===================================================================== *)
(** * Python strings *)
(* ===================================================================== *)

Module PyStr.

Abbreviation str := (list N).

(** [str.isspace] for one code point (also what [\s] matches in [re] on str
    patterns): the characters of bidirectional type WS, B or S, or of general
    category Zs. *)
Definition is_space (c : N) : bool :=
  ((9 <=? c) && (c <=? 13)) || ((28 <=? c) && (c <=? 32))
  || (c =? 133) || (c =? 160) || (c =? 5760)
  || ((8192 <=? c) && (c <=? 8202))
  || (c =? 8232) || (c =? 8233) || (c =? 8239) || (c =? 8287) || (c =? 12288).

(** [\d] on str patterns: the decimal digits, general category Nd (Unicode
    14.0, the tables of CPython 3.11). They come in blocks of ten, listed by
    first code point, and the fifty mathematical digits. *)
Definition decimal_blocks : list N :=
  [48; 1632; 1776; 1984; 2406; 2534; 2662; 2790; 2918; 3046; 3174; 3302; 3430;
   3558; 3664; 3792; 3872; 4160; 4240; 6112; 6160; 6470; 6608; 6784; 6800; 6992;
   7088; 7232; 7248; 42528; 43216; 43264; 43472; 43504; 43600; 44016; 65296;
   66720; 68912; 69734; 69872; 69942; 70096; 70384; 70736; 70864; 71248; 71360;
   71472; 71904; 72016; 72784; 73040; 73120; 92768; 92864; 93008; 123200;
   123632; 125264; 130032].
Definition is_decimal (c : N) : bool :=
  existsb (fun b => (b <=? c) && (c <? b + 10)) decimal_blocks
  || ((120782 <=? c) && (c <=? 120831)).

Definition is_hex_digit (c : N) : bool :=
  ((48 <=? c) && (c <=? 57)) || ((97 <=? c) && (c <=? 102)).

(** [str.lower] on the ASCII letters; other code points are left as they
    are. The code only searches the lowered href for ".md" and ".md#", and no
    non-ASCII character lowers to text holding one of . m d # (the only ASCII
    letters so produced are k and i), so the two searches see the same
    thing. *)
Definition lower_char (c : N) : N :=
  if (65 <=? c) && (c <=? 90) then c + 32 else c.
Definition lower (s : str) : str := map lower_char s.

Fixpoint lstrip (s : str) : str :=
  match s with
  | c :: s' => if is_space c then lstrip s' else s
  | [] => []
  end.
Definition rstrip (s : str) : str := rev (lstrip (rev s)).
Definition strip (s : str) : str := rstrip (lstrip s).

(** [s.lstrip(ch)] and [s.rstrip(ch)] for a single character. *)
Fixpoint lstrip_char (ch : N) (s : str) : str :=
  match s with
  | c :: s' => if c =? ch then lstrip_char ch s' else s
  | [] => []
  end.
Definition rstrip_char (ch : N) (s : str) : str := rev (lstrip_char ch (rev s)).

Definition str_eqb (a b : str) : bool := bool_decide (a = b).

Fixpoint startswith (s p : str) : bool :=
  match p, s with
  | [], _ => true
  | x :: p', y :: s' => (x =? y) && startswith s' p'
  | _ :: _, [] => false
  end.
Definition endswith (s p : str) : bool := startswith (rev s) (rev p).

(** [p in s] *)
Fixpoint contains (p s : str) : bool :=
  startswith s p ||
  match s with
  | [] => false
  | _ :: s' => contains p s'
  end.

(** [sep.join(parts)] *)
Fixpoint join (sep : str) (parts : list str) : str :=
  match parts with
  | [] => []
  | [p] => p
  | p :: rest => p ++ sep ++ join sep rest
  end.

(** [s.split(ch)] for a single-character separator. *)
Fixpoint split_char (ch : N) (s : str) : list str :=
  match s with
  | [] => [[]]
  | c :: s' =>
      match split_char ch s' with
      | cur :: rest => if c =? ch then [] :: cur :: rest else (c :: cur) :: rest
      | [] => [[c]]
      end
  end.

(** The line boundaries of [str.splitlines]. *)
Definition is_linebreak (c : N) : bool :=
  ((10 <=? c) && (c <=? 13)) || ((28 <=? c) && (c <=? 30))
  || (c =? 133) || (c =? 8232) || (c =? 8233).

(** [s.splitlines(True)]: the lines with their terminators; "\r\n" is one
    terminator. [cur] holds the current line reversed. *)
Fixpoint splitlines_aux (cur : str) (s : str) : list str :=
  match s with
  | [] => match cur with [] => [] | _ => [rev cur] end
  | c :: s' =>
      if is_linebreak c then
        match s' with
        | d :: s'' =>
            if (c =? 13) && (d =? 10) then rev (d :: c :: cur) :: splitlines_aux [] s''
            else rev (c :: cur) :: splitlines_aux [] s'
        | [] => rev (c :: cur) :: splitlines_aux [] s'
        end
      else splitlines_aux (c :: cur) s'
  end.
Definition splitlines_keepends (s : str) : list str := splitlines_aux [] s.

(** ** Literals *)

Definition bytes_of_string (s : string) : list N :=
  map N_of_ascii (list_ascii_of_string s).

(** [bytes.decode("utf-8")] for well-formed input. *)
Fixpoint utf8_decode (fuel : nat) (b : list N) : str :=
  match fuel with
  | O => []
  | S fuel =>
      match b with
      | [] => []
      | b0 :: r =>
          if b0 <? 128 then b0 :: utf8_decode fuel r
          else if b0 <? 224 then
            match r with
            | b1 :: r' => ((b0 - 192) * 64 + (b1 - 128)) :: utf8_decode fuel r'
            | _ => [b0]
            end
          else if b0 <? 240 then
            match r with
            | b1 :: b2 :: r' =>
                ((b0 - 224) * 4096 + (b1 - 128) * 64 + (b2 - 128)) :: utf8_decode fuel r'
            | _ => b0 :: r
            end
          else
            match r with
            | b1 :: b2 :: b3 :: r' =>
                ((b0 - 240) * 262144 + (b1 - 128) * 4096 + (b2 - 128) * 64 + (b3 - 128))
                  :: utf8_decode fuel r'
            | _ => b0 :: r
            end
      end
  end.

(** The escapes \n \r \t and \\ of a Python literal. *)
Fixpoint unescape (s : str) : str :=
  match s with
  | 92 :: r =>
      match r with
      | 110 :: r' => 10 :: unescape r'
      | 114 :: r' => 13 :: unescape r'
      | 116 :: r' => 9 :: unescape r'
      | 92 :: r' => 92 :: unescape r'
      | _ => 92 :: unescape r
      end
  | c :: r => c :: unescape r
  | [] => []
  end.

(** A literal: the UTF-8 text of [s] read as a Python string literal. *)
Definition py (s : string) : str :=
  let b := bytes_of_string s in unescape (utf8_decode (length b) b).

(** [s.encode("utf-8")] *)
Definition utf8_char (c : N) : list N :=
  if c <? 128 then [c]
  else if c <? 2048 then [192 + c / 64; 128 + c mod 64]
  else if c <? 65536 then [224 + c / 4096; 128 + (c / 64) mod 64; 128 + c mod 64]
  else [240 + c / 262144; 128 + (c / 4096) mod 64; 128 + (c / 64) mod 64; 128 + c mod 64].
Definition encode_utf8 (s : str) : list N := flat_map utf8_char s.

(** [str(n)] for a non-negative int. *)
Fixpoint dec_digits (fuel : nat) (n : N) (acc : str) : str :=
  match fuel with
  | O => acc
  | S fuel =>
      let acc' := (48 + n mod 10) :: acc in
      if n <? 10 then acc' else dec_digits fuel (n / 10) acc'
  end.
Definition str_of_N (n : N) : str := dec_digits (S (N.to_nat (N.log2 n))) n [].

#[global] Arguments py : simpl never.

End PyStr.
Import PyStr.

(* ===================================================================== *)
(** * hashlib.sha1 *)
(* ===================================================================== *)

Module Sha1.

Definition mask32 : N := 4294967295.
Definition w32 (x : N) : N := N.land x mask32.
Definition add32 (x y : N) : N := w32 (x + y).
Definition rotl (n x : N) : N := w32 (N.lor (N.shiftl x n) (N.shiftr x (32 - n))).
Definition not32 (x : N) : N := N.lxor x mask32.

(** Big-endian bytes of [x], [n] of them. *)
Fixpoint be_bytes (n : nat) (x : N) : list N :=
  match n with
  | O => []
  | S n' => be_bytes n' (x / 256) ++ [x mod 256]
  end.

Definition pad (msg : list N) : list N :=
  let l := N.of_nat (length msg) in
  let k := (119 - l mod 64) mod 64 in
  msg ++ [128] ++ repeat 0 (N.to_nat k) ++ be_bytes 8 (8 * l).

Definition word_of (b0 b1 b2 b3 : N) : N :=
  b0 * 16777216 + b1 * 65536 + b2 * 256 + b3.

Fixpoint words_of (fuel : nat) (b : list N) : list N :=
  match fuel with
  | O => []
  | S fuel =>
      match b with
      | b0 :: b1 :: b2 :: b3 :: r => word_of b0 b1 b2 b3 :: words_of fuel r
      | _ => []
      end
  end.

(** The message schedule, most recent word first. *)
Fixpoint schedule (n : nat) (wrev : list N) : list N :=
  match n with
  | O => wrev
  | S n' =>
      let x := N.lxor (N.lxor (nth 2 wrev 0) (nth 7 wrev 0))
                      (N.lxor (nth 13 wrev 0) (nth 15 wrev 0)) in
      schedule n' (rotl 1 x :: wrev)
  end.

Definition round_f (i : nat) (b c d : N) : N :=
  if (i <? 20)%nat then N.lor (N.land b c) (N.land (not32 b) d)
  else if (i <? 40)%nat then N.lxor (N.lxor b c) d
  else if (i <? 60)%nat then N.lor (N.lor (N.land b c) (N.land b d)) (N.land c d)
  else N.lxor (N.lxor b c) d.

Definition round_k (i : nat) : N :=
  if (i <? 20)%nat then 1518500249
  else if (i <? 40)%nat then 1859775393
  else if (i <? 60)%nat then 2400959708
  else 3395469782.

Record hstate := H5 { ha : N; hb : N; hc : N; hd : N; he : N }.

Fixpoint rounds (i : nat) (ws : list N) (s : hstate) : hstate :=
  match ws with
  | [] => s
  | w :: ws' =>
      let 'H5 a b c d e := s in
      let t := add32 (add32 (add32 (add32 (rotl 5 a) (round_f i b c d)) e) (round_k i)) w in
      rounds (S i) ws' (H5 t a (rotl 30 b) c d)
  end.

Definition compress (s : hstate) (block : list N) : hstate :=
  let ws := rev (schedule 64 (rev (words_of 16 block))) in
  let 'H5 a b c d e := rounds 0 ws s in
  H5 (add32 (ha s) a) (add32 (hb s) b) (add32 (hc s) c) (add32 (hd s) d) (add32 (he s) e).

Fixpoint blocks (fuel : nat) (b : list N) (s : hstate) : hstate :=
  match fuel with
  | O => s
  | S fuel =>
      match b with
      | [] => s
      | _ => blocks fuel (drop 64 b) (compress s (take 64 b))
      end
  end.

Definition init : hstate := H5 1732584193 4023233417 2562383102 271733878 3285377520.

Definition hex_digit (x : N) : N := if x <? 10 then 48 + x else 87 + x.

(** The [n] low hexadecimal digits of [x], most significant first. *)
Fixpoint hex (n : nat) (x : N) : str :=
  match n with
  | O => []
  | S n' => hex n' (x / 16) ++ [hex_digit (x mod 16)]
  end.

Definition digest (msg : list N) : hstate :=
  let p := pad msg in blocks (S (length p / 64)) p init.

Definition hexdigest (msg : list N) : str :=
  let 'H5 a b c d e := digest msg in
  hex 8 a ++ hex 8 b ++ hex 8 c ++ hex 8 d ++ hex 8 e.

End Sha1.

(* ===================================================================== *)
(** * Regular expressions with the backtracking order of [re] *)
(* ===================================================================== *)

Module Regex.

(** The fragment of [re] syntax the program uses. [Star true r] is the greedy
    [r*], [Star false r] the lazy [r*?]; [Group i r] is the i-th capturing
    group; [Eos] is [$] without MULTILINE (the end, or just before a final
    newline). *)
Inductive re : Type :=
| Eps
| Chr (p : N -> bool)
| Cat (a b : re)
| Alt (a b : re)
| Star (greedy : bool) (a : re)
| Group (i : nat) (a : re)
| Eos.

Definition caps := list (nat * str).

Definition or_else {A} (x : option A) (y : option A) : option A :=
  match x with Some _ => x | None => y end.

Section StarLoop.

(** The loop of a repetition: [step] matches the body once; an iteration
    must consume input, so [length s] iterations are enough. The greedy loop
    tries one more iteration before leaving, the lazy one leaves first. *)
Variable step : str -> caps -> (str -> caps -> option (str * caps)) -> option (str * caps).
Variable greedy : bool.
Variable k : str -> caps -> option (str * caps).

Fixpoint star_loop (n : nat) (s : str) (c : caps) {struct n} : option (str * caps) :=
  let more :=
    match n with
    | O => None
    | S n' =>
        step s c (fun s' c' =>
                    if (length s' <? length s)%nat then star_loop n' s' c' else None)
    end in
  if greedy then or_else more (k s c) else or_else (k s c) more.

End StarLoop.

(** [rmatch r s c k]: match [r] at the head of [s], then continue with [k] on
    what is left; alternatives are explored in the order of a backtracking
    matcher, and the first complete match wins. *)
Fixpoint rmatch (r : re) (s : str) (c : caps)
    (k : str -> caps -> option (str * caps)) {struct r} : option (str * caps) :=
  match r with
  | Eps => k s c
  | Chr p => match s with x :: s' => if p x then k s' c else None | [] => None end
  | Cat a b => rmatch a s c (fun s' c' => rmatch b s' c' k)
  | Alt a b => or_else (rmatch a s c k) (rmatch b s c k)
  | Star g a => star_loop (rmatch a) g k (length s) s c
  | Group i a =>
      rmatch a s c (fun s' c' => k s' ((i, take (length s - length s') s) :: c'))
  | Eos =>
      match s with
      | [] => k s c
      | [x] => if x =? 10 then k s c else None
      | _ => None
      end
  end.

(** [pattern.match(s)]: the captures and the unmatched rest ([s[m.end():]]). *)
Definition re_match (r : re) (s : str) : option (str * caps) :=
  rmatch r s [] (fun s' c => Some (s', c)).

(** [m.group(i)] *)
Fixpoint group (i : nat) (c : caps) : str :=
  match c with
  | [] => []
  | (j, v) :: c' => if (i =? j)%nat then v else group i c'
  end.

Definition chr (x : N) : re := Chr (N.eqb x).
Fixpoint lit (s : str) : re :=
  match s with
  | [] => Eps
  | x :: s' => Cat (chr x) (lit s')
  end.
Definition plus (a : re) : re := Cat a (Star true a).
Definition plus_lazy (a : re) : re := Cat a (Star false a).
Definition opt (a : re) : re := Alt a Eps.
(** [r{1,n+1}] *)
Fixpoint upto (n : nat) (a : re) : re :=
  match n with
  | O => a
  | S n' => Cat a (opt (upto n' a))
  end.
Definition ws : re := Chr is_space.
Definition digit : re := Chr is_decimal.
(** [.] without DOTALL, and with it. *)
Definition dot : re := Chr (fun c => negb (c =? 10)).
Definition any : re := Chr (fun _ => true).

End Regex.
Import Regex.

(* ===================================================================== *)
(** * Exceptions *)
(* ===================================================================== *)

(** [RuntimeError msg] is what [except RuntimeError] catches, with
    [str(e) = msg]; [OtherError cls msg] is any other [Exception]
    (requests' HTTPError, yaml's YAMLError, ValueError), which only
    [except Exception] catches. *)
Inductive exn : Type :=
| RuntimeError (msg : str)
| OtherError (cls : str) (msg : str).

Inductive Res (A : Type) : Type :=
| Ok (a : A)
| Raise (e : exn).
Arguments Ok {A} a.
Arguments Raise {A} e.

Definition is_ok {A} (r : Res A) : bool :=
  match r with Ok _ => true | Raise _ => false end.

(* ===================================================================== *)
(** * converter/md_to_confluence_storage.py *)
(* ===================================================================== *)

Module Converter.

Fixpoint seq_re (rs : list re) : re :=
  match rs with
  | [] => Eps
  | [r] => r
  | r :: rs' => Cat r (seq_re rs')
  end.

(** ** Front matter *)

(** The values [yaml.safe_load] builds that the program looks at. *)
Inductive yaml : Type :=
| YNull
| YBool (b : bool)
| YInt (z : Z)
| YStr (s : str)
| YSeq (items : list yaml)
| YMap (items : list (yaml * yaml)).

(** Truth value of a loaded document, as [x or {}] tests it. *)
Definition truthy (v : yaml) : bool :=
  match v with
  | YNull => false
  | YBool b => b
  | YInt z => negb (z =? 0)%Z
  | YStr s => negb (str_eqb s [])
  | YSeq l => match l with [] => false | _ => true end
  | YMap l => match l with [] => false | _ => true end
  end.

(** [_FRONT_MATTER_RE = re.compile(r"^---\s*\n(.*?)\n---\s*\n", re.DOTALL)] *)
Definition _FRONT_MATTER_RE : re :=
  seq_re [lit (py "---"); Star true ws; chr 10; Group 1 (Star false any);
          lit (py "\n---"); Star true ws; chr 10].

Section FrontMatter.

(** [yaml.safe_load], a function of PyYAML: it returns the loaded document or
    raises a [YAMLError]. *)
Variable safe_load : str -> Res yaml.

Definition strip_front_matter (md : str) : Res (yaml * str) :=
  match re_match _FRONT_MATTER_RE md with
  | None => Ok (YMap [], md)
  | Some (rest, c) =>
      let raw := group 1 c in
      match safe_load raw with
      | Raise e => Raise e
      | Ok v =>
          let data := if truthy v then v else YMap [] in
          let body := rest in
          Ok (data, body)
      end
  end.

End FrontMatter.

(** ** Heading normalisation *)

Record Options : Type := mkOptions {
  strip_title_h1 : bool;
  promote_headings : bool;
  strip_heading_numbers : bool;
  heading_numbering_in_text : bool;
  heading_numbering_max_level : Z
}.

(** [_FENCE_RE = re.compile(r"^\s*(```|~~~)")] *)
Definition _FENCE_RE : re :=
  seq_re [Star true ws; Group 1 (Alt (lit (py "```")) (lit (py "~~~")))].

(** [_HEADING_RE = re.compile(r"^(#{1,6})\s+(.+?)\s*$")] *)
Definition _HEADING_RE : re :=
  seq_re [Group 1 (upto 5 (chr 35)); plus ws; Group 2 (plus_lazy dot); Star true ws; Eos].

(** [_HEADING_NUM_PREFIX_RE = re.compile(
      r"^\s*(?:\d+\)|\d+\.(?:\d+(?:\.\d+)*" r")?\.?|\d+(?:\.\d+)+)\s+(.*" r")$")],
    the pattern written as three adjacent literals. *)
Definition _HEADING_NUM_PREFIX_RE : re :=
  seq_re [Star true ws;
          Alt (seq_re [plus digit; chr 41])
            (Alt (seq_re [plus digit; chr 46;
                          opt (seq_re [plus digit; Star true (seq_re [chr 46; plus digit])]);
                          opt (chr 46)])
                 (seq_re [plus digit; plus (seq_re [chr 46; plus digit])]));
          plus ws; Group 1 (Star true dot); Eos].

Definition _strip_heading_number_prefix (o : Options) (text : str) : str :=
  if negb (strip_heading_numbers o) then text
  else
    strip (match re_match _HEADING_NUM_PREFIX_RE text with
           | Some (_, c) => group 1 c
           | None => text
           end).

(** The loop state of [_normalize_markdown]. *)
Record NormState : Type := mkNorm {
  in_fence : bool;
  removed_first_h1 : bool;
  n1 : N;
  n2 : N;
  n3 : N
}.

Definition norm_init : NormState := mkNorm false false 0 0 0.

(** [max_lvl = max(1, min(int(self.heading_numbering_max_level or 3), 6))] *)
Definition max_lvl (o : Options) : Z :=
  let m := if (heading_numbering_max_level o =? 0)%Z then 3%Z
           else heading_numbering_max_level o in
  Z.max 1 (Z.min m 6).

(** A line and its terminator: "\r\n", "\n" or none. *)
Definition split_ending (line : str) : str * str :=
  if endswith line [13; 10] then (take (length line - 2) line, [13; 10])
  else if endswith line [10] then (take (length line - 1) line, [10])
  else (line, []).

(** The counters after a heading of post-promotion [level] (1, 2 or 3), and
    the prefix it gets. *)
Definition number_heading (level : nat) (st : NormState) : NormState * str :=
  match level with
  | 1%nat =>
      let a := n1 st + 1 in
      (mkNorm (in_fence st) (removed_first_h1 st) a 0 0, str_of_N a ++ py ". ")
  | 2%nat =>
      let a := if n1 st =? 0 then 1 else n1 st in
      let b := n2 st + 1 in
      (mkNorm (in_fence st) (removed_first_h1 st) a b 0,
       str_of_N a ++ py "." ++ str_of_N b ++ py ". ")
  | _ =>
      let a := if n1 st =? 0 then 1 else n1 st in
      let b := if n2 st =? 0 then 1 else n2 st in
      let c := n3 st + 1 in
      (mkNorm (in_fence st) (removed_first_h1 st) a b c,
       str_of_N a ++ py "." ++ str_of_N b ++ py "." ++ str_of_N c ++ py ". ")
  end.

(** One iteration of the loop over [body.splitlines(True)]: the new state and
    what is appended to [out] (nothing when the title heading is dropped). *)
Definition norm_line (o : Options) (st : NormState) (line : str) : NormState * list str :=
  let '(core, nl) := split_ending line in
  match re_match _FENCE_RE core with
  | Some _ =>
      (mkNorm (negb (in_fence st)) (removed_first_h1 st) (n1 st) (n2 st) (n3 st),
       [core ++ nl])
  | None =>
      if in_fence st then (st, [core ++ nl])
      else
        match re_match _HEADING_RE core with
        | None => (st, [core ++ nl])
        | Some (_, c) =>
            let hashes := group 1 c in
            let text := group 2 c in
            let level := length hashes in
            if (level =? 1)%nat && strip_title_h1 o && negb (removed_first_h1 st) then
              (mkNorm (in_fence st) true (n1 st) (n2 st) (n3 st), [])
            else
              let level := if promote_headings o && (1 <? level)%nat
                           then (level - 1)%nat else level in
              let text := _strip_heading_number_prefix o text in
              let '(st', text) :=
                if heading_numbering_in_text o && (level <=? 3)%nat
                   && (Z.of_nat level <=? max_lvl o)%Z
                then
                  let '(st', prefix) := number_heading level st in
                  (st', if startswith text prefix then text else prefix ++ text)
                else (st, text) in
              (st', [repeat 35 level ++ py " " ++ text ++ nl])
        end
  end.

Fixpoint norm_lines (o : Options) (st : NormState) (lines : list str)
    : NormState * list str :=
  match lines with
  | [] => (st, [])
  | line :: rest =>
      let '(st1, out1) := norm_line o st line in
      let '(st2, out2) := norm_lines o st1 rest in
      (st2, out1 ++ out2)
  end.

Definition _normalize_markdown (o : Options) (body : str) : str :=
  if negb (strip_title_h1 o || promote_headings o || strip_heading_numbers o
           || heading_numbering_in_text o)
  then body
  else concat (snd (norm_lines o norm_init (splitlines_keepends body))).

(** ** Link rewriting *)

(** The parsed fragment: text nodes and tags with their attribute dict (in
    insertion order) and children. *)
Inductive node : Type :=
| Text (s : str)
| Elem (name : str) (attrs : list (str * str)) (children : list node).

Fixpoint attr_get (k : str) (attrs : list (str * str)) : option str :=
  match attrs with
  | [] => None
  | (k', v) :: rest => if str_eqb k k' then Some v else attr_get k rest
  end.

(** [tag[k] = v]: overwrite in place, or append a new key. *)
Fixpoint attr_set (k v : str) (attrs : list (str * str)) : list (str * str) :=
  match attrs with
  | [] => [(k, v)]
  | (k', v') :: rest =>
      if str_eqb k k' then (k, v) :: rest else (k', v') :: attr_set k v rest
  end.

(** [LinkResolver = Callable[[str, Optional[str]], Optional[str]]] *)
Definition LinkResolver : Type := str -> option str -> option str.

(** [href.lower().endswith(".md") or ".md#" in href.lower()] *)
Definition looks_internal (href : str) : bool :=
  endswith (lower href) (py ".md") || contains (py ".md#") (lower href).

(** The body of the loop of [_rewrite_links] for one anchor. *)
Definition rewrite_anchor (link_resolver : option LinkResolver)
    (current_path : option str) (attrs : list (str * str)) : list (str * str) :=
  let href := strip (default [] (attr_get (py "href") attrs)) in
  if str_eqb href [] then attrs
  else
    let new_href :=
      match link_resolver with
      | Some f => f href current_path
      | None => None
      end in
    match new_href with
    | Some ((_ :: _) as v) => attr_set (py "href") v attrs
    | _ =>
        if looks_internal href then attr_set (py "data-source-href") href attrs
        else attrs
    end.

(** [for a in soup.find_all("a"): ...] over the whole tree. *)
Fixpoint rewrite_node (link_resolver : option LinkResolver)
    (current_path : option str) (n : node) : node :=
  match n with
  | Text s => Text s
  | Elem name attrs children =>
      Elem name
        (if str_eqb name (py "a") then rewrite_anchor link_resolver current_path attrs
         else attrs)
        (map (rewrite_node link_resolver current_path) children)
  end.

Definition _rewrite_links (link_resolver : option LinkResolver)
    (current_path : option str) (soup : list node) : list node :=
  map (rewrite_node link_resolver current_path) soup.

(** [soup.find_all("a")], as the attribute dicts of the anchors in document
    order. *)
Fixpoint anchors_of (n : node) : list (list (str * str)) :=
  match n with
  | Text _ => []
  | Elem name attrs children =>
      (if str_eqb name (py "a") then [attrs] else []) ++ flat_map anchors_of children
  end.
Definition find_all_a (soup : list node) : list (list (str * str)) :=
  flat_map anchors_of soup.

End Converter.

(* ===================================================================== *)
(** * publish_docs.py *)
(* ===================================================================== *)

Module Publisher.

(** [PROPERTY_KEY = "md2conf_source"] *)
Definition PROPERTY_KEY : str := py "md2conf_source".
(** [VISIBLE_META_LABELS = ("md", "dir", "section")] *)
Definition VISIBLE_META_LABELS : list str := [py "md"; py "dir"; py "section"].

(** [hashlib.sha1(s.encode("utf-8")).hexdigest()] *)
Definition _sha1 (s : str) : str := Sha1.hexdigest (encode_utf8 s).

Definition _label_for (key : str) : str := py "src-" ++ take 12 (_sha1 key).

(** ** Paths *)

(** [posixpath.normpath] *)
Definition normpath_step (initial_slashes : nat) (new_comps : list str) (comp : str)
    : list str :=
  if str_eqb comp [] || str_eqb comp (py ".") then new_comps
  else if negb (str_eqb comp (py ".."))
          || ((initial_slashes =? 0)%nat && (length new_comps =? 0)%nat)
          || (match last new_comps with Some l => str_eqb l (py "..") | None => false end)
       then new_comps ++ [comp]
       else removelast new_comps.

Definition normpath (path : str) : str :=
  match path with
  | [] => py "."
  | _ =>
      let initial_slashes :=
        if startswith path (py "/") then
          if startswith path (py "//") && negb (startswith path (py "///")) then 2%nat
          else 1%nat
        else 0%nat in
      let comps := fold_left (normpath_step initial_slashes) (split_char 47 path) [] in
      let p := repeat 47 initial_slashes ++ join (py "/") comps in
      match p with [] => py "." | _ => p end
  end.

Definition _norm_posix (p : str) : str :=
  let p := map (fun c => if c =? 92 then 47 else c) p in
  let p := normpath p in
  if startswith p (py "./") then drop 2 p else p.

(** [PurePosixPath(s)]: the root and the parts (empty and "." components are
    dropped at parsing). *)
Definition pure_root (s : str) : str :=
  if startswith s (py "//") && negb (startswith s (py "///")) then py "//"
  else if startswith s (py "/") then py "/" else [].
Definition pure_parts (s : str) : list str :=
  List.filter (fun c => negb (str_eqb c []) && negb (str_eqb c (py "."))) (split_char 47 s).

(** [(PurePosixPath(cur).parent / path).as_posix()] for a relative [path]. *)
Definition parent_join (cur path : str) : str :=
  let parts := removelast (pure_parts cur) ++ pure_parts path in
  match pure_root cur ++ join (py "/") parts with
  | [] => py "."
  | p => p
  end.

(** ** Configuration *)

(** [Cfg], with the entries of [options] the upsert and the resolver read,
    after their defaults ([adopt_existing_by_title_under_root] and
    [migrate_legacy_doc_labels] default to true), and [managed_label] as
    [DocsPublisher.__init__] sets it. *)
Record Cfg : Type := mkCfg {
  base_url : str;
  space : str;
  docs_root_id : str;
  managed_label : str;
  adopt_existing_by_title_under_root : bool;
  migrate_legacy_doc_labels : bool
}.

(** ** The remote store *)

(** What [find_page_by_title] returns of a page: its id and the ids of its
    ancestors. *)
Record Found : Type := mkFound { fid : str; ancestors : list str }.

(** The payload [write_source_meta] stores. *)
Record Payload : Type := mkPayload {
  p_key : str;
  p_title : str;
  p_src_hash : str;
  p_meta_labels : list str
}.

(** The operations of [confl_client.Confluence] the publisher calls. Each one
    takes the state of the remote store and returns the new state with the
    result: the value, or the exception raised. *)
Class Confluence (R : Type) : Type := {
  create_page : str -> str -> str -> str -> R -> R * Res str;
  update_page : str -> str -> str -> str -> str -> R -> R * Res unit;
  find_page_by_title : str -> str -> R -> R * Res (option Found);
  add_labels : str -> list str -> R -> R * Res unit;
  put_property : str -> str -> Payload -> R -> R * Res unit;
  delete_label : str -> str -> R -> R * Res unit
}.

(** One call on the remote store and its outcome. *)
Inductive Event : Type :=
| EvCreate (space parent_id title storage : str) (r : Res str)
| EvUpdate (page_id space parent_id title storage : str) (r : Res unit)
| EvFind (space title : str) (r : Res (option Found))
| EvAddLabels (page_id : str) (labels : list str) (r : Res unit)
| EvPutProperty (page_id key : str) (value : Payload) (r : Res unit)
| EvDeleteLabel (page_id label : str) (r : Res unit).

(** ** The publisher's state *)

Section WithRemote.

Context {R : Type} `{Confluence R}.

(** The mutable part of a [DocsPublisher]: the remote store behind
    [self.conf], the three indexes, and the log of remote calls. *)
Record World : Type := mkWorld {
  remote : R;
  key_to_page : gmap str str;
  label_to_page : gmap str str;
  path_to_page : gmap str str;
  log : list Event
}.

(** A method: it may change the state, and returns or raises. *)
Definition M (A : Type) : Type := World -> World * Res A.

Definition ret {A} (a : A) : M A := fun w => (w, Ok a).
Definition raise {A} (e : exn) : M A := fun w => (w, Raise e).
Definition bind {A B} (m : M A) (f : A -> M B) : M B :=
  fun w => match m w with
           | (w', Ok a) => f a w'
           | (w', Raise e) => (w', Raise e)
           end.
(** [try: m  except Exception: pass] *)
Definition swallow (m : M unit) : M unit :=
  fun w => match m w with
           | (w', _) => (w', Ok tt)
           end.
(** Run [m] and hand its outcome to the [except] clauses. *)
Definition attempt {A} (m : M A) : M (Res A) :=
  fun w => match m w with
           | (w', r) => (w', Ok r)
           end.

#[local] Instance M_ret : MRet M := @ret.
#[local] Instance M_bind : MBind M := fun A B f m => bind m f.

(** A remote call: run it on [self.conf] and record it. *)
Definition call {A} (op : R -> R * Res A) (ev : Res A -> Event) : M A :=
  fun w =>
    let '(r', res) := op (remote w) in
    (mkWorld r' (key_to_page w) (label_to_page w) (path_to_page w) (log w ++ [ev res]),
     res).

Definition set_key_to_page (k v : str) : M unit :=
  fun w => (mkWorld (remote w) (<[k:=v]> (key_to_page w)) (label_to_page w)
              (path_to_page w) (log w), Ok tt).
Definition pop_key_to_page (k : str) : M unit :=
  fun w => (mkWorld (remote w) (delete k (key_to_page w)) (label_to_page w)
              (path_to_page w) (log w), Ok tt).
Definition set_path_to_page (k v : str) : M unit :=
  fun w => (mkWorld (remote w) (key_to_page w) (label_to_page w)
              (<[k:=v]> (path_to_page w)) (log w), Ok tt).
Definition pop_path_to_page (k : str) : M unit :=
  fun w => (mkWorld (remote w) (key_to_page w) (label_to_page w)
              (delete k (path_to_page w)) (log w), Ok tt).

(** [d.get(k)] followed by [if v:]: the value when it is a non-empty
    string. *)
Definition nonempty (o : option str) : option str :=
  match o with
  | Some (c :: s) => Some (c :: s)
  | _ => None
  end.

Variable cfg : Cfg.

(** ** Low-level upsert *)

Definition _ensure_labels (page_id : str) (labels : list str) : M unit :=
  call (add_labels page_id labels) (EvAddLabels page_id labels).

Definition _adopt_by_title_under_root (title : str) : M (option str) :=
  if negb (adopt_existing_by_title_under_root cfg) then ret None
  else
    found ← call (find_page_by_title (space cfg) title) (EvFind (space cfg) title);
    match found with
    | None => ret None
    | Some f =>
        if negb (existsb (fun a => str_eqb a (docs_root_id cfg)) (ancestors f))
        then ret None
        else ret (Some (fid f))
    end.

(** The keyword arguments of [ensure_page] other than [key]. *)
Record Args : Type := mkArgs {
  title : str;
  parent_id : str;
  storage : str;
  extra_labels : list str;
  page_labels : option (list str);
  collision_prefix : option str
}.

Section EnsurePage.

Variable key : str.
Variable a : Args.

Definition is_title_exists (err : str) : bool :=
  contains (py "A page with this title already exists") err
  || contains (py "already exists") err.

(** [uniq preserve order] *)
Fixpoint uniq (seen : list str) (out : list str) : list str :=
  match out with
  | [] => []
  | t :: out' =>
      if bool_decide (t ∈ seen) then uniq seen out'
      else t :: uniq (t :: seen) out'
  end.

Definition title_candidates (base : str) : list str :=
  let base := strip base in
  let out := match base with [] => [] | _ => [base] end in
  let out :=
    match nonempty (collision_prefix a) with
    | Some cp =>
        let pref := strip cp in
        match pref with
        | [] => out
        | _ => if negb (startswith base pref) then out ++ [pref ++ py " · " ++ base]
               else out
        end
    | None => out
    end in
  let short := take 6 (_sha1 key) in
  let out := out ++ [base ++ py " [" ++ short ++ py "]"] in
  uniq [] out.

(** The loop of [try_update] over the candidates still to try. *)
Fixpoint try_update_loop (page_id : str) (cands : list str) (last_err : option exn)
    : M str :=
  match cands with
  | [] => raise (default (RuntimeError (py "Update failed (unknown)")) last_err)
  | t :: rest =>
      r ← attempt (call (update_page page_id (space cfg) (parent_id a) t (storage a))
                     (EvUpdate page_id (space cfg) (parent_id a) t (storage a)));
      match r with
      | Ok _ => ret t
      | Raise (RuntimeError msg) =>
          if is_title_exists msg then try_update_loop page_id rest (Some (RuntimeError msg))
          else raise (RuntimeError msg)
      | Raise e => raise e
      end
  end.

Definition try_update (page_id : str) : M str :=
  try_update_loop page_id (title_candidates (title a)) None.

(** The loop of [try_create]. *)
Fixpoint try_create_loop (cands : list str) (last_err : option exn) : M (str * str) :=
  match cands with
  | [] => raise (default (RuntimeError (py "Create failed (unknown)")) last_err)
  | t :: rest =>
      r ← attempt (call (create_page (space cfg) (parent_id a) t (storage a))
                     (EvCreate (space cfg) (parent_id a) t (storage a)));
      match r with
      | Ok created_id => ret (created_id, t)
      | Raise (RuntimeError msg) =>
          if is_title_exists msg then
            adopted_id ← _adopt_by_title_under_root t;
            match nonempty adopted_id with
            | Some adopted_id =>
                used ← try_update adopted_id;
                ret (adopted_id, used)
            | None => try_create_loop rest (Some (RuntimeError msg))
            end
          else raise (RuntimeError msg)
      | Raise e => raise e
      end
  end.

Definition try_create : M (str * str) :=
  try_create_loop (title_candidates (title a)) None.

Fixpoint delete_labels_quietly (pid : str) (labels : list str) : M unit :=
  match labels with
  | [] => ret tt
  | lb2 :: rest =>
      swallow (call (delete_label pid lb2) (EvDeleteLabel pid lb2));;
      delete_labels_quietly pid rest
  end.

Definition write_source_meta (pid used_title : str) (meta_labels : list str) : M unit :=
  let payload :=
    mkPayload key used_title (take 12 (_sha1 key))
      (map (fun x => lower (strip x))
           (List.filter (fun x => negb (str_eqb (strip x) [])) meta_labels)) in
  call (put_property pid PROPERTY_KEY payload) (EvPutProperty pid PROPERTY_KEY payload);;
  call (put_property pid (py "source") payload) (EvPutProperty pid (py "source") payload);;
  if migrate_legacy_doc_labels cfg then delete_labels_quietly pid VISIBLE_META_LABELS
  else ret tt.

Definition ensure_page : M str :=
  let page_labels := default [] (page_labels a) in
  let lb := _label_for key in
  fun w =>
    match nonempty (key_to_page w !! key) with
    | Some page_id =>
        (used_title ← try_update page_id;
         _ensure_labels page_id (managed_label cfg :: page_labels);;
         write_source_meta page_id used_title (extra_labels a);;
         ret page_id) w
    | None =>
        match nonempty (label_to_page w !! lb) with
        | Some legacy_id =>
            (used_title ← try_update legacy_id;
             _ensure_labels legacy_id (managed_label cfg :: page_labels);;
             write_source_meta legacy_id used_title (extra_labels a);;
             swallow (call (delete_label legacy_id lb) (EvDeleteLabel legacy_id lb));;
             set_key_to_page key legacy_id;;
             ret legacy_id) w
        | None =>
            (adopted_id ← _adopt_by_title_under_root (title a);
             match nonempty adopted_id with
             | Some adopted_id =>
                 used_title ← try_update adopted_id;
                 _ensure_labels adopted_id (managed_label cfg :: page_labels);;
                 write_source_meta adopted_id used_title (extra_labels a);;
                 swallow (call (delete_label adopted_id lb) (EvDeleteLabel adopted_id lb));;
                 set_key_to_page key adopted_id;;
                 ret adopted_id
             | None =>
                 created ← try_create;
                 let '(page_id, used_title) := created in
                 _ensure_labels page_id (managed_label cfg :: page_labels);;
                 write_source_meta page_id used_title (extra_labels a);;
                 set_key_to_page key page_id;;
                 ret page_id
             end) w
        end
    end.

End EnsurePage.

(** ** Publishing one entry *)

Record Entry : Type := mkEntry {
  e_current_path : str;
  e_md_text : str;
  e_title : str;
  e_key : str;
  e_parent_id : str;
  e_collision_prefix : str;
  rename_from_key : option str;
  rename_from_path : option str
}.

(** The entry [publish_all] builds for the file at [current_path]:
    [key = f"file:{current_path}"], and for a change [R old new] the old
    path and [f"file:{old_path}"]. *)
Definition entry_for (current_path md_text title parent_id collision_prefix : str)
    (renamed_from : option str) : Entry :=
  mkEntry current_path md_text title (py "file:" ++ current_path) parent_id
    collision_prefix
    (match renamed_from with
     | Some old => Some (py "file:" ++ _norm_posix old)
     | None => None
     end)
    (match renamed_from with
     | Some old => Some (_norm_posix old)
     | None => None
     end).

(** [conv.convert(md_text, current_path=...)] followed by
    [extract_tag_labels(res.front_matter)]: the storage markup and the page
    labels, or the exception of the conversion. A converter with a link
    resolver reads [self.path_to_page]. *)
Definition Conv : Type := gmap str str -> str -> str -> Res (str * list str).

Definition publish_entry (conv : Conv) (e : Entry) : M str :=
  (match nonempty (rename_from_key e) with
   | Some rk =>
       if negb (str_eqb rk (e_key e)) then
         fun w =>
           match nonempty (key_to_page w !! rk), key_to_page w !! e_key e with
           | Some old_pid, None => set_key_to_page (e_key e) old_pid w
           | _, _ => (w, Ok tt)
           end
       else ret tt
   | None => ret tt
   end);;
  res ← (fun w => (w, conv (path_to_page w) (e_md_text e) (e_current_path e)));
  page_id ← ensure_page (e_key e)
              (mkArgs (e_title e) (e_parent_id e) (fst res) [py "md"] (Some (snd res))
                 (Some (e_collision_prefix e)));
  set_path_to_page (e_current_path e) page_id;;
  (match nonempty (rename_from_path e) with
   | Some rp => pop_path_to_page rp
   | None => ret tt
   end);;
  (match nonempty (rename_from_key e) with
   | Some rk =>
       if negb (str_eqb rk (e_key e)) then
         fun w =>
           if bool_decide (key_to_page w !! rk = Some page_id) then pop_key_to_page rk w
           else (w, Ok tt)
       else ret tt
   | None => ret tt
   end);;
  ret page_id.

(** [for e in entries: publish_entry(e, conv)] *)
Fixpoint publish_entries (conv : Conv) (entries : list Entry) : M unit :=
  match entries with
  | [] => ret tt
  | e :: rest => publish_entry conv e;; publish_entries conv rest
  end.

End WithRemote.

(** ** The link resolver *)

(** The six components [urlparse] returns. *)
Record UrlParts : Type := mkUrl {
  u_scheme : str;
  u_netloc : str;
  u_path : str;
  u_params : str;
  u_query : str;
  u_fragment : str
}.

Section LinkResolver.

(** [urllib.parse.urlparse] (it raises ValueError on a malformed bracketed
    host) and [urllib.parse.unquote]. *)
Variable urlparse : str -> Res UrlParts.
Variable unquote : str -> str.

(** The context path the view URL starts with, from the path of the
    configured base address. *)
Definition context_path (parsed_path : str) : str :=
  let base_path := rstrip_char 47 parsed_path in
  let base_path :=
    if endswith base_path (py "/rest/api")
    then take (length base_path - length (py "/rest/api")) base_path
    else base_path in
  match base_path with
  | [] => base_path
  | _ => if negb (startswith base_path (py "/")) then py "/" ++ base_path else base_path
  end.

Definition _link_resolver (cfg : Cfg) (path_to_page : gmap str str)
    (href : str) (current_path : option str) : Res (option str) :=
  match nonempty current_path with
  | None => Ok None
  | Some current_path =>
      match urlparse href with
      | Raise e => Raise e
      | Ok u =>
          if negb (str_eqb (u_scheme u) []) || startswith href (py "#") then Ok None
          else
            let path := unquote (u_path u) in
            let path := if startswith path (py "/") then lstrip_char 47 path else path in
            if negb (endswith (lower path) (py ".md")) then Ok None
            else
              let target := parent_join (_norm_posix current_path) path in
              let target := _norm_posix target in
              match nonempty (path_to_page !! target) with
              | None => Ok None
              | Some page_id =>
                  match urlparse (base_url cfg) with
                  | Raise e => Raise e
                  | Ok parsed =>
                      let base_path := context_path (u_path parsed) in
                      let url := base_path ++ py "/pages/viewpage.action?pageId=" ++ page_id in
                      let url := match u_fragment u with
                                 | [] => url
                                 | f => url ++ py "#" ++ f
                                 end in
                      Ok (Some url)
                  end
              end
      end
  end.

End LinkResolver.

End Publisher.
Import Converter Publisher.

(* ===================================================================== *)
(** * Library functions and the test double, for evaluating the code *)
(* ===================================================================== *)

(** The theorems below hold for every [urlparse], [unquote], [safe_load] and
    every remote store. To run the code on the inputs of the repository's
    tests, this part gives executable stand-ins: [urllib.parse] as CPython
    implements it, one documented behaviour of PyYAML, and the
    [FakeConfluence] of tests/test_docs_publisher_ensure_page.py. *)

Module UrlLib.

Definition is_alpha (c : N) : bool :=
  ((65 <=? c) && (c <=? 90)) || ((97 <=? c) && (c <=? 122)).
Definition is_scheme_char (c : N) : bool :=
  is_alpha c || ((48 <=? c) && (c <=? 57)) || (c =? 43) || (c =? 45) || (c =? 46).

(** [s.partition(ch)] as (before, found, after). *)
Fixpoint partition_char (p : N -> bool) (s : str) : str * bool * str :=
  match s with
  | [] => ([], false, [])
  | c :: s' =>
      if p c then ([], true, s')
      else let '(b, f, r) := partition_char p s' in (c :: b, f, r)
  end.

(** Up to the first character satisfying [p], and from it on. *)
Fixpoint break_at (p : N -> bool) (s : str) : str * str :=
  match s with
  | [] => ([], [])
  | c :: s' => if p c then ([], s) else let '(b, r) := break_at p s' in (c :: b, r)
  end.

Definition uses_params : list str :=
  [[]; py "ftp"; py "hdl"; py "prospero"; py "http"; py "imap"; py "https";
   py "shttp"; py "rtsp"; py "rtspu"; py "sip"; py "sips"; py "mms"; py "sftp";
   py "tel"].

Definition has_char (ch : N) (s : str) : bool := existsb (N.eqb ch) s.

(** [_splitparams] *)
Definition splitparams (url : str) : str * str :=
  let segs := split_char 47 url in
  match last segs with
  | Some seg =>
      let '(b, f, r) := partition_char (N.eqb 59) seg in
      if f then (join (py "/") (removelast segs ++ [b]), r) else (url, [])
  | None => (url, [])
  end.

Definition urlparse (url : str) : Res UrlParts :=
  let url := List.filter (fun c => negb ((c =? 9) || (c =? 10) || (c =? 13)))
               (snd (break_at (fun c => negb (c <=? 32)) url)) in
  let '(scheme, url) :=
    let '(b, f, r) := partition_char (N.eqb 58) url in
    match b with
    | c :: _ => if f && is_alpha c && forallb is_scheme_char b then (lower b, r)
                else ([], url)
    | [] => ([], url)
    end in
  let '(netloc, url) :=
    if startswith url (py "//")
    then break_at (fun c => (c =? 47) || (c =? 63) || (c =? 35)) (drop 2 url)
    else ([], url) in
  if xorb (has_char 91 netloc) (has_char 93 netloc)
  then Raise (OtherError (py "ValueError") (py "Invalid IPv6 URL"))
  else
    let '(url, _, fragment) := partition_char (N.eqb 35) url in
    let '(url, _, query) := partition_char (N.eqb 63) url in
    let '(url, params) :=
      if bool_decide (scheme ∈ uses_params) && has_char 59 url then splitparams url
      else (url, []) in
    Ok (mkUrl scheme netloc url params query fragment).

Definition hex_val (c : N) : option N :=
  if (48 <=? c) && (c <=? 57) then Some (c - 48)
  else if (97 <=? c) && (c <=? 102) then Some (c - 87)
  else if (65 <=? c) && (c <=? 70) then Some (c - 55)
  else None.

(** [unquote]: the %XX escapes of each ASCII run are decoded to bytes and the
    run is decoded as UTF-8. [buf] is the current run, reversed. *)
Fixpoint unquote_aux (buf : list N) (s : str) : str :=
  let flush := utf8_decode (length buf) (rev buf) in
  match s with
  | [] => flush
  | 37 :: r =>
      match r with
      | h1 :: h2 :: r' =>
          match hex_val h1, hex_val h2 with
          | Some a, Some b => unquote_aux ((16 * a + b) :: buf) r'
          | _, _ => unquote_aux (37 :: buf) r
          end
      | _ => unquote_aux (37 :: buf) r
      end
  | c :: r =>
      if c <? 128 then unquote_aux (c :: buf) r
      else flush ++ c :: unquote_aux [] r
  end.
Definition unquote (s : str) : str :=
  if has_char 37 s then unquote_aux [] s else s.

End UrlLib.

Module Yaml.

(** One behaviour of [yaml.safe_load] that PyYAML documents: a document
    whose first token starts with a reserved indicator ([@] or a backtick)
    is a scanner error; a blank document loads as None. Every other document
    is outside this stand-in, which returns it as a plain scalar. *)
Definition safe_load (raw : str) : Res yaml :=
  match lstrip raw with
  | [] => Ok YNull
  | c :: _ =>
      if (c =? 64) || (c =? 96)
      then Raise (OtherError (py "ScannerError")
                    (py "found character that cannot start any token"))
      else Ok (YStr (strip raw))
  end.

End Yaml.

Module Fake.

(** The state of a [FakeConfluence]: what it recorded, and its controls. *)
Record Fake : Type := mkFake {
  created : list (str * str * str * str);
  updated : list (str * str * str * str * str);
  labeled : list (str * list str);
  props : list (str * str * Payload);
  deleted_labels : list (str * str);
  _create_fail_titles : list str;
  _update_fail_titles : list str;
  _find_by_title : list (str * Found)
}.

Definition already_exists : exn :=
  RuntimeError (py "A page with this title already exists").

Definition fake_create_page (space parent_id title storage : str) (f : Fake)
    : Fake * Res str :=
  if bool_decide (title ∈ _create_fail_titles f) then (f, Raise already_exists)
  else
    let created' := created f ++ [(space, parent_id, title, storage)] in
    (mkFake created' (updated f) (labeled f) (props f) (deleted_labels f)
       (_create_fail_titles f) (_update_fail_titles f) (_find_by_title f),
     Ok (py "new:" ++ str_of_N (N.of_nat (length created')))).

Definition fake_update_page (page_id space parent_id title storage : str) (f : Fake)
    : Fake * Res unit :=
  if bool_decide (title ∈ _update_fail_titles f) then (f, Raise already_exists)
  else
    (mkFake (created f) (updated f ++ [(page_id, space, parent_id, title, storage)])
       (labeled f) (props f) (deleted_labels f)
       (_create_fail_titles f) (_update_fail_titles f) (_find_by_title f),
     Ok tt).

Definition fake_add_labels (page_id : str) (labels : list str) (f : Fake)
    : Fake * Res unit :=
  (mkFake (created f) (updated f) (labeled f ++ [(page_id, labels)]) (props f)
     (deleted_labels f) (_create_fail_titles f) (_update_fail_titles f)
     (_find_by_title f),
   Ok tt).

Definition fake_put_property (page_id key : str) (value : Payload) (f : Fake)
    : Fake * Res unit :=
  (mkFake (created f) (updated f) (labeled f) (props f ++ [(page_id, key, value)])
     (deleted_labels f) (_create_fail_titles f) (_update_fail_titles f)
     (_find_by_title f),
   Ok tt).

Definition fake_delete_label (page_id label : str) (f : Fake) : Fake * Res unit :=
  (mkFake (created f) (updated f) (labeled f) (props f)
     (deleted_labels f ++ [(page_id, label)])
     (_create_fail_titles f) (_update_fail_titles f) (_find_by_title f),
   Ok tt).

Fixpoint assoc (k : str) (l : list (str * Found)) : option Found :=
  match l with
  | [] => None
  | (k', v) :: l' => if str_eqb k k' then Some v else assoc k l'
  end.

Definition fake_find_page_by_title (space title : str) (f : Fake)
    : Fake * Res (option Found) :=
  (f, Ok (assoc title (_find_by_title f))).

#[global] Instance fake_confluence : Confluence Fake := {
  create_page := fake_create_page;
  update_page := fake_update_page;
  find_page_by_title := fake_find_page_by_title;
  add_labels := fake_add_labels;
  put_property := fake_put_property;
  delete_label := fake_delete_label
}.

Definition fresh : Fake := mkFake [] [] [] [] [] [] [] [].

(** [_mk_cfg] of the tests. *)
Definition test_cfg : Cfg :=
  mkCfg (py "https://conf.company.ru/wiki") (py "DOC") (py "100") (py "managed-docs")
    true true.

Definition world0 (f : Fake) : World :=
  mkWorld f ∅ ∅ ∅ [].

End Fake.

(* ===================================================================== *)
(** * Facts about strings and the hash *)
(* ===================================================================== *)

(** Replace the literals [py "..."] by their code points. *)
Ltac py_norm :=
  repeat match goal with
         | |- context [py ?s] =>
             let v := eval vm_compute in (py s) in change (py s) with v
         | H : context [py ?s] |- _ =>
             let v := eval vm_compute in (py s) in change (py s) with v in H
         end.

Section StrFacts.

Lemma startswith_spec (s p : str) :
  startswith s p = true <-> exists r, s = p ++ r.
Proof.
  revert s. induction p as [|x p IH]; intros s; simpl.
  - split; [intros _; exists s; reflexivity | intros _; destruct s; reflexivity].
  - destruct s as [|y s].
    + split; [discriminate | intros [r Hr]; discriminate].
    + simpl. destruct (N.eqb_spec x y) as [->|Hne]; simpl.
      * rewrite IH. split.
        -- intros [r ->]. exists r. reflexivity.
        -- intros [r Hr]. injection Hr as ->. exists r. reflexivity.
      * split; [discriminate | intros [r Hr]; injection Hr as -> _; contradiction].
Qed.

Lemma startswith_take (s : str) (n : nat) : startswith s (take n s) = true.
Proof. apply startswith_spec. exists (drop n s). symmetry. apply take_drop. Qed.

Lemma str_eqb_eq (a b : str) : str_eqb a b = true <-> a = b.
Proof. unfold str_eqb. apply bool_decide_eq_true. Qed.

Lemma str_eqb_refl (a : str) : str_eqb a a = true.
Proof. apply str_eqb_eq. reflexivity. Qed.

Lemma str_eqb_neq (a b : str) : str_eqb a b = false <-> a <> b.
Proof. unfold str_eqb. apply bool_decide_eq_false. Qed.

Lemma hex_length (n : nat) (x : N) : length (Sha1.hex n x) = n.
Proof.
  revert x. induction n as [|n IH]; intros x; simpl; [reflexivity|].
  rewrite length_app, IH. simpl. lia.
Qed.

Lemma hex_digit_is_hex (x : N) : x < 16 -> is_hex_digit (Sha1.hex_digit x) = true.
Proof.
  intros Hx. unfold Sha1.hex_digit, is_hex_digit.
  destruct (N.ltb_spec x 10).
  - apply orb_true_iff. left. apply andb_true_iff. split; apply N.leb_le; lia.
  - apply orb_true_iff. right. apply andb_true_iff. split; apply N.leb_le; lia.
Qed.

Lemma hex_all_hex (n : nat) (x : N) : Forall (fun c => is_hex_digit c = true) (Sha1.hex n x).
Proof.
  revert x. induction n as [|n IH]; intros x; simpl; [constructor|].
  apply Forall_app. split; [apply IH|].
  constructor; [|constructor]. apply hex_digit_is_hex. apply N.mod_lt. discriminate.
Qed.

Lemma sha1_length (s : str) : length (_sha1 s) = 40%nat.
Proof.
  unfold _sha1, Sha1.hexdigest. destruct (Sha1.digest _) as [a b c d e].
  rewrite !length_app, !hex_length. reflexivity.
Qed.

Lemma sha1_hex (s : str) : Forall (fun c => is_hex_digit c = true) (_sha1 s).
Proof.
  unfold _sha1, Sha1.hexdigest. destruct (Sha1.digest _) as [a b c d e].
  rewrite !Forall_app. repeat split; apply hex_all_hex.
Qed.

End StrFacts.


(* ===================================================================== *)
(** * What a match means *)
(* ===================================================================== *)

Section RegexFacts.

(** [matches r w rest c c']: [r] matches the word [w] when [rest] follows it,
    and the captures go from [c] to [c'] (the last group recorded first). *)
Inductive matches : re -> str -> str -> caps -> caps -> Prop :=
| MEps rest c : matches Eps [] rest c c
| MChr p x rest c : p x = true -> matches (Chr p) [x] rest c c
| MCat a b u v rest c c1 c2 :
    matches a u (v ++ rest) c c1 -> matches b v rest c1 c2 ->
    matches (Cat a b) (u ++ v) rest c c2
| MAltL a b u rest c c1 : matches a u rest c c1 -> matches (Alt a b) u rest c c1
| MAltR a b u rest c c1 : matches b u rest c c1 -> matches (Alt a b) u rest c c1
| MStar0 g a rest c : matches (Star g a) [] rest c c
| MStarS g a u v rest c c1 c2 :
    u <> [] -> matches a u (v ++ rest) c c1 -> matches (Star g a) v rest c1 c2 ->
    matches (Star g a) (u ++ v) rest c c2
| MGroup i a u rest c c1 :
    matches a u rest c c1 -> matches (Group i a) u rest c ((i, u) :: c1)
| MEos rest c : rest = [] \/ rest = [10] -> matches Eos [] rest c c.

Lemma or_else_some {A} (x y : option A) (v : A) :
  or_else x y = Some v -> x = Some v \/ (x = None /\ y = Some v).
Proof. destruct x; simpl; intros Hx; [left; exact Hx | right; split; [reflexivity | exact Hx]]. Qed.

Definition sound_for (r : re) : Prop :=
  forall s c k res, rmatch r s c k = Some res ->
    exists w s' c', s = w ++ s' /\ matches r w s' c c' /\ k s' c' = Some res.

Lemma star_loop_sound (a : re) (g : bool) (k : str -> caps -> option (str * caps)) :
  sound_for a ->
  forall n s c res, star_loop (rmatch a) g k n s c = Some res ->
    exists w s' c', s = w ++ s' /\ matches (Star g a) w s' c c' /\ k s' c' = Some res.
Proof.
  intros IHa. induction n as [|n IHn]; intros s c res Hres.
  - simpl in Hres.
    assert (Hk : k s c = Some res).
    { destruct g; simpl in Hres; [exact Hres|]. destruct (k s c); [exact Hres | discriminate]. }
    exists [], s, c. split; [reflexivity|]. split; [constructor | exact Hk].
  - simpl in Hres.
    assert (Hcases :
      k s c = Some res \/
      rmatch a s c
        (fun s' c' => if (length s' <? length s)%nat
                      then star_loop (rmatch a) g k n s' c' else None) = Some res).
    { destruct g; apply or_else_some in Hres as [Hx|[_ Hx]]; auto. }
    destruct Hcases as [Hk|Hmore].
    + exists [], s, c. split; [reflexivity|]. split; [constructor | exact Hk].
    + apply IHa in Hmore as (u & s1 & c1 & -> & Hu & Hcont).
      destruct (Nat.ltb_spec (length s1) (length (u ++ s1))) as [Hlt|]; [|discriminate].
      apply IHn in Hcont as (v & s' & c2 & -> & Hv & Hk).
      exists (u ++ v), s', c2. split; [apply app_assoc|].
      split; [|exact Hk].
      apply MStarS with (c1 := c1); [|exact Hu | exact Hv].
      intros ->. simpl in Hlt. lia.
Qed.

Lemma rmatch_sound (r : re) : sound_for r.
Proof.
  induction r as [|p|a IHa b IHb|a IHa b IHb|g a IHa|i a IHa|];
    intros s c k res Hres; simpl in Hres.
  - exists [], s, c. split; [reflexivity|]. split; [constructor | exact Hres].
  - destruct s as [|x s]; [discriminate|]. destruct (p x) eqn:Hp; [|discriminate].
    exists [x], s, c. split; [reflexivity|]. split; [constructor; exact Hp | exact Hres].
  - apply IHa in Hres as (u & s1 & c1 & -> & Hu & Hres).
    apply IHb in Hres as (v & s' & c2 & -> & Hv & Hk).
    exists (u ++ v), s', c2. split; [apply app_assoc|].
    split; [econstructor; eassumption | exact Hk].
  - apply or_else_some in Hres as [Hres|[_ Hres]].
    + apply IHa in Hres as (u & s' & c1 & -> & Hu & Hk).
      exists u, s', c1. split; [reflexivity|]. split; [apply MAltL; exact Hu | exact Hk].
    + apply IHb in Hres as (u & s' & c1 & -> & Hu & Hk).
      exists u, s', c1. split; [reflexivity|]. split; [apply MAltR; exact Hu | exact Hk].
  - eapply star_loop_sound; eassumption.
  - apply IHa in Hres as (u & s' & c1 & -> & Hu & Hk).
    exists u, s', ((i, u) :: c1). split; [reflexivity|].
    split; [constructor; exact Hu|].
    rewrite length_app in Hk.
    replace (length u + length s' - length s')%nat with (length u) in Hk by lia.
    rewrite take_app_length in Hk. exact Hk.
  - assert (Hs : (s = [] \/ s = [10]) /\ k s c = Some res).
    { destruct s as [|x [|y s]]; [split; [left; reflexivity | exact Hres] | | discriminate].
      destruct (N.eqb_spec x 10) as [->|Hne]; [|discriminate].
      split; [right; reflexivity | exact Hres]. }
    destruct Hs as [Hs Hk].
    exists [], s, c. split; [reflexivity|]. split; [constructor; exact Hs | exact Hk].
Qed.

(** A match of the whole pattern, read off [re_match]. *)
Lemma re_match_sound (r : re) (s rest : str) (c : caps) :
  re_match r s = Some (rest, c) -> exists w, s = w ++ rest /\ matches r w rest [] c.
Proof.
  intros Hm. apply rmatch_sound in Hm as (w & s' & c' & -> & Hw & Hk).
  injection Hk as -> ->. exists w. split; [reflexivity | exact Hw].
Qed.

(** Whenever some match exists, the backtracking search finds one. *)
Lemma rmatch_complete (r : re) (w rest : str) (c0 c1 : caps) :
  matches r w rest c0 c1 ->
  forall k, (forall c', is_Some (k rest c')) ->
    (forall c, is_Some (rmatch r (w ++ rest) c k))
    /\ (forall g a, r = Star g a -> forall n c, (length (w ++ rest) <= n)%nat ->
          is_Some (star_loop (rmatch a) g k n (w ++ rest) c)).
Proof.
  induction 1 as [rest c|p x rest c Hp|a b u v rest c c1 c2 _ IHa _ IHb
                 |a b u rest c c1 _ IHa|a b u rest c c1 _ IHb
                 |g a rest c|g a u v rest c c1 c2 Hne _ IHa _ IHs
                 |i a u rest c c1 _ IHa|rest c Hrest];
    intros k Hk.
  - split; [intros c'; simpl; apply Hk | discriminate].
  - split; [intros c'; simpl; rewrite Hp; apply Hk | discriminate].
  - split; [|discriminate]. intros c'. simpl. rewrite <- app_assoc.
    apply IHa. intros c''. apply IHb. exact Hk.
  - split; [|discriminate]. intros c'. simpl.
    destruct (proj1 (IHa k Hk) c') as [x Hx]. rewrite Hx. simpl. eauto.
  - split; [|discriminate]. intros c'. simpl.
    destruct (rmatch a (u ++ rest) c' k); simpl; [eauto|]. apply IHb. exact Hk.
  - assert (Hloop : forall n c', is_Some (star_loop (rmatch a) g k n ([] ++ rest) c')).
    { intros n c'. destruct (Hk c') as [x Hx]. simpl.
      destruct n as [|n]; simpl; rewrite Hx; destruct g; simpl;
        try (eexists; reflexivity);
        match goal with |- is_Some (or_else ?m _) => destruct m; simpl; eauto end. }
    split; [intros c'; apply Hloop|].
    intros g' a' Heq n c' _. injection Heq as <- <-. apply Hloop.
  - assert (Hloop : forall n c', (length ((u ++ v) ++ rest) <= n)%nat ->
              is_Some (star_loop (rmatch a) g k n ((u ++ v) ++ rest) c')).
    { intros n c' Hn. rewrite <- app_assoc in *.
      destruct n as [|n].
      { rewrite length_app in Hn. destruct u; [contradiction | simpl in Hn; lia]. }
      simpl.
      assert (Hmore : is_Some (rmatch a (u ++ v ++ rest) c'
                (fun s' c'' => if (length s' <? length (u ++ v ++ rest))%nat
                               then star_loop (rmatch a) g k n s' c'' else None))).
      { apply IHa. intros c''.
        assert (Hlt : (length (v ++ rest) < length (u ++ v ++ rest))%nat).
        { rewrite (length_app u). destruct u; [contradiction | simpl; lia]. }
        rewrite (proj2 (Nat.ltb_lt _ _) Hlt).
        apply (proj2 (IHs k Hk) g a eq_refl). lia. }
      destruct Hmore as [x Hx]. rewrite Hx.
      destruct g; simpl; [eauto|]. destruct (k _ c'); simpl; eauto. }
    split; [intros c'; simpl; apply Hloop; lia|].
    intros g' a' Heq n c' Hn. injection Heq as <- <-. apply Hloop. exact Hn.
  - split; [|discriminate]. intros c'. simpl. apply IHa.
    intros c''. apply Hk.
  - split; [|discriminate]. intros c'. simpl.
    destruct Hrest as [->| ->]; apply Hk.
Qed.

Lemma re_match_complete (r : re) (w rest : str) (c0 c1 : caps) :
  matches r w rest c0 c1 -> is_Some (re_match r (w ++ rest)).
Proof.
  intros Hm. unfold re_match.
  destruct (rmatch_complete r w rest c0 c1 Hm (fun s' c => Some (s', c))) as [Hall _].
  - intros c'. eexists. reflexivity.
  - apply Hall.
Qed.

(** Words made of blanks only match [\s*]. *)
Lemma matches_ws_star (g : bool) (u rest : str) (c : caps) :
  Forall (fun x => is_space x = true) u -> matches (Star g ws) u rest c c.
Proof.
  induction 1 as [|x u Hx _ IH]; [constructor|].
  apply (MStarS g ws [x] u rest c c c); [discriminate | | exact IH].
  constructor. exact Hx.
Qed.

Lemma matches_star_chr_inv (g : bool) (p : N -> bool) (u rest : str) (c c' : caps) :
  matches (Star g (Chr p)) u rest c c' -> Forall (fun x => p x = true) u /\ c' = c.
Proof.
  remember (Star g (Chr p)) as r eqn:Hr. intros Hm. revert Hr.
  induction Hm as [| | | | | |g' a u v rest c c1 c2 _ Hu _ _ IHs| |]; intros Hr;
    try discriminate Hr.
  - split; [constructor | reflexivity].
  - injection Hr as -> ->. inversion Hu; subst.
    destruct (IHs eq_refl) as [Hv ->]. split; [|reflexivity].
    constructor; assumption.
Qed.

Lemma matches_lit (s rest : str) (c : caps) : matches (lit s) s rest c c.
Proof.
  induction s as [|x s IH]; simpl; [constructor|].
  apply (MCat (chr x) (lit s) [x] s rest c c c); [|exact IH].
  constructor. apply N.eqb_refl.
Qed.

Lemma matches_lit_inv (s w rest : str) (c c' : caps) :
  matches (lit s) w rest c c' -> w = s /\ c' = c.
Proof.
  revert w c c'. induction s as [|x s IH]; intros w c c' Hm; simpl in Hm.
  - inversion Hm; subst. split; reflexivity.
  - inversion Hm as [| |a b u v rest' c0 c1 c2 Hu Hv| | | | | |]; subst.
    inversion Hu; subst.
    match goal with Hx : (x =? _) = true |- _ => apply N.eqb_eq in Hx; subst end.
    apply IH in Hv as [-> ->]. split; reflexivity.
Qed.

End RegexFacts.

(** Take a match of a concrete pattern apart. *)
Ltac inv_matches :=
  repeat match goal with
         | H : matches (lit _) _ _ _ _ |- _ => apply matches_lit_inv in H as [-> ->]
         | H : matches (Star _ (Chr _)) _ _ _ _ |- _ =>
             apply matches_star_chr_inv in H as [? ->]
         | H : matches (Cat _ _) _ _ _ _ |- _ => inversion H; clear H; subst
         | H : matches (Alt _ _) _ _ _ _ |- _ => inversion H; clear H; subst
         | H : matches (Group _ _) _ _ _ _ |- _ => inversion H; clear H; subst
         | H : matches (Chr _) _ _ _ _ |- _ => inversion H; clear H; subst
         | H : matches (chr _) _ _ _ _ |- _ => inversion H; clear H; subst
         | H : matches Eps _ _ _ _ |- _ => inversion H; clear H; subst
         | H : matches Eos _ _ _ _ |- _ => inversion H; clear H; subst
         | H : (_ =? _) = true |- _ => apply N.eqb_eq in H; subst
         end.

(* ===================================================================== *)
(** * Title candidates (ensure_page.title_candidates) *)
(* ===================================================================== *)

Section TitleCandidates.

(** The candidate sequence as the specification words it: the bare title,
    the prefixed title when a prefix was supplied and the title does not
    start with it, and the title with the hash suffix. *)
Definition claimed_candidates (key : str) (prefix : option str) (title : str)
    : list str :=
  [title]
  ++ match prefix with
     | Some p => if startswith title p then [] else [p ++ py " · " ++ title]
     | None => []
     end
  ++ [title ++ py " [" ++ take 6 (_sha1 key) ++ py "]"].

(** The same sequence on the trimmed title and prefix, without an empty
    title and without an empty prefix. *)
Definition trimmed_candidates (key : str) (prefix : option str) (title : str)
    : list str :=
  let t := strip title in
  match t with [] => [] | _ => [t] end
  ++ match nonempty prefix with
     | Some cp =>
         match strip cp with
         | [] => []
         | p => if startswith t p then [] else [p ++ py " · " ++ t]
         end
     | None => []
     end
  ++ [t ++ py " [" ++ take 6 (_sha1 key) ++ py "]"].

Lemma uniq_nodup (seen l : list str) :
  NoDup l -> (forall x, x ∈ l -> x ∉ seen) -> uniq seen l = l.
Proof.
  revert seen. induction l as [|t l IH]; intros seen Hnd Hdisj; simpl; [reflexivity|].
  apply NoDup_cons in Hnd as [Hnotin Hnd].
  rewrite bool_decide_eq_false_2 by (apply Hdisj; left).
  f_equal. apply IH; [exact Hnd|].
  intros x Hx [->|Hs]%elem_of_cons; [contradiction|].
  apply (Hdisj x); [right; exact Hx | exact Hs].
Qed.

Lemma short_hash_length (key : str) : length (take 6 (_sha1 key)) = 6%nat.
Proof. rewrite length_take, sha1_length. reflexivity. Qed.

Lemma short_hash_hex (key : str) :
  Forall (fun c => is_hex_digit c = true) (take 6 (_sha1 key)).
Proof. apply Forall_take, sha1_hex. Qed.

Lemma bare_ne_hashed (t h : str) : t <> t ++ py " [" ++ h ++ py "]".
Proof.
  intros Heq. apply (f_equal length) in Heq.
  change (py " [") with [32; 91] in Heq.
  rewrite !length_app in Heq. simpl in Heq. lia.
Qed.

Lemma bare_ne_prefixed (p t : str) : t <> p ++ py " · " ++ t.
Proof.
  intros Heq. apply (f_equal length) in Heq.
  change (py " · ") with [32; 183; 32] in Heq.
  rewrite !length_app in Heq. simpl in Heq. lia.
Qed.

(** The prefixed title cannot be the hashed one: the prefix would have six
    characters, and either the title starts with it or the middle dot falls on
    a hexadecimal digit. *)
Lemma prefixed_ne_hashed (p t h : str) :
  length h = 6%nat -> Forall (fun c => is_hex_digit c = true) h ->
  startswith t p = false ->
  p ++ py " · " ++ t <> t ++ py " [" ++ h ++ py "]".
Proof.
  intros Hlen Hhex Hsw Heq.
  change (py " · ") with [32; 183; 32] in Heq.
  change (py " [") with [32; 91] in Heq.
  change (py "]") with [93] in Heq.
  assert (Hp : length p = 6%nat).
  { apply (f_equal length) in Heq. rewrite !length_app in Heq. simpl in Heq. lia. }
  destruct h as [|h0 [|h1 [|h2 [|h3 [|h4 [|h5 [|]]]]]]]; try discriminate Hlen.
  destruct p as [|p0 [|p1 [|p2 [|p3 [|p4 [|p5 [|]]]]]]]; try discriminate Hp.
  repeat match goal with
         | H : Forall _ (_ :: _) |- _ => apply Forall_cons in H as [? H]
         end.
  destruct t as [|t0 [|t1 [|t2 [|t3 [|t4 [|t5 t]]]]]];
    simpl in Heq; simplify_eq;
    try match goal with
        | Hx : is_hex_digit 183 = true |- _ => discriminate Hx
        end.
  rewrite (proj2 (startswith_spec _ _)) in Hsw; [discriminate Hsw|].
  exists t. reflexivity.
Qed.

Lemma trimmed_candidates_nodup (key : str) (prefix : option str) (title : str) :
  NoDup (trimmed_candidates key prefix title).
Proof.
  unfold trimmed_candidates.
  set (t := strip title). set (h := take 6 (_sha1 key)).
  assert (Hh := bare_ne_hashed t h).
  assert (Hb := fun p => bare_ne_prefixed p t).
  assert (Hph := fun p => prefixed_ne_hashed p t h (short_hash_length key)
                            (short_hash_hex key)).
  py_norm.
  destruct (nonempty prefix) as [cp|]; [destruct (strip cp) as [|c p] eqn:Hp|].
  2: destruct (startswith t (c :: p)) eqn:Hsw.
  all: destruct t as [|x t'] eqn:Ht; simpl;
    repeat (apply NoDup_cons; split); try apply NoDup_nil;
    rewrite ?elem_of_cons, ?elem_of_nil; try tauto.
  - intros [Heq|[]]. exact (Hph (c :: p) Hsw Heq).
  - intros [Heq|[Heq|[]]]; [exact (Hb (c :: p) Heq) | exact (Hh Heq)].
  - intros [Heq|[]]. exact (Hph (c :: p) Hsw Heq).
Qed.

Lemma title_candidates_trimmed (key : str) (a : Args) (base : str) :
  title_candidates key a base = trimmed_candidates key (collision_prefix a) base.
Proof.
  assert (Hu : forall l, NoDup l -> uniq [] l = l).
  { intros l Hl. apply uniq_nodup; [exact Hl|]. intros x _. apply not_elem_of_nil. }
  rewrite <- (Hu _ (trimmed_candidates_nodup key (collision_prefix a) base)).
  unfold title_candidates, trimmed_candidates.
  destruct (nonempty (collision_prefix a)) as [cp|]; [|reflexivity].
  destruct (strip cp) as [|c p]; [reflexivity|].
  destruct (startswith (strip base) (c :: p)); [reflexivity|].
  destruct (strip base); reflexivity.
Qed.

(** The arguments of the test test_ensure_page_creates_with_collision_prefix. *)
Definition hello_args : Args :=
  mkArgs (py "Hello") (py "100") (py "<p>x</p>") [py "md"] None (Some (py "DOCS")).

Example title_candidates_hello :
  title_candidates (py "file:docs/a.md") hello_args (py "Hello")
  = [py "Hello"; py "DOCS · Hello"; py "Hello [b8ff4d]"].
Proof. vm_compute. reflexivity. Qed.




End TitleCandidates.

(* ===================================================================== *)
(** * Front matter (strip_front_matter) *)
(* ===================================================================== *)

Section FrontMatterFacts.

Lemma matches_star_chr (g : bool) (p : N -> bool) (u rest : str) (c : caps) :
  Forall (fun x => p x = true) u -> matches (Star g (Chr p)) u rest c c.
Proof.
  induction 1 as [|x u Hx _ IH]; [constructor|].
  apply (MStarS g (Chr p) [x] u rest c c c); [discriminate | | exact IH].
  constructor. exact Hx.
Qed.

(** The text begins with a delimited block: the line "---" (blanks may
    follow the dashes), the block [raw], a line "---", and then [body]. *)
Definition front_matter_block (md raw body : str) : Prop :=
  exists ws1 ws2,
    Forall (fun x => is_space x = true) ws1
    /\ Forall (fun x => is_space x = true) ws2
    /\ md = py "---" ++ ws1 ++ [10] ++ raw ++ py "\n---" ++ ws2 ++ [10] ++ body.

Lemma _FRONT_MATTER_RE_eq :
  _FRONT_MATTER_RE
  = Cat (lit [45; 45; 45])
      (Cat (Star true (Chr is_space))
         (Cat (Chr (N.eqb 10))
            (Cat (Group 1 (Star false (Chr (fun _ => true))))
               (Cat (lit [10; 45; 45; 45])
                  (Cat (Star true (Chr is_space)) (Chr (N.eqb 10))))))).
Proof. reflexivity. Qed.

Lemma front_matter_match_sound (md body : str) (c : caps) :
  re_match _FRONT_MATTER_RE md = Some (body, c) ->
  front_matter_block md (group 1 c) body.
Proof.
  intros Hm. apply re_match_sound in Hm as (w & -> & Hw).
  rewrite _FRONT_MATTER_RE_eq in Hw. inv_matches.
  simpl group. unfold front_matter_block. py_norm.
  match goal with
  | H1 : Forall _ ?u1, H2 : Forall _ ?u2
    |- context [?u1 ++ [10] ++ _ ++ _ ++ ?u2 ++ [10]] =>
      exists u1, u2; split; [exact H1|]; split; [exact H2|]
  end.
  repeat (simpl; rewrite <- app_assoc). reflexivity.
Qed.

Lemma front_matter_match_complete (md raw body : str) :
  front_matter_block md raw body -> is_Some (re_match _FRONT_MATTER_RE md).
Proof.
  intros (ws1 & ws2 & H1 & H2 & ->).
  assert (Hm : matches _FRONT_MATTER_RE
                 (py "---" ++ ws1 ++ [10] ++ raw ++ py "\n---" ++ ws2 ++ [10])
                 body [] [(1%nat, raw)]).
  { unfold _FRONT_MATTER_RE, seq_re.
    repeat (eapply MCat).
    - apply matches_lit.
    - apply matches_ws_star. exact H1.
    - constructor. reflexivity.
    - constructor. apply matches_star_chr. apply Forall_forall. reflexivity.
    - apply matches_lit.
    - apply matches_ws_star. exact H2.
    - constructor. reflexivity. }
  apply re_match_complete in Hm.
  rewrite <- !app_assoc in Hm. exact Hm.
Qed.

Variable safe_load : str -> Res yaml.

Lemma strip_front_matter_no_match (md : str) :
  re_match _FRONT_MATTER_RE md = None ->
  strip_front_matter safe_load md = Ok (YMap [], md).
Proof. intros Hm. unfold strip_front_matter. rewrite Hm. reflexivity. Qed.

End FrontMatterFacts.

(** C2, counterexample. A well-delimited block whose content PyYAML cannot
    load: [safe_load] raises, and so does [strip_front_matter] (there is no
    handler around the call), for any loader that raises on that block. *)
Lemma strip_front_matter_raises :
  strip_front_matter Yaml.safe_load (py "---\n@\n---\nbody\n")
    = Raise (OtherError (py "ScannerError")
               (py "found character that cannot start any token"))
  /\ forall loader e, loader (py "@") = Raise e ->
       strip_front_matter loader (py "---\n@\n---\nbody\n") = Raise e.
Proof.
  split; [vm_compute; reflexivity|].
  intros loader e He. unfold strip_front_matter.
  replace (re_match _FRONT_MATTER_RE (py "---\n@\n---\nbody\n"))
    with (Some (py "body\n", [(1%nat, py "@")])) by (vm_compute; reflexivity).
  simpl group. rewrite He. reflexivity.
Qed.

(** C2, as amended. For every input text and every loader: if the text does
    not begin with a delimited front-matter block, the result is the empty
    mapping and the text unchanged; if it does, the loader is run on a block
    of the text, a loaded value is returned with the text after the block (a
    value that is None or empty becomes the empty mapping), and a failure
    of the loader is raised by [strip_front_matter] itself. *)
Theorem strip_front_matter_outcomes (safe_load : str -> Res yaml) (md : str) :
  ((forall raw body, ~ front_matter_block md raw body) ->
     strip_front_matter safe_load md = Ok (YMap [], md))
  /\ (forall raw body, front_matter_block md raw body ->
        exists raw' body',
          front_matter_block md raw' body'
          /\ match safe_load raw' with
             | Raise e => strip_front_matter safe_load md = Raise e
             | Ok v =>
                 strip_front_matter safe_load md
                 = Ok (if truthy v then v else YMap [], body')
             end).
Proof.
  split.
  - intros Hno. apply strip_front_matter_no_match.
    destruct (re_match _FRONT_MATTER_RE md) as [[body c]|] eqn:Hm; [|reflexivity].
    exfalso. exact (Hno _ _ (front_matter_match_sound md body c Hm)).
  - intros raw body Hblock.
    destruct (front_matter_match_complete md raw body Hblock) as [[body' c] Hm].
    exists (group 1 c), body'. split; [exact (front_matter_match_sound md body' c Hm)|].
    unfold strip_front_matter. rewrite Hm.
    destruct (safe_load (group 1 c)) as [v|e]; reflexivity.
Qed.

(* ===================================================================== *)
(** * Heading normalisation (_normalize_markdown) *)
(* ===================================================================== *)

Section NormalizeFacts.

Lemma endswith_spec (s p : str) : endswith s p = true -> s = take (length s - length p) s ++ p.
Proof.
  unfold endswith. intros Hs. apply startswith_spec in Hs as [r Hr].
  apply (f_equal (@rev N)) in Hr.
  rewrite rev_involutive, rev_app_distr, rev_involutive in Hr. subst s.
  rewrite length_app.
  replace (length (rev r) + length p - length p)%nat with (length (rev r)) by lia.
  rewrite take_app_length. reflexivity.
Qed.

Lemma split_ending_join (line : str) :
  fst (split_ending line) ++ snd (split_ending line) = line.
Proof.
  unfold split_ending.
  destruct (endswith line [13; 10]) eqn:H1; simpl.
  - symmetry. apply (endswith_spec line [13; 10] H1).
  - destruct (endswith line [10]) eqn:H2; simpl.
    + symmetry. apply (endswith_spec line [10] H2).
    + apply app_nil_r.
Qed.

(** The three counters, and the words of the specification: the level-1
    counter increments and resets levels 2 and 3; the level-2 counter
    increments and resets level 3; a shallower counter still at 0 is seeded
    to 1 when a deeper level is numbered. *)
Definition counters (st : NormState) : N * N * N := (n1 st, n2 st, n3 st).

Definition seed (n : N) : N := if n =? 0 then 1 else n.

Definition spec_bump (level : nat) (c : N * N * N) : N * N * N :=
  let '(a, b, d) := c in
  match level with
  | 1%nat => (a + 1, 0, 0)
  | 2%nat => (seed a, b + 1, 0)
  | _ => (seed a, seed b, d + 1)
  end.

(** The prefix "N. ", "N.M. ", "N.M.K. " of the given counters. *)
Definition spec_prefix (level : nat) (c : N * N * N) : str :=
  let '(a, b, d) := c in
  match level with
  | 1%nat => str_of_N a ++ py ". "
  | 2%nat => str_of_N a ++ py "." ++ str_of_N b ++ py ". "
  | _ => str_of_N a ++ py "." ++ str_of_N b ++ py "." ++ str_of_N d ++ py ". "
  end.

Lemma number_heading_spec (level : nat) (st : NormState) :
  counters (fst (number_heading level st)) = spec_bump level (counters st)
  /\ snd (number_heading level st) = spec_prefix level (spec_bump level (counters st))
  /\ in_fence (fst (number_heading level st)) = in_fence st
  /\ removed_first_h1 (fst (number_heading level st)) = removed_first_h1 st.
Proof.
  unfold number_heading, counters, spec_bump, spec_prefix, seed.
  destruct level as [|[|[|level]]]; simpl; repeat split; reflexivity.
Qed.

(** What the loop does with a heading line outside a fence: [None] when the
    line is dropped as the page title, else the level after promotion, the
    text after the numbering strip, and whether the heading is numbered. *)
Definition heading_plan (o : Options) (removed : bool) (core : str)
    : option (option (nat * str * bool)) :=
  match re_match _HEADING_RE core with
  | None => None
  | Some (_, c) =>
      let level := length (group 1 c) in
      if (level =? 1)%nat && strip_title_h1 o && negb removed then Some None
      else
        let level := if promote_headings o && (1 <? level)%nat then (level - 1)%nat
                     else level in
        Some (Some (level, _strip_heading_number_prefix o (group 2 c),
                    heading_numbering_in_text o && (level <=? 3)%nat
                    && (Z.of_nat level <=? max_lvl o)%Z))
  end.

(** The levels of the headings that get a number, in document order: the
    headings outside fenced regions, the title heading apart, whose level
    after promotion is at most 3 and at most the configured maximum. *)
Fixpoint numbered_levels (o : Options) (fence removed : bool) (lines : list str)
    : list nat :=
  match lines with
  | [] => []
  | line :: rest =>
      let core := fst (split_ending line) in
      match re_match _FENCE_RE core with
      | Some _ => numbered_levels o (negb fence) removed rest
      | None =>
          if fence then numbered_levels o fence removed rest
          else
            match heading_plan o removed core with
            | None => numbered_levels o fence removed rest
            | Some None => numbered_levels o fence true rest
            | Some (Some (level, _, numbered)) =>
                (if numbered then [level] else [])
                ++ numbered_levels o fence removed rest
            end
      end
  end.

(** One line, case by case. *)
Lemma norm_line_cases (o : Options) (st : NormState) (line : str) :
  let core := fst (split_ending line) in
  let nl := snd (split_ending line) in
  norm_line o st line =
    match re_match _FENCE_RE core with
    | Some _ =>
        (mkNorm (negb (in_fence st)) (removed_first_h1 st) (n1 st) (n2 st) (n3 st), [line])
    | None =>
        if in_fence st then (st, [line])
        else
          match heading_plan o (removed_first_h1 st) core with
          | None => (st, [line])
          | Some None => (mkNorm (in_fence st) true (n1 st) (n2 st) (n3 st), [])
          | Some (Some (level, text, true)) =>
              let prefix := snd (number_heading level st) in
              (fst (number_heading level st),
               [repeat 35 level ++ py " "
                ++ (if startswith text prefix then text else prefix ++ text) ++ nl])
          | Some (Some (level, text, false)) =>
              (st, [repeat 35 level ++ py " " ++ text ++ nl])
          end
    end.
Proof.
  intros core nl. unfold norm_line, heading_plan.
  assert (Hj := split_ending_join line). fold core nl in Hj.
  destruct (split_ending line) as [core' nl'] eqn:Hs. simpl in core, nl. subst core nl.
  rewrite Hj.
  destruct (re_match _FENCE_RE core') as [m|]; [reflexivity|].
  destruct (in_fence st); [reflexivity|].
  destruct (re_match _HEADING_RE core') as [[rest c]|]; [|reflexivity].
  destruct ((length (group 1 c) =? 1)%nat && strip_title_h1 o
            && negb (removed_first_h1 st)); [reflexivity|].
  cbv zeta.
  destruct (heading_numbering_in_text o && _ && _); [|reflexivity].
  destruct (number_heading _ st) as [st' prefix]. reflexivity.
Qed.

Lemma _FENCE_RE_eq :
  _FENCE_RE
  = Cat (Star true (Chr is_space))
      (Group 1 (Alt (lit [96; 96; 96]) (lit [126; 126; 126]))).
Proof. reflexivity. Qed.

(** A fence marker: blanks, then three backticks or three tildes. *)
Definition fence_marker (core : str) : Prop :=
  exists ws rest,
    Forall (fun x => is_space x = true) ws
    /\ (core = ws ++ py "```" ++ rest \/ core = ws ++ py "~~~" ++ rest).

Lemma fence_match_iff (core : str) :
  is_Some (re_match _FENCE_RE core) <-> fence_marker core.
Proof.
  split.
  - intros [[rest c] Hm]. apply re_match_sound in Hm as (w & -> & Hw).
    rewrite _FENCE_RE_eq in Hw. unfold fence_marker. py_norm. inv_matches.
    + match goal with H : Forall _ ?u |- _ => exists u, rest end.
      split; [assumption|]. left. rewrite <- app_assoc. reflexivity.
    + match goal with H : Forall _ ?u |- _ => exists u, rest end.
      split; [assumption|]. right. rewrite <- app_assoc. reflexivity.
  - intros (wsp & rest & Hws & [-> | ->]).
    + assert (Hm : matches _FENCE_RE (wsp ++ py "```") rest [] [(1%nat, py "```")]).
      { rewrite _FENCE_RE_eq. apply MCat with (c1 := []).
        - apply matches_star_chr. exact Hws.
        - constructor. apply MAltL. apply (matches_lit (py "```")). }
      apply re_match_complete in Hm. rewrite <- app_assoc in Hm. exact Hm.
    + assert (Hm : matches _FENCE_RE (wsp ++ py "~~~") rest [] [(1%nat, py "~~~")]).
      { rewrite _FENCE_RE_eq. apply MCat with (c1 := []).
        - apply matches_star_chr. exact Hws.
        - constructor. apply MAltR. apply (matches_lit (py "~~~")). }
      apply re_match_complete in Hm. rewrite <- app_assoc in Hm. exact Hm.
Qed.

Lemma _HEADING_RE_eq :
  _HEADING_RE
  = Cat (Group 1 (upto 5 (Chr (N.eqb 35))))
      (Cat (Cat (Chr is_space) (Star true (Chr is_space)))
         (Cat (Group 2 (Cat dot (Star false dot)))
            (Cat (Star true (Chr is_space)) Eos))).
Proof. reflexivity. Qed.

Lemma matches_upto_inv (n : nat) (w rest : str) (c c' : caps) :
  matches (upto n (Chr (N.eqb 35))) w rest c c' ->
  c' = c /\ exists k, (1 <= k <= S n)%nat /\ w = repeat 35 k.
Proof.
  revert w rest c c'. induction n as [|n IH]; intros w rest c c' Hm; simpl in Hm.
  - inv_matches. split; [reflexivity|]. exists 1%nat. split; [lia | reflexivity].
  - unfold opt in Hm. inv_matches.
    + match goal with H : matches (upto n _) _ _ _ _ |- _ =>
        apply IH in H as [-> (k & Hk & ->)] end.
      split; [reflexivity|]. exists (S k). split; [lia | reflexivity].
    + split; [reflexivity|]. exists 1%nat. split; [lia | reflexivity].
Qed.

(** A heading line: one to six hashes, blanks, and a non-empty text; the
    level is the number of hashes. *)
Lemma heading_match_sound (core rest : str) (c : caps) :
  re_match _HEADING_RE core = Some (rest, c) ->
  exists k ws1 ws2,
    (1 <= k <= 6)%nat
    /\ group 1 c = repeat 35 k
    /\ group 2 c <> []
    /\ ws1 <> []
    /\ Forall (fun x => is_space x = true) ws1
    /\ Forall (fun x => is_space x = true) ws2
    /\ core = repeat 35 k ++ ws1 ++ group 2 c ++ ws2 ++ rest.
Proof.
  intros Hm. apply re_match_sound in Hm as (w & -> & Hw).
  rewrite _HEADING_RE_eq in Hw.
  inversion Hw as [| |a b u v r0 ca cb cc Hg Hrest| | | | | |]; subst. clear Hw.
  inversion Hg as [| | | | | | |i a' u' r1 cd ce Hu|]; subst. clear Hg.
  apply (matches_upto_inv 5) in Hu as [-> (k & Hk & ->)].
  unfold dot in Hrest. inv_matches.
  simpl group.
  match goal with
  | H1 : is_space ?x = true, H2 : Forall _ ?u1, H3 : Forall _ ?u2,
    H4 : negb (?y =? 10) = true |- _ =>
      exists k, (x :: u1), u2; repeat split;
        [lia | lia | discriminate | discriminate
        | constructor; assumption | assumption
        | repeat (simpl; rewrite <- ?app_assoc); rewrite ?app_nil_r; reflexivity ]
  end.
Qed.

Lemma heading_plan_level (o : Options) (removed : bool) (core : str)
    (level : nat) (text : str) (numbered : bool) :
  heading_plan o removed core = Some (Some (level, text, numbered)) ->
  (1 <= level <= 6)%nat
  /\ (numbered = true ->
      heading_numbering_in_text o = true
      /\ (level <= 3)%nat /\ (Z.of_nat level <= max_lvl o)%Z).
Proof.
  unfold heading_plan.
  destruct (re_match _HEADING_RE core) as [[rest c]|] eqn:Hm; [|discriminate].
  apply heading_match_sound in Hm as (k & _ & _ & Hk & Hg & _).
  rewrite Hg, repeat_length.
  destruct (_ && negb removed); [discriminate|].
  intros Heq. injection Heq as <- _ <-. split.
  - destruct (promote_headings o && (1 <? k)%nat) eqn:Hp; [|lia].
    apply andb_true_iff in Hp as [_ Hp]. apply Nat.ltb_lt in Hp. lia.
  - intros Hn. apply andb_true_iff in Hn as [Hn H3]. apply andb_true_iff in Hn as [Hn H2].
    split; [exact Hn|]. split; [apply Nat.leb_le; exact H2 | apply Z.leb_le; exact H3].
Qed.

Lemma numbered_levels_bounds (o : Options) (lines : list str) (fence removed : bool) :
  Forall (fun l => (1 <= l <= 3)%nat /\ (Z.of_nat l <= max_lvl o)%Z)
    (numbered_levels o fence removed lines).
Proof.
  revert fence removed. induction lines as [|line rest IH]; intros fence removed; simpl.
  - constructor.
  - destruct (re_match _FENCE_RE _); [apply IH|].
    destruct fence; [apply IH|].
    destruct (heading_plan o removed _) as [[[[level text] numbered]|]|] eqn:Hp;
      [|apply IH|apply IH].
    apply Forall_app. split; [|apply IH].
    destruct numbered; [|constructor].
    apply heading_plan_level in Hp as [Hl Hn]. destruct (Hn eq_refl) as (_ & H3 & Hm).
    constructor; [|constructor]. split; [lia | exact Hm].
Qed.

Lemma numbered_levels_off (o : Options) (lines : list str) (fence removed : bool) :
  heading_numbering_in_text o = false -> numbered_levels o fence removed lines = [].
Proof.
  intros Hoff. revert fence removed.
  induction lines as [|line rest IH]; intros fence removed; simpl; [reflexivity|].
  destruct (re_match _FENCE_RE _); [apply IH|].
  destruct fence; [apply IH|].
  destruct (heading_plan o removed _) as [[[[level text] numbered]|]|] eqn:Hp;
    [|apply IH|apply IH].
  destruct numbered; [|apply IH].
  apply heading_plan_level in Hp as [_ Hn]. destruct (Hn eq_refl) as (Hon & _).
  congruence.
Qed.

Lemma norm_lines_cons (o : Options) (st : NormState) (line : str) (rest : list str) :
  norm_lines o st (line :: rest)
  = (fst (norm_lines o (fst (norm_line o st line)) rest),
     snd (norm_line o st line) ++ snd (norm_lines o (fst (norm_line o st line)) rest)).
Proof.
  simpl. destruct (norm_line o st line) as [st1 out1]. cbn [fst snd].
  destruct (norm_lines o st1 rest) as [st2 out2]. reflexivity.
Qed.

(** The loop over the lines keeps the counters of the specification. *)
Lemma norm_lines_counters (o : Options) (lines : list str) (st : NormState) :
  counters (fst (norm_lines o st lines))
  = fold_left (fun c l => spec_bump l c)
      (numbered_levels o (in_fence st) (removed_first_h1 st) lines) (counters st).
Proof.
  revert st. induction lines as [|line rest IH]; intros st; [reflexivity|].
  rewrite norm_lines_cons. cbn [fst]. rewrite IH. cbn [numbered_levels].
  rewrite norm_line_cases. cbv zeta.
  destruct (re_match _FENCE_RE _); [reflexivity|].
  destruct (in_fence st) eqn:Hf; [cbn [fst]; rewrite Hf; reflexivity|].
  destruct (heading_plan o _ _) as [[[[level text] numbered]|]|];
    [|cbn; rewrite ?Hf; reflexivity..].
  destruct numbered; [|cbn; rewrite ?Hf; reflexivity].
  destruct (number_heading_spec level st) as (Hc & _ & Hfe & Hre).
  cbn [fst]. rewrite Hc, Hfe, Hre, Hf. reflexivity.
Qed.

(** Inside an open fence, lines that are not fence markers pass through
    unchanged. *)
Lemma norm_lines_in_fence (o : Options) (lines : list str) (st : NormState) :
  in_fence st = true ->
  Forall (fun line => re_match _FENCE_RE (fst (split_ending line)) = None) lines ->
  norm_lines o st lines = (st, lines).
Proof.
  intros Hf Hall. induction Hall as [|line rest Hline _ IH]; [reflexivity|].
  rewrite norm_lines_cons, norm_line_cases. cbv zeta. rewrite Hline, Hf.
  cbn [fst snd]. rewrite IH. reflexivity.
Qed.

Lemma splitlines_aux_concat (n : nat) (s cur : str) :
  (length s <= n)%nat -> concat (splitlines_aux cur s) = rev cur ++ s.
Proof.
  revert s cur. induction n as [|n IH]; intros s cur Hn.
  - destruct s; [|simpl in Hn; lia].
    simpl. destruct cur; simpl; rewrite ?app_nil_r; reflexivity.
  - destruct s as [|c s].
    + simpl. destruct cur; simpl; rewrite ?app_nil_r; reflexivity.
    + simpl in Hn. cbn [splitlines_aux]. destruct (is_linebreak c).
      * destruct s as [|d s].
        -- simpl. rewrite app_nil_r. reflexivity.
        -- destruct ((c =? 13) && (d =? 10)).
           ++ cbn [concat]. rewrite IH by (simpl in Hn; lia).
              simpl. rewrite <- !app_assoc. reflexivity.
           ++ cbn [concat]. rewrite IH by lia.
              simpl. rewrite <- !app_assoc. reflexivity.
      * rewrite IH by lia. simpl. rewrite <- app_assoc. reflexivity.
Qed.

(** [splitlines(True)] loses nothing: the lines joined give the text back. *)
Lemma splitlines_concat (s : str) : concat (splitlines_keepends s) = s.
Proof. apply (splitlines_aux_concat (length s)). lia. Qed.

End NormalizeFacts.

(** The converter settings of the publisher ([DocsPublisher.conv_plain]) and
    of the test test_heading_normalization_strip_promote_and_numbering. *)
Definition numbering_options (title_h1 : bool) : Options :=
  mkOptions title_h1 true true true 3.

(** The repository's test document: the title is dropped, "## 1. First"
    becomes the level-1 heading "1. First" and "### 1.1 Second" the level-2
    heading "1.1. Second". *)
Example normalize_test_document :
  _normalize_markdown (numbering_options true)
    (py "# Page Title\n\n## 1. First\n\n### 1.1 Second\n\nText\n")
  = py "\n# 1. First\n\n## 1.1. Second\n\nText\n".
Proof. vm_compute. reflexivity. Qed.

(** Headings inside a fence stay text; a level-3 heading met first seeds the
    two shallower counters; level 4 is not numbered. *)
Example normalize_fence_and_seed :
  _normalize_markdown (numbering_options true)
    (py "#### C\n```\n## B\n```\n## A\n##### D\n### E\n")
  = py "### 1.1.1. C\n```\n## B\n```\n# 2. A\n#### D\n## 2.1. E\n".
Proof. vm_compute. reflexivity. Qed.




(* ===================================================================== *)
(** * Link rewriting (_rewrite_links) *)
(* ===================================================================== *)

Section LinkFacts.

Lemma attr_get_set_eq (k v : str) (attrs : list (str * str)) :
  attr_get k (attr_set k v attrs) = Some v.
Proof.
  induction attrs as [|[k' v'] attrs IH]; simpl.
  - rewrite str_eqb_refl. reflexivity.
  - destruct (str_eqb k k') eqn:Hk; simpl.
    + rewrite str_eqb_refl. reflexivity.
    + rewrite Hk. exact IH.
Qed.

Lemma attr_get_set_ne (k k0 v : str) (attrs : list (str * str)) :
  k0 <> k -> attr_get k0 (attr_set k v attrs) = attr_get k0 attrs.
Proof.
  intros Hne. induction attrs as [|[k' v'] attrs IH]; simpl.
  - rewrite (proj2 (str_eqb_neq k0 k) Hne). reflexivity.
  - destruct (str_eqb k k') eqn:Hk; simpl.
    + apply str_eqb_eq in Hk. subst k'.
      rewrite (proj2 (str_eqb_neq k0 k) Hne). reflexivity.
    + destruct (str_eqb k0 k'); [reflexivity | exact IH].
Qed.

(** Induction over a tree and the lists of children. *)
Lemma node_rect' (P : node -> Prop) :
  (forall s, P (Text s)) ->
  (forall name attrs children, Forall P children -> P (Elem name attrs children)) ->
  forall n, P n.
Proof.
  intros Htext Helem. fix IH 1. intros [s|name attrs children].
  - apply Htext.
  - apply Helem. induction children as [|c children IHc]; constructor.
    + apply IH.
    + exact IHc.
Qed.

Variable link_resolver : option LinkResolver.
Variable current_path : option str.

(** The anchors of the rewritten tree are the anchors of the tree, each
    rewritten on its own, in the same order. *)
Lemma anchors_of_rewrite (n : node) :
  anchors_of (rewrite_node link_resolver current_path n)
  = map (rewrite_anchor link_resolver current_path) (anchors_of n).
Proof.
  induction n as [s|name attrs children IH] using node_rect'; [reflexivity|].
  simpl. rewrite map_app. f_equal.
  - destruct (str_eqb name (py "a")); reflexivity.
  - induction IH as [|c children Hc _ IHc]; [reflexivity|].
    simpl. rewrite map_app, Hc. f_equal. exact IHc.
Qed.

Lemma find_all_a_rewrite (soup : list node) :
  find_all_a (_rewrite_links link_resolver current_path soup)
  = map (rewrite_anchor link_resolver current_path) (find_all_a soup).
Proof.
  unfold find_all_a, _rewrite_links.
  induction soup as [|n soup IH]; [reflexivity|].
  simpl. rewrite map_app, anchors_of_rewrite. f_equal. exact IH.
Qed.

End LinkFacts.

(** The resolver of the test
    test_converter_rewrites_links_and_marks_unresolved_md_links. *)
Definition test_resolver : LinkResolver :=
  fun href _ =>
    if str_eqb href (py "other.md") then Some (py "/pages/viewpage.action?pageId=123")
    else None.

Example rewrite_links_test :
  _rewrite_links (Some test_resolver) (Some (py "docs/a/b.md"))
    [Elem (py "p") []
       [Elem (py "a") [(py "href", py "other.md")] [Text (py "ok")];
        Elem (py "a") [(py "href", py "unresolved.md#sec")] [Text (py "later")];
        Elem (py "a") [(py "href", py "https://example.com")] [Text (py "ext")]]]
  = [Elem (py "p") []
       [Elem (py "a") [(py "href", py "/pages/viewpage.action?pageId=123")]
          [Text (py "ok")];
        Elem (py "a") [(py "href", py "unresolved.md#sec");
                       (py "data-source-href", py "unresolved.md#sec")]
          [Text (py "later")];
        Elem (py "a") [(py "href", py "https://example.com")] [Text (py "ext")]]].
Proof. vm_compute. reflexivity. Qed.

(** C8. For every anchor, with [href] its href attribute as the code reads it
    (missing counts as empty, surrounding whitespace trimmed): when [href] is
    not empty and the resolver returns a value, the href is replaced by that
    value; when the resolver returns nothing (or none is set) and [href] ends
    in .md or contains .md#, case-insensitively, the anchor gets the
    attribute data-source-href carrying [href] and its href is unchanged;
    every other anchor is left untouched. The anchors of a tree are rewritten
    one by one, in place. *)
Theorem rewrite_links_cases (link_resolver : option LinkResolver)
    (current_path : option str) (attrs : list (str * str)) :
  let href := strip (default [] (attr_get (py "href") attrs)) in
  let resolved := match link_resolver with
                  | Some f => f href current_path
                  | None => None
                  end in
  let attrs' := rewrite_anchor link_resolver current_path attrs in
  (href = [] -> attrs' = attrs)
  /\ (href <> [] -> forall v, resolved = Some v -> v <> [] ->
        attrs' = attr_set (py "href") v attrs
        /\ attr_get (py "href") attrs' = Some v)
  /\ (href <> [] -> resolved = None \/ resolved = Some [] ->
        looks_internal href = true ->
        attrs' = attr_set (py "data-source-href") href attrs
        /\ attr_get (py "data-source-href") attrs' = Some href
        /\ attr_get (py "href") attrs' = attr_get (py "href") attrs)
  /\ (href <> [] -> resolved = None \/ resolved = Some [] ->
        looks_internal href = false -> attrs' = attrs)
  /\ (forall soup,
        find_all_a (_rewrite_links link_resolver current_path soup)
        = map (rewrite_anchor link_resolver current_path) (find_all_a soup)).
Proof.
  intros href resolved attrs'. subst attrs'. unfold rewrite_anchor.
  fold href. fold resolved.
  split; [intros ->; reflexivity|].
  split.
  { intros Hne v Hv Hv'. rewrite (proj2 (str_eqb_neq href []) Hne), Hv.
    destruct v as [|c v]; [contradiction|].
    split; [reflexivity | apply attr_get_set_eq]. }
  split.
  { intros Hne Hnone Hint. rewrite (proj2 (str_eqb_neq href []) Hne), Hint.
    assert (Hgoal :
      attr_set (py "data-source-href") href attrs
        = attr_set (py "data-source-href") href attrs
      /\ attr_get (py "data-source-href") (attr_set (py "data-source-href") href attrs)
         = Some href
      /\ attr_get (py "href") (attr_set (py "data-source-href") href attrs)
         = attr_get (py "href") attrs).
    { split; [reflexivity|]. split; [apply attr_get_set_eq|].
      apply attr_get_set_ne. vm_compute. intros Heq. discriminate Heq. }
    destruct Hnone as [-> | ->]; exact Hgoal. }
  split.
  { intros Hne Hnone Hint. rewrite (proj2 (str_eqb_neq href []) Hne), Hint.
    destruct Hnone as [-> | ->]; reflexivity. }
  apply find_all_a_rewrite.
Qed.

(* ===================================================================== *)
(** * The link resolver (DocsPublisher._link_resolver) *)
(* ===================================================================== *)

Section LinkResolverFacts.

Variable urlparse : str -> Res UrlParts.
Variable unquote : str -> str.

Lemma rstrip_char_snoc (ch x : N) (s : str) :
  x <> ch -> rstrip_char ch (s ++ [x]) = s ++ [x].
Proof.
  intros Hne. unfold rstrip_char. rewrite rev_app_distr. simpl.
  rewrite (proj2 (N.eqb_neq x ch) Hne). simpl. rewrite rev_involutive. reflexivity.
Qed.

(** The context path of a base address ending in "/rest/api". *)
Lemma context_path_rest_api (p : str) :
  context_path (p ++ py "/rest/api")
  = match p with
    | [] => []
    | _ => if startswith p (py "/") then p else py "/" ++ p
    end.
Proof.
  unfold context_path.
  assert (Hr : rstrip_char 47 (p ++ py "/rest/api") = p ++ py "/rest/api").
  { change (py "/rest/api") with ([47; 114; 101; 115; 116; 47; 97; 112] ++ [105]).
    rewrite app_assoc. apply rstrip_char_snoc. discriminate. }
  rewrite Hr.
  assert (He : endswith (p ++ py "/rest/api") (py "/rest/api") = true).
  { unfold endswith. apply startswith_spec. exists (rev p). apply rev_app_distr. }
  rewrite He, length_app.
  replace (length p + length (py "/rest/api") - length (py "/rest/api"))%nat
    with (length p) by lia.
  rewrite take_app_length.
  destruct p as [|c p]; [reflexivity|].
  destruct (startswith (c :: p) (py "/")); reflexivity.
Qed.

(** The URL the resolver builds for a page id and a fragment. *)
Definition view_url (parsed_path page_id fragment : str) : str :=
  context_path parsed_path ++ py "/pages/viewpage.action?pageId=" ++ page_id
  ++ match fragment with [] => [] | f => py "#" ++ f end.

Lemma link_resolver_url (cfg : Cfg) (path_to_page : gmap str str)
    (href : str) (current_path : option str) (url : str) :
  _link_resolver urlparse unquote cfg path_to_page href current_path = Ok (Some url) ->
  exists u parsed target page_id,
    urlparse href = Ok u
    /\ urlparse (base_url cfg) = Ok parsed
    /\ path_to_page !! target = Some page_id
    /\ page_id <> []
    /\ url = view_url (u_path parsed) page_id (u_fragment u).
Proof.
  unfold _link_resolver.
  destruct (nonempty current_path) as [cur|]; [|discriminate].
  destruct (urlparse href) as [u|e] eqn:Hu; [|discriminate].
  destruct (negb (str_eqb (u_scheme u) []) || startswith href (py "#")); [discriminate|].
  cbv zeta.
  match goal with |- context [if negb (endswith ?x ?y) then _ else _] =>
    destruct (negb (endswith x y)); [discriminate|] end.
  match goal with |- context [path_to_page !! ?t] =>
    set (target := t); destruct (path_to_page !! target) as [pid|] eqn:Hpid end;
    [|discriminate].
  destruct pid as [|c pid]; [discriminate|]. cbn [nonempty].
  destruct (urlparse (base_url cfg)) as [parsed|e] eqn:Hb; [|discriminate].
  intros Heq. injection Heq as <-.
  exists u, parsed, target, (c :: pid).
  split; [reflexivity|]. split; [reflexivity|]. split; [exact Hpid|].
  split; [discriminate|].
  unfold view_url. destruct (u_fragment u); rewrite <- ?app_assoc, ?app_nil_r; reflexivity.
Qed.

(** The result depends on the base address through its path only. *)
Lemma link_resolver_path_only (cfg1 cfg2 : Cfg) (path_to_page : gmap str str)
    (href : str) (current_path : option str) (p1 p2 : UrlParts) :
  urlparse (base_url cfg1) = Ok p1 ->
  urlparse (base_url cfg2) = Ok p2 ->
  u_path p1 = u_path p2 ->
  _link_resolver urlparse unquote cfg1 path_to_page href current_path
  = _link_resolver urlparse unquote cfg2 path_to_page href current_path.
Proof.
  intros H1 H2 Hp. unfold _link_resolver.
  destruct (nonempty current_path) as [cur|]; [|reflexivity].
  destruct (urlparse href) as [u|e]; [|reflexivity].
  destruct (negb (str_eqb (u_scheme u) []) || startswith href (py "#")); [reflexivity|].
  cbv zeta.
  match goal with |- context [if negb (endswith ?x ?y) then _ else _] =>
    destruct (negb (endswith x y)); [reflexivity|] end.
  match goal with |- context [nonempty ?t] => destruct (nonempty t); [|reflexivity] end.
  rewrite H1, H2, Hp. reflexivity.
Qed.

End LinkResolverFacts.

(** The tests test_link_resolver_generates_relative_with_context_and_fragment
    and test_link_resolver_strips_rest_api_suffix. *)
Example link_resolver_tests :
  _link_resolver UrlLib.urlparse UrlLib.unquote Fake.test_cfg
    (<[py "docs/a/b.md" := py "123"]> ∅) (py "./b.md#sec") (Some (py "docs/a/c.md"))
  = Ok (Some (py "/wiki/pages/viewpage.action?pageId=123#sec"))
  /\ _link_resolver UrlLib.urlparse UrlLib.unquote
       (mkCfg (py "https://conf.company.ru/wiki/rest/api") (py "DOC") (py "100")
          (py "managed-docs") true true)
       (<[py "docs/a/b.md" := py "123"]> ∅) (py "b.md") (Some (py "docs/a/c.md"))
     = Ok (Some (py "/wiki/pages/viewpage.action?pageId=123")).
Proof. split; vm_compute; reflexivity. Qed.



(* ===================================================================== *)
(** * The upsert (DocsPublisher.ensure_page) *)
(* ===================================================================== *)

Section UpsertFacts.

Context {R : Type} `{Confluence R}.
Variable cfg : Cfg.

Local Abbreviation WorldR := (@World R).
Local Abbreviation MR := (@M R).
Local Existing Instance M_ret.
Local Existing Instance M_bind.

(** ** Reading the log *)

(** A page was created: a [create_page] call that returned. *)
Definition created_ok (ev : Event) : bool :=
  match ev with
  | EvCreate _ _ _ _ (Ok _) => true
  | _ => false
  end.

Definition pages_created (l : list Event) : nat := length (List.filter created_ok l).

(** The event is a call on the page [pid] other than a creation or a
    search: an update, a label or a property of that page. *)
Definition touches (pid : str) (ev : Event) : bool :=
  match ev with
  | EvUpdate p _ _ _ _ _ => str_eqb p pid
  | EvAddLabels p _ _ => str_eqb p pid
  | EvPutProperty p _ _ _ => str_eqb p pid
  | EvDeleteLabel p _ _ => str_eqb p pid
  | EvCreate _ _ _ _ _ => false
  | EvFind _ _ _ => false
  end.

(** The page [pid] was updated: an [update_page] call on it that returned. *)
Definition updated_ok (pid : str) (ev : Event) : bool :=
  match ev with
  | EvUpdate p _ _ _ _ (Ok _) => str_eqb p pid
  | _ => false
  end.

(** [w'] is [w] with the remote store moved on and [evs] appended to the
    log; the three indexes are untouched. *)
Definition extends (w w' : WorldR) (evs : list Event) : Prop :=
  key_to_page w' = key_to_page w
  /\ label_to_page w' = label_to_page w
  /\ path_to_page w' = path_to_page w
  /\ log w' = log w ++ evs.

Lemma extends_refl (w : WorldR) : extends w w [].
Proof. unfold extends. rewrite app_nil_r. repeat split. Qed.

Lemma extends_trans (w1 w2 w3 : WorldR) (e1 e2 : list Event) :
  extends w1 w2 e1 -> extends w2 w3 e2 -> extends w1 w3 (e1 ++ e2).
Proof.
  intros (Ha & Hb & Hc & Hd) (Ha' & Hb' & Hc' & Hd'). unfold extends.
  rewrite Ha', Hb', Hc', Hd', Hd, app_assoc. repeat split; assumption.
Qed.

Lemma pages_created_app (l1 l2 : list Event) :
  pages_created (l1 ++ l2) = (pages_created l1 + pages_created l2)%nat.
Proof. unfold pages_created. rewrite List.filter_app, length_app. reflexivity. Qed.

Lemma touches_not_created (pid : str) (evs : list Event) :
  Forall (fun ev => touches pid ev = true) evs -> pages_created evs = 0%nat.
Proof.
  induction 1 as [|ev evs Hev _ IH]; [reflexivity|].
  change (ev :: evs) with ([ev] ++ evs). rewrite pages_created_app, IH.
  destruct ev; try discriminate Hev; reflexivity.
Qed.

(** ** The monad *)

Lemma bind_inv {A B} (m : MR A) (f : A -> MR B) (w w' : WorldR) (r : Res B) :
  (m ≫= f) w = (w', r) ->
  (exists w1 a, m w = (w1, Ok a) /\ f a w1 = (w', r))
  \/ (exists e, m w = (w', Raise e) /\ r = Raise e).
Proof.
  unfold mbind, M_bind, bind. destruct (m w) as [w1 [a|e]]; intros Heq.
  - left. exists w1, a. split; [reflexivity | exact Heq].
  - right. injection Heq as <- <-. exists e. split; reflexivity.
Qed.

Lemma call_inv {A} (op : R -> R * Res A) (ev : Res A -> Event) (w w' : WorldR) (r : Res A) :
  call op ev w = (w', r) -> extends w w' [ev r].
Proof.
  unfold call. destruct (op (remote w)) as [r' res]. intros Heq.
  injection Heq as <- <-. repeat split.
Qed.

Lemma swallow_call_inv (op : R -> R * Res unit) (ev : Res unit -> Event)
    (w w' : WorldR) (r : Res unit) :
  swallow (call op ev) w = (w', r) -> r = Ok tt /\ exists res, extends w w' [ev res].
Proof.
  unfold swallow. destruct (call op ev w) as [w1 res] eqn:Hc. intros Heq.
  injection Heq as <- <-. split; [reflexivity|]. exists res. exact (call_inv _ _ _ _ _ Hc).
Qed.

(** ** The parts of the upsert *)

Ltac minv Hm :=
  let w1 := fresh "w1" in
  let x := fresh "x" in
  let e := fresh "e" in
  let Hfst := fresh "Hfst" in
  apply bind_inv in Hm as [(w1 & x & Hfst & Hm) | (e & Hfst & ->)].

Lemma ret_inv {A} (a : A) (w w' : WorldR) (r : Res A) :
  ret a w = (w', r) -> w' = w /\ r = Ok a.
Proof. unfold ret. intros Heq. injection Heq as <- <-. split; reflexivity. Qed.

Lemma raise_inv {A} (e : exn) (w w' : WorldR) (r : Res A) :
  raise e w = (w', r) -> w' = w /\ r = Raise e.
Proof. unfold raise. intros Heq. injection Heq as <- <-. split; reflexivity. Qed.

Lemma attempt_call_inv {A} (op : R -> R * Res A) (ev : Res A -> Event)
    (w w' : WorldR) (r : Res (Res A)) :
  attempt (call op ev) w = (w', r) -> exists res, r = Ok res /\ extends w w' [ev res].
Proof.
  unfold attempt. destruct (call op ev w) as [w1 res] eqn:Hc. intros Heq.
  injection Heq as <- <-. exists res. split; [reflexivity|]. exact (call_inv _ _ _ _ _ Hc).
Qed.

(** The first event of [evs] is an [update_page] of [pid] with title [t]. *)
Definition starts_with_update (a : Args) (pid t : str) (evs : list Event) : Prop :=
  exists r0 evs', evs = EvUpdate pid (space cfg) (parent_id a) t (storage a) r0 :: evs'.

Lemma try_update_loop_spec (a : Args) (pid : str) (cands : list str) :
  forall (last_err : option exn) (w w' : WorldR) (r : Res str),
  try_update_loop cfg a pid cands last_err w = (w', r) ->
  exists evs,
    extends w w' evs
    /\ Forall (fun ev => touches pid ev = true) evs
    /\ (forall t, r = Ok t -> In t cands /\ Exists (fun ev => updated_ok pid ev = true) evs)
    /\ (forall t rest, cands = t :: rest -> starts_with_update a pid t evs).
Proof.
  induction cands as [|t rest IH]; intros last_err w w' r Hrun; simpl in Hrun.
  - apply raise_inv in Hrun as [-> ->]. exists []. split; [apply extends_refl|].
    split; [constructor|]. split; [discriminate | discriminate].
  - minv Hrun.
    2: { apply attempt_call_inv in Hfst as (res & Heq & _). discriminate Heq. }
    apply attempt_call_inv in Hfst as (res & Heq & Hext). injection Heq as ->.
    assert (Htouch : touches pid (EvUpdate pid (space cfg) (parent_id a) t (storage a) res) = true)
      by apply str_eqb_refl.
    assert (Hfirst : forall evs' t0 rest0, t :: rest = t0 :: rest0 ->
              starts_with_update a pid t0
                ([EvUpdate pid (space cfg) (parent_id a) t (storage a) res] ++ evs')).
    { intros evs' t0 rest0 Heq. injection Heq as <- <-. exists res, evs'. reflexivity. }
    destruct res as [[]|[msg|cls msg]].
    + apply ret_inv in Hrun as [-> ->].
      exists [EvUpdate pid (space cfg) (parent_id a) t (storage a) (Ok tt)].
      split; [exact Hext|]. split; [constructor; [exact Htouch | constructor]|].
      split.
      * intros t0 Heq. injection Heq as <-. split; [left; reflexivity|].
        constructor. apply str_eqb_refl.
      * intros t0 rest0 Heq. exact (Hfirst [] t0 rest0 Heq).
    + destruct (is_title_exists msg).
      * apply IH in Hrun as (evs & Hext2 & Hall & Hok & _).
        exists ([EvUpdate pid (space cfg) (parent_id a) t (storage a) (Raise (RuntimeError msg))]
                  ++ evs).
        split; [exact (extends_trans _ _ _ _ _ Hext Hext2)|].
        split; [constructor; [exact Htouch | exact Hall]|].
        split.
        -- intros t0 Heq. destruct (Hok t0 Heq) as [Hin Hex].
           split; [right; exact Hin | apply Exists_cons_tl; exact Hex].
        -- intros t0 rest0 Heq. exact (Hfirst evs t0 rest0 Heq).
      * apply raise_inv in Hrun as [-> ->].
        exists [EvUpdate pid (space cfg) (parent_id a) t (storage a) (Raise (RuntimeError msg))].
        split; [exact Hext|]. split; [constructor; [exact Htouch | constructor]|].
        split; [discriminate|].
        intros t0 rest0 Heq. exact (Hfirst [] t0 rest0 Heq).
    + apply raise_inv in Hrun as [-> ->].
      exists [EvUpdate pid (space cfg) (parent_id a) t (storage a) (Raise (OtherError cls msg))].
      split; [exact Hext|]. split; [constructor; [exact Htouch | constructor]|].
      split; [discriminate|].
      intros t0 rest0 Heq. exact (Hfirst [] t0 rest0 Heq).
Qed.

Lemma title_candidates_cons (key : str) (a : Args) (base : str) :
  exists t rest, title_candidates key a base = t :: rest.
Proof.
  destruct (title_candidates key a base) as [|t rest] eqn:Hc; [|eauto].
  assert (Hlast : exists x, last (title_candidates key a base) = Some x).
  { rewrite title_candidates_trimmed. unfold trimmed_candidates.
    rewrite !app_assoc. eexists. apply last_snoc. }
  destruct Hlast as (x & Hlast). rewrite Hc in Hlast. discriminate Hlast.
Qed.

Lemma ensure_labels_spec (pid : str) (labels : list str) (w w' : WorldR) (r : Res unit) :
  _ensure_labels pid labels w = (w', r) ->
  exists evs, extends w w' evs /\ Forall (fun ev => touches pid ev = true) evs.
Proof.
  intros Hrun. apply call_inv in Hrun. eexists. split; [exact Hrun|].
  constructor; [apply str_eqb_refl | constructor].
Qed.

Lemma delete_labels_quietly_spec (pid : str) (labels : list str) :
  forall (w w' : WorldR) (r : Res unit),
  delete_labels_quietly pid labels w = (w', r) ->
  r = Ok tt /\ exists evs, extends w w' evs /\ Forall (fun ev => touches pid ev = true) evs.
Proof.
  induction labels as [|lb rest IH]; intros w w' r Hrun; simpl in Hrun.
  - apply ret_inv in Hrun as [-> ->]. split; [reflexivity|].
    exists []. split; [apply extends_refl | constructor].
  - minv Hrun.
    2: { apply swallow_call_inv in Hfst as [Heq _]. discriminate Heq. }
    apply swallow_call_inv in Hfst as [_ (res & Hext)].
    apply IH in Hrun as [-> (evs & Hext2 & Hall)]. split; [reflexivity|].
    eexists. split; [exact (extends_trans _ _ _ _ _ Hext Hext2)|].
    constructor; [apply str_eqb_refl | exact Hall].
Qed.

Lemma write_source_meta_spec (key : str) (pid used : str) (meta : list str)
    (w w' : WorldR) (r : Res unit) :
  write_source_meta cfg key pid used meta w = (w', r) ->
  exists evs, extends w w' evs /\ Forall (fun ev => touches pid ev = true) evs.
Proof.
  unfold write_source_meta. intros Hrun.
  minv Hrun.
  2: { apply call_inv in Hfst. eexists. split; [exact Hfst|].
       constructor; [apply str_eqb_refl | constructor]. }
  apply call_inv in Hfst.
  minv Hrun.
  2: { apply call_inv in Hfst0. eexists.
       split; [exact (extends_trans _ _ _ _ _ Hfst Hfst0)|].
       repeat constructor; apply str_eqb_refl. }
  apply call_inv in Hfst0.
  assert (Htail : exists evs, extends w0 w' evs
                    /\ Forall (fun ev => touches pid ev = true) evs).
  { destruct (migrate_legacy_doc_labels cfg).
    - apply delete_labels_quietly_spec in Hrun as [_ Hx]. exact Hx.
    - apply ret_inv in Hrun as [-> _]. exists []. split; [apply extends_refl | constructor]. }
  destruct Htail as (evs & Hext & Hall).
  eexists. split; [exact (extends_trans _ _ _ _ _ (extends_trans _ _ _ _ _ Hfst Hfst0) Hext)|].
  simpl. repeat constructor; try apply str_eqb_refl. exact Hall.
Qed.

Lemma call_inv_remote {A} (op : R -> R * Res A) (ev : Res A -> Event)
    (w w' : WorldR) (r : Res A) :
  call op ev w = (w', r) -> op (remote w) = (remote w', r).
Proof.
  unfold call. destruct (op (remote w)) as [r' res]. intros Heq.
  injection Heq as <- <-. reflexivity.
Qed.

(** What [_adopt_by_title_under_root] makes of the answer of
    [find_page_by_title]. *)
Definition adoption_of (res : Res (option Found)) : Res (option str) :=
  match res with
  | Raise e => Raise e
  | Ok None => Ok None
  | Ok (Some f) =>
      if existsb (fun x => str_eqb x (docs_root_id cfg)) (ancestors f)
      then Ok (Some (fid f)) else Ok None
  end.

Lemma adopt_spec (t : str) (w w' : WorldR) (r : Res (option str)) :
  _adopt_by_title_under_root cfg t w = (w', r) ->
  if adopt_existing_by_title_under_root cfg then
    exists res,
      extends w w' [EvFind (space cfg) t res]
      /\ find_page_by_title (space cfg) t (remote w) = (remote w', res)
      /\ r = adoption_of res
  else w' = w /\ r = Ok None.
Proof.
  unfold _adopt_by_title_under_root.
  destruct (adopt_existing_by_title_under_root cfg); simpl; intros Hrun.
  2: { apply ret_inv in Hrun. exact Hrun. }
  minv Hrun.
  - assert (Hret : w' = w1 /\ r = adoption_of (Ok x)).
    { destruct x as [f|]; simpl.
      + destruct (existsb _ (ancestors f)); simpl in Hrun;
          apply ret_inv in Hrun as [-> ->]; split; reflexivity.
      + apply ret_inv in Hrun as [-> ->]. split; reflexivity. }
    destruct Hret as [-> ->].
    exists (Ok x). split; [exact (call_inv _ _ _ _ _ Hfst)|].
    split; [exact (call_inv_remote _ _ _ _ _ Hfst) | reflexivity].
  - exists (Raise e). split; [exact (call_inv _ _ _ _ _ Hfst)|].
    split; [exact (call_inv_remote _ _ _ _ _ Hfst) | reflexivity].
Qed.

Lemma adopt_extends (t : str) (w w' : WorldR) (r : Res (option str)) :
  _adopt_by_title_under_root cfg t w = (w', r) ->
  exists evs, extends w w' evs /\ pages_created evs = 0%nat.
Proof.
  intros Hrun. apply adopt_spec in Hrun.
  destruct (adopt_existing_by_title_under_root cfg).
  - destruct Hrun as (res & Hext & _). eexists. split; [exact Hext | reflexivity].
  - destruct Hrun as [-> _]. exists []. split; [apply extends_refl | reflexivity].
Qed.

Lemma nonempty_some (o : option str) (p : str) :
  nonempty o = Some p -> o = Some p /\ p <> [].
Proof.
  destruct o as [[|c s]|]; simpl; intros Heq; try discriminate Heq.
  injection Heq as <-. split; [reflexivity | discriminate].
Qed.

Lemma nonempty_of_some (p : str) : p <> [] -> nonempty (Some p) = Some p.
Proof. destruct p; [contradiction | reflexivity]. Qed.

(** The first event of [evs] is a [create_page] with title [t]; when it
    returned, nothing follows. *)
Definition starts_with_create (a : Args) (t : str) (evs : list Event)
    (r : Res (str * str)) : Prop :=
  exists r0 evs',
    evs = EvCreate (space cfg) (parent_id a) t (storage a) r0 :: evs'
    /\ (forall pid, r0 = Ok pid -> evs' = [] /\ r = Ok (pid, t)).

Lemma try_create_loop_spec (key : str) (a : Args) (cands : list str) :
  forall (last_err : option exn) (w w' : WorldR) (r : Res (str * str)),
  try_create_loop cfg key a cands last_err w = (w', r) ->
  exists evs,
    extends w w' evs
    /\ (pages_created evs <= 1)%nat
    /\ (forall pid t, r = Ok (pid, t) ->
          (exists pre, evs = pre ++ [EvCreate (space cfg) (parent_id a) t (storage a) (Ok pid)]
                       /\ pages_created pre = 0%nat)
          \/ (pid <> [] /\ pages_created evs = 0%nat
              /\ Exists (fun ev => updated_ok pid ev = true) evs))
    /\ (forall t rest, cands = t :: rest -> starts_with_create a t evs r).
Proof.
  induction cands as [|t rest IH]; intros last_err w w' r Hrun; simpl in Hrun.
  - apply raise_inv in Hrun as [-> ->]. exists []. split; [apply extends_refl|].
    split; [unfold pages_created in *; simpl in *; lia|]. split; discriminate.
  - minv Hrun.
    2: { apply attempt_call_inv in Hfst as (res & Heq & _). discriminate Heq. }
    apply attempt_call_inv in Hfst as (res & Heq & Hext). injection Heq as ->.
    set (ev := EvCreate (space cfg) (parent_id a) t (storage a)) in *.
    assert (Hfirst : forall evs' t0 rest0,
              (forall pid, res = Ok pid -> evs' = [] /\ r = Ok (pid, t)) ->
              t :: rest = t0 :: rest0 -> starts_with_create a t0 ([ev res] ++ evs') r).
    { intros evs' t0 rest0 Hok Heq. injection Heq as <- <-.
      exists res, evs'. split; [reflexivity | exact Hok]. }
    destruct res as [pid|[msg|cls msg]].
    + apply ret_inv in Hrun as [-> ->]. exists [ev (Ok pid)].
      split; [exact Hext|]. split; [unfold pages_created in *; simpl in *; lia|]. split.
      * intros pid0 t0 Heq. injection Heq as <- <-. left. exists [].
        split; reflexivity.
      * intros t0 rest0. apply (Hfirst []). intros pid0 Heq. injection Heq as <-.
        split; reflexivity.
    + assert (Hfail : pages_created [ev (Raise (RuntimeError msg))] = 0%nat) by reflexivity.
      destruct (is_title_exists msg).
      * minv Hrun.
        2: { apply adopt_extends in Hfst as (evs & Hext2 & Hz).
             exists ([ev (Raise (RuntimeError msg))] ++ evs).
             split; [exact (extends_trans _ _ _ _ _ Hext Hext2)|].
             split; [rewrite pages_created_app, Hz; unfold pages_created in *; simpl in *; lia|].
             split; [discriminate|].
             intros t0 rest0. apply Hfirst. discriminate. }
        apply adopt_extends in Hfst as (evs1 & Hext1 & Hz1).
        destruct (nonempty x) as [adopted|] eqn:Hadopted.
        -- apply nonempty_some in Hadopted as [_ Hne].
           minv Hrun.
           ++ apply try_update_loop_spec in Hfst as (evs2 & Hext2 & Hall & Hok & _).
              apply ret_inv in Hrun as [-> ->].
              exists ([ev (Raise (RuntimeError msg))] ++ evs1 ++ evs2).
              split; [exact (extends_trans _ _ _ _ _ Hext
                               (extends_trans _ _ _ _ _ Hext1 Hext2))|].
              assert (Hz : pages_created ([ev (Raise (RuntimeError msg))] ++ evs1 ++ evs2)
                           = 0%nat).
              { rewrite !pages_created_app, Hz1, (touches_not_created adopted evs2 Hall).
                reflexivity. }
              split; [rewrite Hz; lia|]. split.
              ** intros pid0 t0 Heq. injection Heq as <- <-. right.
                 split; [exact Hne|]. split; [exact Hz|].
                 apply Exists_app. right. apply Exists_app. right.
                 exact (proj2 (Hok x0 eq_refl)).
              ** intros t0 rest0. apply Hfirst. discriminate.
           ++ apply try_update_loop_spec in Hfst as (evs2 & Hext2 & Hall & _ & _).
              exists ([ev (Raise (RuntimeError msg))] ++ evs1 ++ evs2).
              split; [exact (extends_trans _ _ _ _ _ Hext
                               (extends_trans _ _ _ _ _ Hext1 Hext2))|].
              split; [rewrite !pages_created_app, Hz1,
                        (touches_not_created adopted evs2 Hall); unfold pages_created in *; simpl in *; lia|].
              split; [discriminate|].
              intros t0 rest0. apply Hfirst. discriminate.
        -- apply IH in Hrun as (evs2 & Hext2 & Hle & Hok & _).
           exists ([ev (Raise (RuntimeError msg))] ++ evs1 ++ evs2).
           split; [exact (extends_trans _ _ _ _ _ Hext
                            (extends_trans _ _ _ _ _ Hext1 Hext2))|].
           split; [rewrite !pages_created_app, Hz1; unfold pages_created in *; simpl in *; lia|].
           split.
           ++ intros pid0 t0 Heq. destruct (Hok pid0 t0 Heq) as [(pre & -> & Hpre)|(Hne & Hz & Hex)].
              ** left. exists ([ev (Raise (RuntimeError msg))] ++ evs1 ++ pre).
                 split; [rewrite <- !app_assoc; reflexivity|].
                 rewrite !pages_created_app, Hz1, Hpre. reflexivity.
              ** right. split; [exact Hne|].
                 split; [rewrite !pages_created_app, Hz1, Hz; reflexivity|].
                 apply Exists_app. right. apply Exists_app. right. exact Hex.
           ++ intros t0 rest0. apply Hfirst. discriminate.
      * apply raise_inv in Hrun as [-> ->]. exists [ev (Raise (RuntimeError msg))].
        split; [exact Hext|]. split; [unfold pages_created in *; simpl in *; lia|]. split; [discriminate|].
        intros t0 rest0. apply (Hfirst []). discriminate.
    + apply raise_inv in Hrun as [-> ->]. exists [ev (Raise (OtherError cls msg))].
      split; [exact Hext|]. split; [unfold pages_created in *; simpl in *; lia|]. split; [discriminate|].
      intros t0 rest0. apply (Hfirst []). discriminate.
Qed.

(** ** The four branches *)

(** The block of branch 1: update, labels, source metadata. *)
Definition upsert_existing (key : str) (a : Args) (p : str) : MR str :=
  used_title ← try_update cfg key a p;
  _ensure_labels p (managed_label cfg :: default [] (page_labels a));;
  write_source_meta cfg key p used_title (extra_labels a);;
  ret p.

(** The block of branches 1b and 2: the same, then the legacy label is
    deleted (errors swallowed) and the key installed in the primary index. *)
Definition upsert_migrate (key : str) (a : Args) (p : str) : MR str :=
  used_title ← try_update cfg key a p;
  _ensure_labels p (managed_label cfg :: default [] (page_labels a));;
  write_source_meta cfg key p used_title (extra_labels a);;
  swallow (call (delete_label p (_label_for key)) (EvDeleteLabel p (_label_for key)));;
  set_key_to_page key p;;
  ret p.

(** The block of branch 3: create, labels, source metadata, install. *)
Definition upsert_create (key : str) (a : Args) : MR str :=
  created ← try_create cfg key a;
  let '(page_id, used_title) := created in
  _ensure_labels page_id (managed_label cfg :: default [] (page_labels a));;
  write_source_meta cfg key page_id used_title (extra_labels a);;
  set_key_to_page key page_id;;
  ret page_id.

Lemma ensure_page_unfold (key : str) (a : Args) (w : WorldR) :
  ensure_page cfg key a w =
    match nonempty (key_to_page w !! key) with
    | Some p => upsert_existing key a p w
    | None =>
        match nonempty (label_to_page w !! _label_for key) with
        | Some q => upsert_migrate key a q w
        | None =>
            (adopted ← _adopt_by_title_under_root cfg (title a);
             match nonempty adopted with
             | Some p => upsert_migrate key a p
             | None => upsert_create key a
             end) w
        end
    end.
Proof. reflexivity. Qed.

(** What the common block does: only calls on the page [p], beginning with
    an update under the first candidate title. *)
Lemma upsert_block_spec (key : str) (a : Args) (p t0 : str) (rest : list str)
    (k : MR str) (w w' : WorldR) (r : Res str) :
  title_candidates key a (title a) = t0 :: rest ->
  (used_title ← try_update cfg key a p;
   _ensure_labels p (managed_label cfg :: default [] (page_labels a));;
   write_source_meta cfg key p used_title (extra_labels a);;
   k) w = (w', r) ->
  exists evs,
    Forall (fun ev => touches p ev = true) evs
    /\ starts_with_update a p t0 evs
    /\ ((exists e, r = Raise e /\ extends w w' evs)
        \/ (exists w1, extends w w1 evs
                       /\ Exists (fun ev => updated_ok p ev = true) evs
                       /\ k w1 = (w', r))).
Proof.
  intros Hc Hrun. unfold try_update in Hrun.
  minv Hrun.
  2: { apply try_update_loop_spec in Hfst as (evs & Hext & Hall & _ & Hfirst).
       exists evs. split; [exact Hall|]. split; [exact (Hfirst _ _ Hc)|].
       left. exists e. split; [reflexivity | exact Hext]. }
  apply try_update_loop_spec in Hfst as (evs & Hext & Hall & Hok & Hfirst).
  destruct (Hok x eq_refl) as [_ Hupd]. specialize (Hfirst _ _ Hc).
  assert (Hfirst' : forall more, starts_with_update a p t0 (evs ++ more)).
  { intros more. destruct Hfirst as (r0 & evs' & ->). exists r0, (evs' ++ more). reflexivity. }
  minv Hrun.
  2: { apply ensure_labels_spec in Hfst as (evs2 & Hext2 & Hall2).
       exists (evs ++ evs2). split; [apply Forall_app; split; assumption|].
       split; [apply Hfirst'|]. left. exists e.
       split; [reflexivity | exact (extends_trans _ _ _ _ _ Hext Hext2)]. }
  apply ensure_labels_spec in Hfst as (evs2 & Hext2 & Hall2).
  minv Hrun.
  2: { apply write_source_meta_spec in Hfst as (evs3 & Hext3 & Hall3).
       exists (evs ++ evs2 ++ evs3).
       split; [rewrite !Forall_app; repeat split; assumption|].
       split; [apply Hfirst'|]. left. exists e. split; [reflexivity|].
       exact (extends_trans _ _ _ _ _ Hext (extends_trans _ _ _ _ _ Hext2 Hext3)). }
  apply write_source_meta_spec in Hfst as (evs3 & Hext3 & Hall3).
  exists (evs ++ evs2 ++ evs3).
  split; [rewrite !Forall_app; repeat split; assumption|].
  split; [apply Hfirst'|]. right. exists w2.
  split; [exact (extends_trans _ _ _ _ _ Hext (extends_trans _ _ _ _ _ Hext2 Hext3))|].
  split; [apply Exists_app; left; exact Hupd | exact Hrun].
Qed.

(** Branch 1: only calls on the page [p], the first one an update under the
    first candidate title; the indexes are untouched; a result is [p], after
    an update of [p] that went through. *)
Definition existing_outcome (a : Args) (p t0 : str) (w w' : WorldR) (r : Res str)
    : Prop :=
  exists evs,
    extends w w' evs
    /\ Forall (fun ev => touches p ev = true) evs
    /\ starts_with_update a p t0 evs
    /\ (forall x, r = Ok x ->
          x = p /\ Exists (fun ev => updated_ok p ev = true) evs).

Lemma upsert_existing_spec (key : str) (a : Args) (p t0 : str) (rest : list str)
    (w w' : WorldR) (r : Res str) :
  title_candidates key a (title a) = t0 :: rest ->
  upsert_existing key a p w = (w', r) ->
  existing_outcome a p t0 w w' r.
Proof.
  intros Hc Hrun. unfold existing_outcome. unfold upsert_existing in Hrun.
  apply (upsert_block_spec key a p t0 rest _ w w' r Hc) in Hrun
    as (evs & Hall & Hfirst & [(e & -> & Hext)|(w1 & Hext & Hupd & Hk)]).
  - exists evs. split; [exact Hext|]. split; [exact Hall|]. split; [exact Hfirst|].
    discriminate.
  - apply ret_inv in Hk as [-> ->]. exists evs.
    split; [exact Hext|]. split; [exact Hall|]. split; [exact Hfirst|].
    intros x Heq. injection Heq as <-. split; [reflexivity | exact Hupd].
Qed.

(** Branches 1b and 2: only calls on the page [p], the first one an update
    under the first candidate title; a result is [p], the legacy label was
    deleted last, after an update that went through, and the key is installed
    in the primary index; a failure leaves the indexes as they were. *)
Definition migrate_outcome (key : str) (a : Args) (p t0 : str) (w w' : WorldR)
    (r : Res str) : Prop :=
  exists evs,
    log w' = log w ++ evs
    /\ label_to_page w' = label_to_page w
    /\ path_to_page w' = path_to_page w
    /\ Forall (fun ev => touches p ev = true) evs
    /\ starts_with_update a p t0 evs
    /\ (forall e, r = Raise e -> key_to_page w' = key_to_page w)
    /\ (forall x, r = Ok x ->
          x = p
          /\ key_to_page w' = <[key:=p]> (key_to_page w)
          /\ exists pre res,
               evs = pre ++ [EvDeleteLabel p (_label_for key) res]
               /\ Exists (fun ev => updated_ok p ev = true) pre).

Lemma upsert_migrate_spec (key : str) (a : Args) (p t0 : str) (rest : list str)
    (w w' : WorldR) (r : Res str) :
  title_candidates key a (title a) = t0 :: rest ->
  upsert_migrate key a p w = (w', r) ->
  migrate_outcome key a p t0 w w' r.
Proof.
  intros Hc Hrun. unfold migrate_outcome. unfold upsert_migrate in Hrun.
  apply (upsert_block_spec key a p t0 rest _ w w' r Hc) in Hrun
    as (evs & Hall & Hfirst & [(e & -> & Hext)|(w1 & Hext & Hupd & Hk)]).
  - destruct Hext as (Hk2p & Hl2p & Hp2p & Hlog). exists evs.
    repeat split; try assumption; try congruence.
  - minv Hk.
    2: { apply swallow_call_inv in Hfst as [Heq _]. discriminate Heq. }
    apply swallow_call_inv in Hfst as [_ (res & Hext2)].
    minv Hk.
    2: { unfold set_key_to_page in Hfst. discriminate Hfst. }
    unfold set_key_to_page in Hfst. injection Hfst as <- _.
    apply ret_inv in Hk as [-> ->].
    destruct (extends_trans _ _ _ _ _ Hext Hext2) as (Hk2p & Hl2p & Hp2p & Hlog).
    exists (evs ++ [EvDeleteLabel p (_label_for key) res]).
    split; [exact Hlog|]. split; [exact Hl2p|]. split; [exact Hp2p|].
    split; [apply Forall_app; split; [exact Hall|]; constructor;
            [apply str_eqb_refl | constructor]|].
    split.
    { destruct Hfirst as (r0 & evs' & ->). eexists r0, _. reflexivity. }
    split; [discriminate|].
    intros y Heq. injection Heq as <-. split; [reflexivity|].
    split; [simpl; rewrite Hk2p; reflexivity|].
    exists evs, res. split; [reflexivity | exact Hupd].
Qed.

(** Branch 3: the first call is a [create_page] under the first candidate
    title; when it returns an id, only calls on that page follow and a result
    is that id; at most one page is created; a result is installed in the
    primary index, a failure leaves the indexes as they were. *)
Definition create_outcome (key : str) (a : Args) (t0 : str) (w w' : WorldR)
    (r : Res str) : Prop :=
  exists evs r0 evs',
    log w' = log w ++ evs
    /\ label_to_page w' = label_to_page w
    /\ path_to_page w' = path_to_page w
    /\ (pages_created evs <= 1)%nat
    /\ evs = EvCreate (space cfg) (parent_id a) t0 (storage a) r0 :: evs'
    /\ (forall pid, r0 = Ok pid ->
          Forall (fun ev => touches pid ev = true) evs'
          /\ (forall x, r = Ok x -> x = pid))
    /\ (forall e, r = Raise e -> key_to_page w' = key_to_page w)
    /\ (forall x, r = Ok x -> key_to_page w' = <[key:=x]> (key_to_page w))
    /\ (forall x, r = Ok x ->
          x <> []
          \/ exists t, In (EvCreate (space cfg) (parent_id a) t (storage a) (Ok x)) evs).

Lemma upsert_create_spec (key : str) (a : Args) (t0 : str) (rest : list str)
    (w w' : WorldR) (r : Res str) :
  title_candidates key a (title a) = t0 :: rest ->
  upsert_create key a w = (w', r) ->
  create_outcome key a t0 w w' r.
Proof.
  intros Hc Hrun. unfold create_outcome. unfold upsert_create, try_create in Hrun.
  minv Hrun.
  2: { apply try_create_loop_spec in Hfst as (evs & Hext & Hle & _ & Hfirst).
       destruct (Hfirst _ _ Hc) as (r0 & evs' & -> & Hr0).
       destruct Hext as (Hk2p & Hl2p & Hp2p & Hlog).
       exists (EvCreate (space cfg) (parent_id a) t0 (storage a) r0 :: evs'), r0, evs'.
       split; [exact Hlog|]. split; [exact Hl2p|]. split; [exact Hp2p|].
       split; [exact Hle|]. split; [reflexivity|].
       split; [|split; [intros; exact Hk2p | split; discriminate]].
       intros pid ->. destruct (Hr0 pid eq_refl) as [_ Hbad]. discriminate Hbad. }
  apply try_create_loop_spec in Hfst as (evs & Hext & Hle & Hres & Hfirst).
  destruct (Hfirst _ _ Hc) as (r0 & evs' & -> & Hr0).
  destruct x as [page_id used_title].
  assert (Htail : exists evs2,
             log w' = log w1 ++ evs2
             /\ label_to_page w' = label_to_page w1
             /\ path_to_page w' = path_to_page w1
             /\ Forall (fun ev => touches page_id ev = true) evs2
             /\ (forall e, r = Raise e -> key_to_page w' = key_to_page w1)
             /\ (forall x, r = Ok x ->
                   x = page_id /\ key_to_page w' = <[key:=page_id]> (key_to_page w1))).
  { minv Hrun.
    2: { apply ensure_labels_spec in Hfst as (evs2 & (Hk2p & Hl2p & Hp2p & Hlog) & Hall2).
         exists evs2. split; [exact Hlog|]. split; [exact Hl2p|]. split; [exact Hp2p|].
         split; [exact Hall2|]. split; [intros; exact Hk2p | discriminate]. }
    apply ensure_labels_spec in Hfst as (evs2 & Hext2 & Hall2).
    minv Hrun.
    2: { apply write_source_meta_spec in Hfst as (evs3 & Hext3 & Hall3).
         destruct (extends_trans _ _ _ _ _ Hext2 Hext3) as (Hk2p & Hl2p & Hp2p & Hlog).
         exists (evs2 ++ evs3). split; [exact Hlog|]. split; [exact Hl2p|].
         split; [exact Hp2p|]. split; [apply Forall_app; split; assumption|].
         split; [intros; exact Hk2p | discriminate]. }
    apply write_source_meta_spec in Hfst as (evs3 & Hext3 & Hall3).
    destruct (extends_trans _ _ _ _ _ Hext2 Hext3) as (Hk2p & Hl2p & Hp2p & Hlog).
    minv Hrun.
    2: { unfold set_key_to_page in Hfst. discriminate Hfst. }
    unfold set_key_to_page in Hfst. injection Hfst as <- _.
    apply ret_inv in Hrun as [-> ->].
    exists (evs2 ++ evs3). split; [exact Hlog|]. split; [exact Hl2p|].
    split; [exact Hp2p|]. split; [apply Forall_app; split; assumption|].
    split; [discriminate|].
    intros y Heq. injection Heq as <-. split; [reflexivity|].
    simpl. rewrite Hk2p. reflexivity. }
  destruct Htail as (evs2 & Hlog2 & Hl2 & Hp2 & Hall2 & Hraise & Hok).
  destruct Hext as (Hk2p & Hl2p & Hp2p & Hlog).
  exists ((EvCreate (space cfg) (parent_id a) t0 (storage a) r0 :: evs') ++ evs2),
         r0, (evs' ++ evs2).
  split; [rewrite Hlog2, Hlog, app_assoc; reflexivity|].
  split; [congruence|]. split; [congruence|].
  split.
  { rewrite pages_created_app, (touches_not_created page_id evs2 Hall2). lia. }
  split; [reflexivity|].
  split.
  { intros pid ->. destruct (Hr0 pid eq_refl) as [-> Heq]. injection Heq as <- _.
    split; [exact Hall2|]. intros x Hx. exact (proj1 (Hok x Hx)). }
  split.
  { intros e He. rewrite (Hraise e He). exact Hk2p. }
  split.
  { intros y Hy. destruct (Hok y Hy) as [-> Hins]. rewrite Hins, Hk2p. reflexivity. }
  intros y Hy. destruct (Hok y Hy) as [-> _].
  destruct (Hres page_id used_title eq_refl) as [(pre & Hpre & _)|(Hne & _)];
    [right | left; exact Hne].
  exists used_title. apply in_or_app. left. rewrite Hpre.
  apply in_or_app. right. left. reflexivity.
Qed.

(** ** The resolution chain *)

(** Where the page of a key comes from. *)
Inductive branch : Type :=
| Primary (p : str)
| Legacy (q : str)
| Adopted (p : str)
| Created.

(** The chain in the words of the specification, first match wins: the
    primary index; the legacy label index; when adoption is enabled, the
    page [find_page_by_title] returns for the exact title if the root is
    among its ancestors; otherwise creation. [Raise] when the search
    itself fails. *)
Definition chosen_branch (key : str) (a : Args) (w : WorldR) : Res branch :=
  match nonempty (key_to_page w !! key) with
  | Some p => Ok (Primary p)
  | None =>
      match nonempty (label_to_page w !! _label_for key) with
      | Some q => Ok (Legacy q)
      | None =>
          if adopt_existing_by_title_under_root cfg then
            match adoption_of (snd (find_page_by_title (space cfg) (title a) (remote w))) with
            | Raise e => Raise e
            | Ok o => match nonempty o with
                      | Some p => Ok (Adopted p)
                      | None => Ok Created
                      end
            end
          else Ok Created
      end
  end.

(** The world after the adoption search of branch 2, and its event. *)
Definition searched (a : Args) (w w1 : WorldR) : Prop :=
  if adopt_existing_by_title_under_root cfg then
    extends w w1
      [EvFind (space cfg) (title a)
         (snd (find_page_by_title (space cfg) (title a) (remote w)))]
  else w1 = w.

Lemma searched_extends (a : Args) (w w1 : WorldR) :
  searched a w w1 -> exists evs, extends w w1 evs /\ pages_created evs = 0%nat.
Proof.
  unfold searched. destruct (adopt_existing_by_title_under_root cfg).
  - intros Hext. eexists. split; [exact Hext | reflexivity].
  - intros ->. exists []. split; [apply extends_refl | reflexivity].
Qed.

(** What a run of [ensure_page] does, branch by branch. *)
Lemma ensure_page_cases (key : str) (a : Args) (w w' : WorldR) (r : Res str) :
  ensure_page cfg key a w = (w', r) ->
  exists t0 rest,
    title_candidates key a (title a) = t0 :: rest
    /\ match chosen_branch key a w with
       | Ok (Primary p) => existing_outcome a p t0 w w' r
       | Ok (Legacy q) => migrate_outcome key a q t0 w w' r
       | Ok (Adopted p) =>
           exists w1, searched a w w1 /\ migrate_outcome key a p t0 w1 w' r
       | Ok Created =>
           exists w1, searched a w w1 /\ create_outcome key a t0 w1 w' r
       | Raise e => searched a w w' /\ r = Raise e
       end.
Proof.
  intros Hrun. destruct (title_candidates_cons key a (title a)) as (t0 & rest & Hc).
  exists t0, rest. split; [exact Hc|].
  rewrite ensure_page_unfold in Hrun. unfold chosen_branch.
  destruct (nonempty (key_to_page w !! key)) as [p|].
  { exact (upsert_existing_spec key a p t0 rest w w' r Hc Hrun). }
  destruct (nonempty (label_to_page w !! _label_for key)) as [q|].
  { exact (upsert_migrate_spec key a q t0 rest w w' r Hc Hrun). }
  unfold searched.
  minv Hrun.
  - apply adopt_spec in Hfst.
    destruct (adopt_existing_by_title_under_root cfg).
    + destruct Hfst as (res & Hext & Hfind & Hx). rewrite Hfind. cbn [snd].
      rewrite <- Hx.
      destruct (nonempty x) as [p|].
      * exists w1. split; [exact Hext|].
        exact (upsert_migrate_spec key a p t0 rest w1 w' r Hc Hrun).
      * exists w1. split; [exact Hext|].
        exact (upsert_create_spec key a t0 rest w1 w' r Hc Hrun).
    + destruct Hfst as [-> Hx]. injection Hx as ->. cbn [nonempty] in Hrun.
      exists w. split; [reflexivity|].
      exact (upsert_create_spec key a t0 rest w w' r Hc Hrun).
  - apply adopt_spec in Hfst.
    destruct (adopt_existing_by_title_under_root cfg).
    + destruct Hfst as (res & Hext & Hfind & Hx). rewrite Hfind. cbn [snd].
      rewrite <- Hx. split; [exact Hext | reflexivity].
    + destruct Hfst as [_ Hx]. discriminate Hx.
Qed.

(** A run creates at most one page. *)
Lemma ensure_page_creates_at_most_one (key : str) (a : Args) (w w' : WorldR)
    (r : Res str) :
  ensure_page cfg key a w = (w', r) ->
  (pages_created (log w') <= pages_created (log w) + 1)%nat.
Proof.
  intros Hrun. apply ensure_page_cases in Hrun as (t0 & rest & _ & Hcase).
  destruct (chosen_branch key a w) as [[p|q|p|]|e].
  - destruct Hcase as (evs & (_ & _ & _ & Hlog) & Hall & _).
    rewrite Hlog, pages_created_app, (touches_not_created p evs Hall). lia.
  - destruct Hcase as (evs & Hlog & _ & _ & Hall & _).
    rewrite Hlog, pages_created_app, (touches_not_created q evs Hall). lia.
  - destruct Hcase as (w1 & Hs & evs & Hlog & _ & _ & Hall & _).
    apply searched_extends in Hs as (evs0 & (_ & _ & _ & Hlog0) & Hz).
    rewrite Hlog, Hlog0, !pages_created_app, Hz, (touches_not_created p evs Hall). lia.
  - destruct Hcase as (w1 & Hs & evs & r0 & evs' & Hlog & _ & _ & Hle & _).
    apply searched_extends in Hs as (evs0 & (_ & _ & _ & Hlog0) & Hz).
    rewrite Hlog, Hlog0, !pages_created_app, Hz. lia.
  - destruct Hcase as [Hs _].
    apply searched_extends in Hs as (evs0 & (_ & _ & _ & Hlog0) & Hz).
    rewrite Hlog0, pages_created_app, Hz. lia.
Qed.

(** A run that returns a page id leaves the key mapped to it. *)
Lemma ensure_page_ok_installed (key : str) (a : Args) (w w' : WorldR) (p : str) :
  ensure_page cfg key a w = (w', Ok p) -> key_to_page w' !! key = Some p.
Proof.
  intros Hrun. apply ensure_page_cases in Hrun as (t0 & rest & _ & Hcase).
  unfold chosen_branch in Hcase.
  destruct (nonempty (key_to_page w !! key)) as [p0|] eqn:Hk.
  { destruct Hcase as (evs & (Hk2p & _) & _ & _ & Hok).
    destruct (Hok p eq_refl) as [-> _]. rewrite Hk2p.
    exact (proj1 (nonempty_some _ _ Hk)). }
  assert (Hmig : forall q w1, migrate_outcome key a q t0 w1 w' (Ok p) ->
                   key_to_page w' !! key = Some p).
  { intros q w1 (evs & _ & _ & _ & _ & _ & _ & Hok).
    destruct (Hok p eq_refl) as (-> & Hins & _). rewrite Hins. apply lookup_insert_eq. }
  assert (Hcre : forall w1, create_outcome key a t0 w1 w' (Ok p) ->
                   key_to_page w' !! key = Some p).
  { intros w1 (evs & r0 & evs' & _ & _ & _ & _ & _ & _ & _ & Hok & _).
    rewrite (Hok p eq_refl). apply lookup_insert_eq. }
  destruct (nonempty (label_to_page w !! _label_for key)) as [q|].
  { exact (Hmig q w Hcase). }
  destruct (adopt_existing_by_title_under_root cfg).
  - destruct (adoption_of _) as [o|e].
    + destruct (nonempty o) as [p1|].
      * destruct Hcase as (w1 & _ & Hm). exact (Hmig p1 w1 Hm).
      * destruct Hcase as (w1 & _ & Hm). exact (Hcre w1 Hm).
    + destruct Hcase as [_ Hbad]. discriminate Hbad.
  - destruct Hcase as (w1 & _ & Hm). exact (Hcre w1 Hm).
Qed.

(** With the key in the primary index, a run takes branch 1. *)
Lemma ensure_page_known (key : str) (a : Args) (w w' : WorldR) (p : str) (r : Res str) :
  key_to_page w !! key = Some p -> p <> [] ->
  ensure_page cfg key a w = (w', r) ->
  ensure_page cfg key a w = upsert_existing key a p w
  /\ exists evs,
       extends w w' evs
       /\ Forall (fun ev => touches p ev = true) evs
       /\ (r = Ok p \/ exists e, r = Raise e)
       /\ (r = Ok p -> Exists (fun ev => updated_ok p ev = true) evs).
Proof.
  intros Hk Hne Hrun.
  assert (Hnon : nonempty (key_to_page w !! key) = Some p).
  { rewrite Hk. apply nonempty_of_some. exact Hne. }
  assert (Heq : ensure_page cfg key a w = upsert_existing key a p w).
  { rewrite ensure_page_unfold, Hnon. reflexivity. }
  split; [exact Heq|].
  apply ensure_page_cases in Hrun as (t0 & rest & _ & Hcase).
  unfold chosen_branch in Hcase. rewrite Hnon in Hcase.
  destruct Hcase as (evs & Hext & Hall & _ & Hok).
  exists evs. split; [exact Hext|]. split; [exact Hall|].
  split.
  - destruct r as [x|e]; [left | right; eauto].
    destruct (Hok x eq_refl) as [-> _]. reflexivity.
  - intros ->. exact (proj2 (Hok p eq_refl)).
Qed.

(** A page id is never empty unless [create_page] itself returned the empty
    id. *)
Lemma ensure_page_ok_nonempty (key : str) (a : Args) (w w' : WorldR) (p : str) :
  ensure_page cfg key a w = (w', Ok p) ->
  p <> []
  \/ exists t, In (EvCreate (space cfg) (parent_id a) t (storage a) (Ok p)) (log w').
Proof.
  intros Hrun. apply ensure_page_cases in Hrun as (t0 & rest & _ & Hcase).
  unfold chosen_branch in Hcase.
  destruct (nonempty (key_to_page w !! key)) as [p0|] eqn:Hk.
  { destruct Hcase as (evs & _ & _ & _ & Hok). destruct (Hok p eq_refl) as [-> _].
    left. exact (proj2 (nonempty_some _ _ Hk)). }
  assert (Hcre : forall w1, create_outcome key a t0 w1 w' (Ok p) ->
            p <> []
            \/ exists t, In (EvCreate (space cfg) (parent_id a) t (storage a) (Ok p)) (log w')).
  { intros w1 (evs & r0 & evs' & Hlog & _ & _ & _ & _ & _ & _ & _ & Hor).
    destruct (Hor p eq_refl) as [Hne|(t & Hin)]; [left; exact Hne | right].
    exists t. rewrite Hlog. apply in_or_app. right. exact Hin. }
  destruct (nonempty (label_to_page w !! _label_for key)) as [q|] eqn:Hl.
  { destruct Hcase as (evs & _ & _ & _ & _ & _ & _ & Hok).
    destruct (Hok p eq_refl) as (-> & _). left. exact (proj2 (nonempty_some _ _ Hl)). }
  destruct (adopt_existing_by_title_under_root cfg).
  - destruct (adoption_of _) as [o|e].
    + destruct (nonempty o) as [p1|] eqn:Ho.
      * destruct Hcase as (w1 & _ & evs & _ & _ & _ & _ & _ & _ & Hok).
        destruct (Hok p eq_refl) as (-> & _). left. exact (proj2 (nonempty_some _ _ Ho)).
      * destruct Hcase as (w1 & _ & Hm). exact (Hcre w1 Hm).
    + destruct Hcase as [_ Hbad]. discriminate Hbad.
  - destruct Hcase as (w1 & _ & Hm). exact (Hcre w1 Hm).
Qed.

(** [ensure_page] called again and again with the same key: the worlds are
    threaded through, each outcome is kept (a failed call does not stop the
    next run). *)
Fixpoint republish (key : str) (calls : list Args) (w : WorldR)
    : WorldR * list (Res str) :=
  match calls with
  | [] => (w, [])
  | a :: rest =>
      let '(w1, r) := ensure_page cfg key a w in
      let '(w2, rs) := republish key rest w1 in
      (w2, r :: rs)
  end.

Lemma republish_known (key : str) (p : str) (calls : list Args) :
  p <> [] ->
  forall (w w' : WorldR) (rs : list (Res str)),
  key_to_page w !! key = Some p ->
  republish key calls w = (w', rs) ->
  exists evs,
    extends w w' evs
    /\ Forall (fun ev => touches p ev = true) evs
    /\ Forall (fun r => r = Ok p \/ exists e, r = Raise e) rs
    /\ (In (Ok p) rs -> Exists (fun ev => updated_ok p ev = true) evs).
Proof.
  intros Hne. induction calls as [|a rest IH]; intros w w' rs Hk Hrun; simpl in Hrun.
  - injection Hrun as <- <-. exists []. split; [apply extends_refl|].
    split; [constructor|]. split; [constructor|]. intros [].
  - destruct (ensure_page cfg key a w) as [w1 r] eqn:Hcall.
    destruct (republish key rest w1) as [w2 rs'] eqn:Hrest.
    injection Hrun as <- <-.
    destruct (ensure_page_known key a w w1 p r Hk Hne Hcall)
      as (_ & evs1 & Hext1 & Hall1 & Hr & Hupd).
    assert (Hk1 : key_to_page w1 !! key = Some p).
    { destruct Hext1 as (Hk2p & _). rewrite Hk2p. exact Hk. }
    destruct (IH w1 w2 rs' Hk1 Hrest) as (evs2 & Hext2 & Hall2 & Hrs & Hupd2).
    exists (evs1 ++ evs2). split; [exact (extends_trans _ _ _ _ _ Hext1 Hext2)|].
    split; [apply Forall_app; split; assumption|].
    split; [constructor; assumption|].
    intros [Heq|Hin]; apply Exists_app; [left; exact (Hupd Heq) | right; exact (Hupd2 Hin)].
Qed.

End UpsertFacts.

(** The index state of the test
    test_ensure_page_updates_existing_by_legacy_label_and_migrates. *)
Definition legacy_world : @World Fake.Fake :=
  mkWorld Fake.fresh ∅ (<[_label_for (py "file:docs/a.md") := py "777"]> ∅) ∅ [].

Example ensure_page_legacy_test :
  snd (ensure_page Fake.test_cfg (py "file:docs/a.md") hello_args legacy_world)
    = Ok (py "777")
  /\ key_to_page (fst (ensure_page Fake.test_cfg (py "file:docs/a.md") hello_args
                         legacy_world)) !! py "file:docs/a.md" = Some (py "777")
  /\ In (py "777", _label_for (py "file:docs/a.md"))
       (Fake.deleted_labels
          (remote (fst (ensure_page Fake.test_cfg (py "file:docs/a.md") hello_args
                          legacy_world)))).
Proof.
  split; [vm_compute; reflexivity|].
  split; [vm_compute; reflexivity|].
  vm_compute. right. right. right. left. reflexivity.
Qed.

(** The test test_ensure_page_creates_with_collision_prefix: the bare title
    is taken, the page is created under the prefixed one. *)
Example ensure_page_create_test :
  let run := ensure_page Fake.test_cfg (py "file:docs/a.md") hello_args
               (Fake.world0 (Fake.mkFake [] [] [] [] [] [py "Hello"] [] [])) in
  snd run = Ok (py "new:1")
  /\ Fake.created (remote (fst run))
     = [(py "DOC", py "100", py "DOCS · Hello", py "<p>x</p>")].
Proof. split; vm_compute; reflexivity. Qed.



(** C10. Whenever [ensure_page] returns a page id P, the primary index maps
    the key to P at return, whichever branch was taken; and, P being a
    non-empty id (it always is, unless [create_page] itself returned the
    empty id), every later call with the same key takes the primary branch:
    it only touches the page P. *)
Theorem ensure_page_index_consistent {R : Type} `{Confluence R} (cfg : Cfg)
    (key : str) (a : Args) (w w' : @World R) (P : str) :
  ensure_page cfg key a w = (w', Ok P) ->
  key_to_page w' !! key = Some P
  /\ (P <> []
      \/ exists t, In (EvCreate (space cfg) (parent_id a) t (storage a) (Ok P)) (log w'))
  /\ (P <> [] ->
      forall a2,
        chosen_branch cfg key a2 w' = Ok (Primary P)
        /\ ensure_page cfg key a2 w' = upsert_existing cfg key a2 P w'
        /\ forall w2 r2, ensure_page cfg key a2 w' = (w2, r2) ->
             exists evs, extends w' w2 evs
                         /\ Forall (fun ev => touches P ev = true) evs
                         /\ (r2 = Ok P \/ exists e, r2 = Raise e)).
Proof.
  intros Hrun.
  assert (Hk := ensure_page_ok_installed cfg key a w w' P Hrun).
  split; [exact Hk|].
  split; [exact (ensure_page_ok_nonempty cfg key a w w' P Hrun)|].
  intros Hne a2.
  assert (Hnon : nonempty (key_to_page w' !! key) = Some P).
  { rewrite Hk. apply nonempty_of_some. exact Hne. }
  split; [unfold chosen_branch; rewrite Hnon; reflexivity|].
  split; [rewrite ensure_page_unfold, Hnon; reflexivity|].
  intros w2 r2 Hrun2.
  destruct (ensure_page_known cfg key a2 w' w2 P r2 Hk Hne Hrun2)
    as (_ & evs & Hext & Hall & Hr & _).
  exists evs. split; [exact Hext|]. split; [exact Hall | exact Hr].
Qed.

(** Witness: the page created in the collision test is found by the primary
    index afterwards. *)
Lemma ensure_page_index_consistent_witness :
  key_to_page
    (fst (ensure_page Fake.test_cfg (py "file:docs/a.md") hello_args
            (Fake.world0 (Fake.mkFake [] [] [] [] [] [py "Hello"] [] []))))
    !! py "file:docs/a.md" = Some (py "new:1").
Proof.
  refine (proj1 (ensure_page_index_consistent Fake.test_cfg (py "file:docs/a.md")
                   hello_args
                   (Fake.world0 (Fake.mkFake [] [] [] [] [] [py "Hello"] [] []))
                   _ (py "new:1") _)).
  vm_compute. reflexivity.
Defined.



(* ===================================================================== *)
(** * Renames (publish_all.publish_entry) *)
(* ===================================================================== *)

Section RenameFacts.

Context {R : Type} `{Confluence R}.
Variable cfg : Cfg.
Variable conv : Conv.

Local Abbreviation WorldR := (@World R).
Local Existing Instance M_ret.
Local Existing Instance M_bind.

(** The arguments [publish_entry] passes to [ensure_page]. *)
Definition entry_args (e : Entry) (res : str * list str) : Args :=
  mkArgs (e_title e) (e_parent_id e) (fst res) [py "md"] (Some (snd res))
    (Some (e_collision_prefix e)).

Ltac minv Hm :=
  let w1 := fresh "w1" in
  let x := fresh "x" in
  let e := fresh "e" in
  let Hfst := fresh "Hfst" in
  apply bind_inv in Hm as [(w1 & x & Hfst & Hm) | (e & Hfst & ->)].

(** Publishing the entry of a renamed file whose old key is known and whose
    new key is free. *)
Lemma publish_entry_renamed (e : Entry) (old_key old_path P : str)
    (w w' : WorldR) (r : Res str) :
  rename_from_key e = Some old_key -> old_key <> [] -> old_key <> e_key e ->
  rename_from_path e = Some old_path -> old_path <> [] ->
  key_to_page w !! old_key = Some P -> P <> [] ->
  key_to_page w !! e_key e = None ->
  publish_entry cfg conv e w = (w', r) ->
  exists evs,
    log w' = log w ++ evs
    /\ label_to_page w' = label_to_page w
    /\ Forall (fun ev => touches P ev = true) evs
    /\ (r = Ok P \/ exists x, r = Raise x)
    /\ (r = Ok P ->
        Exists (fun ev => updated_ok P ev = true) evs
        /\ key_to_page w' = delete old_key (<[e_key e := P]> (key_to_page w))
        /\ path_to_page w'
           = delete old_path (<[e_current_path e := P]> (path_to_page w)))
    /\ ((exists x, r = Raise x) ->
        key_to_page w' = <[e_key e := P]> (key_to_page w)
        /\ path_to_page w' = path_to_page w).
Proof.
  intros Hrk Hok_ne Hkeys Hrp Hop_ne Hold HP Hnew Hrun.
  unfold publish_entry in Hrun.
  rewrite Hrk, Hrp, (nonempty_of_some old_key Hok_ne),
    (nonempty_of_some old_path Hop_ne),
    (proj2 (str_eqb_neq old_key (e_key e)) Hkeys) in Hrun.
  cbn [negb] in Hrun.
  minv Hrun.
  2: { rewrite Hold, (nonempty_of_some P HP), Hnew in Hfst.
       unfold set_key_to_page in Hfst. discriminate Hfst. }
  rewrite Hold, (nonempty_of_some P HP), Hnew in Hfst.
  unfold set_key_to_page in Hfst. injection Hfst as <- _.
  set (wa := mkWorld (remote w) (<[e_key e := P]> (key_to_page w)) (label_to_page w)
               (path_to_page w) (log w)) in *.
  assert (Hka : key_to_page wa !! e_key e = Some P) by apply lookup_insert_eq.
  minv Hrun.
  2: { injection Hfst as <- _. exists []. rewrite app_nil_r.
       split; [reflexivity|]. split; [reflexivity|]. split; [constructor|].
       split; [right; eauto|]. split; [discriminate|].
       intros _. split; reflexivity. }
  injection Hfst as <- Hconv.
  minv Hrun.
  2: { destruct (ensure_page_known cfg (e_key e) _ wa w' P (Raise e0) Hka HP Hfst)
         as (_ & evs & (Hk2p & Hl2p & Hp2p & Hlog) & Hall & _ & _).
       exists evs. split; [exact Hlog|]. split; [exact Hl2p|]. split; [exact Hall|].
       split; [right; eauto|]. split; [discriminate|].
       intros _. split; [exact Hk2p | exact Hp2p]. }
  destruct (ensure_page_known cfg (e_key e) _ wa w1 P (Ok x1) Hka HP Hfst)
    as (_ & evs & (Hk2p & Hl2p & Hp2p & Hlog) & Hall & Hr & Hupd).
  assert (Hx1 : x1 = P).
  { destruct Hr as [Heq|(y & Heq)]; [injection Heq as ->; reflexivity | discriminate Heq]. }
  subst x1.
  minv Hrun.
  2: { unfold set_path_to_page in Hfst0. discriminate Hfst0. }
  unfold set_path_to_page in Hfst0. injection Hfst0 as <- _.
  minv Hrun.
  2: { unfold pop_path_to_page in Hfst0. discriminate Hfst0. }
  unfold pop_path_to_page in Hfst0. injection Hfst0 as <- _.
  assert (Hpop : key_to_page w1 !! old_key = Some P).
  { rewrite Hk2p. unfold wa. cbn. rewrite lookup_insert_ne by congruence. exact Hold. }
  minv Hrun; cbn in Hfst0; rewrite (bool_decide_eq_true_2 _ Hpop) in Hfst0.
  2: { unfold pop_key_to_page in Hfst0. discriminate Hfst0. }
  unfold pop_key_to_page in Hfst0. injection Hfst0 as <- _.
  apply ret_inv in Hrun as [-> ->].
  exists evs. cbn. split; [exact Hlog|]. split; [exact Hl2p|]. split; [exact Hall|].
  split; [left; reflexivity|]. split.
  - intros _. split; [exact (Hupd eq_refl)|].
    rewrite Hk2p, Hp2p. split; reflexivity.
  - intros (y & Hbad). discriminate Hbad.
Qed.

(** Publishing the same entry again, once the rename is settled (the second
    publish of pass 2): the old key stays unknown, the new key stays on the
    page, which is the only one touched. *)
Lemma publish_entry_settled (e : Entry) (old_key old_path P : str)
    (w w' : WorldR) (r : Res str) :
  rename_from_key e = Some old_key -> old_key <> [] -> old_key <> e_key e ->
  rename_from_path e = Some old_path -> old_path <> [] ->
  old_path <> e_current_path e ->
  key_to_page w !! old_key = None ->
  key_to_page w !! e_key e = Some P -> P <> [] ->
  publish_entry cfg conv e w = (w', r) ->
  exists evs,
    log w' = log w ++ evs
    /\ Forall (fun ev => touches P ev = true) evs
    /\ key_to_page w' = key_to_page w
    /\ (r = Ok P \/ exists x, r = Raise x)
    /\ (r = Ok P ->
        path_to_page w' !! old_path = None
        /\ path_to_page w' !! e_current_path e = Some P).
Proof.
  intros Hrk Hok_ne Hkeys Hrp Hop_ne Hpaths Hold Hnew HP Hrun.
  unfold publish_entry in Hrun.
  rewrite Hrk, Hrp, (nonempty_of_some old_key Hok_ne),
    (nonempty_of_some old_path Hop_ne),
    (proj2 (str_eqb_neq old_key (e_key e)) Hkeys) in Hrun.
  cbn [negb] in Hrun.
  minv Hrun.
  2: { rewrite Hold in Hfst. cbn in Hfst. discriminate Hfst. }
  rewrite Hold in Hfst. cbn in Hfst. injection Hfst as <- _.
  minv Hrun.
  2: { injection Hfst as <- _. exists []. rewrite app_nil_r.
       split; [reflexivity|]. split; [constructor|]. split; [reflexivity|].
       split; [right; eauto | discriminate]. }
  injection Hfst as <- Hconv.
  minv Hrun.
  2: { destruct (ensure_page_known cfg (e_key e) _ w w' P (Raise e0) Hnew HP Hfst)
         as (_ & evs & (Hk2p & Hl2p & Hp2p & Hlog) & Hall & _ & _).
       exists evs. split; [exact Hlog|]. split; [exact Hall|]. split; [exact Hk2p|].
       split; [right; eauto | discriminate]. }
  destruct (ensure_page_known cfg (e_key e) _ w w1 P (Ok x1) Hnew HP Hfst)
    as (_ & evs & (Hk2p & Hl2p & Hp2p & Hlog) & Hall & Hr & Hupd).
  assert (Hx1 : x1 = P).
  { destruct Hr as [Heq|(y & Heq)]; [injection Heq as ->; reflexivity | discriminate Heq]. }
  subst x1.
  minv Hrun.
  2: { unfold set_path_to_page in Hfst0. discriminate Hfst0. }
  unfold set_path_to_page in Hfst0. injection Hfst0 as <- _.
  minv Hrun.
  2: { unfold pop_path_to_page in Hfst0. discriminate Hfst0. }
  unfold pop_path_to_page in Hfst0. injection Hfst0 as <- _.
  assert (Hpop : key_to_page w1 !! old_key <> Some P).
  { rewrite Hk2p, Hold. discriminate. }
  minv Hrun; cbn in Hfst0; rewrite (bool_decide_eq_false_2 _ Hpop) in Hfst0.
  2: { discriminate Hfst0. }
  injection Hfst0 as <- _.
  apply ret_inv in Hrun as [-> ->].
  exists evs. cbn. split; [exact Hlog|]. split; [exact Hall|]. split; [exact Hk2p|].
  split; [left; reflexivity|].
  intros _. split; [apply lookup_delete_eq|].
  rewrite lookup_delete_ne by exact Hpaths. apply lookup_insert_eq.
Qed.

End RenameFacts.

(** The entry of docs/a/new.md, renamed from docs/a/old.md, and a world in
    which the old key is on page 777. *)
Definition renamed_entry : Entry :=
  entry_for (py "docs/a/new.md") (py "# New\n") (py "New") (py "100") (py "DOCS")
    (Some (py "docs/a/old.md")).

Definition renamed_world : @World Fake.Fake :=
  mkWorld Fake.fresh (<[py "file:docs/a/old.md" := py "777"]> ∅) ∅
    (<[py "docs/a/old.md" := py "777"]> ∅) [].

(** A converter without front matter: the markup is fixed, no labels. *)
Definition plain_conv : Conv := fun _ _ _ => Ok (py "<p>x</p>", []).

Example publish_entry_rename_test :
  let run := publish_entry Fake.test_cfg plain_conv renamed_entry renamed_world in
  snd run = Ok (py "777")
  /\ Fake.created (remote (fst run)) = []
  /\ key_to_page (fst run) !! py "file:docs/a/old.md" = None
  /\ key_to_page (fst run) !! py "file:docs/a/new.md" = Some (py "777")
  /\ path_to_page (fst run) !! py "docs/a/old.md" = None
  /\ path_to_page (fst run) !! py "docs/a/new.md" = Some (py "777").
Proof. cbv zeta. repeat split; vm_compute; reflexivity. Qed.

(** C3. When the entry of a renamed file is published, its old key mapping
    to the page P and its new key not yet claimed, and the publish succeeds:
    the result is P; no page is created, P is updated and no other page is
    touched (the new key was claimed for P beforehand); afterwards the old
    key and the old path are gone from the indexes and the new key and the
    new path resolve to P. A second publish of the entry (pass 2) keeps all
    this. *)
Theorem publish_entry_rename_stable {R : Type} `{Confluence R} (cfg : Cfg)
    (conv : Conv) (e : Entry) (old_key old_path P P' : str) (w w' : @World R) :
  rename_from_key e = Some old_key -> old_key <> [] -> old_key <> e_key e ->
  rename_from_path e = Some old_path -> old_path <> [] ->
  old_path <> e_current_path e ->
  key_to_page w !! old_key = Some P -> P <> [] ->
  key_to_page w !! e_key e = None ->
  publish_entry cfg conv e w = (w', Ok P') ->
  P' = P
  /\ (exists evs,
        log w' = log w ++ evs
        /\ Forall (fun ev => touches P ev = true) evs
        /\ Exists (fun ev => updated_ok P ev = true) evs)
  /\ pages_created (log w') = pages_created (log w)
  /\ key_to_page w' !! old_key = None
  /\ key_to_page w' !! e_key e = Some P
  /\ path_to_page w' !! old_path = None
  /\ path_to_page w' !! e_current_path e = Some P
  /\ (forall w2 r2, publish_entry cfg conv e w' = (w2, r2) ->
        (r2 = Ok P \/ exists x, r2 = Raise x)
        /\ pages_created (log w2) = pages_created (log w')
        /\ key_to_page w2 !! old_key = None
        /\ key_to_page w2 !! e_key e = Some P).
Proof.
  intros Hrk Hok_ne Hkeys Hrp Hop_ne Hpaths Hold HP Hnew Hrun.
  destruct (publish_entry_renamed cfg conv e old_key old_path P w w' (Ok P')
              Hrk Hok_ne Hkeys Hrp Hop_ne Hold HP Hnew Hrun)
    as (evs & Hlog & _ & Hall & Hr & Hok & _).
  assert (HP' : P' = P).
  { destruct Hr as [Heq|(y & Heq)]; [injection Heq as ->; reflexivity | discriminate Heq]. }
  subst P'. destruct (Hok eq_refl) as (Hupd & Hk2p & Hp2p).
  assert (Hk_old : key_to_page w' !! old_key = None)
    by (rewrite Hk2p; apply lookup_delete_eq).
  assert (Hk_new : key_to_page w' !! e_key e = Some P).
  { rewrite Hk2p, lookup_delete_ne by exact Hkeys. apply lookup_insert_eq. }
  split; [reflexivity|].
  split; [exists evs; split; [exact Hlog|]; split; assumption|].
  split; [rewrite Hlog, pages_created_app, (touches_not_created P evs Hall); lia|].
  split; [exact Hk_old|]. split; [exact Hk_new|].
  split; [rewrite Hp2p; apply lookup_delete_eq|].
  split; [rewrite Hp2p, lookup_delete_ne by exact Hpaths; apply lookup_insert_eq|].
  intros w2 r2 Hrun2.
  destruct (publish_entry_settled cfg conv e old_key old_path P w' w2 r2
              Hrk Hok_ne Hkeys Hrp Hop_ne Hpaths Hk_old Hk_new HP Hrun2)
    as (evs2 & Hlog2 & Hall2 & Hk2 & Hr2 & _).
  split; [exact Hr2|].
  split; [rewrite Hlog2, pages_created_app, (touches_not_created P evs2 Hall2); lia|].
  rewrite Hk2. split; assumption.
Qed.

(** Witness: docs/a/old.md, published as page 777, renamed to
    docs/a/new.md. *)
Lemma publish_entry_rename_stable_witness :
  key_to_page (fst (publish_entry Fake.test_cfg plain_conv renamed_entry renamed_world))
    !! py "file:docs/a/old.md" = None
  /\ key_to_page (fst (publish_entry Fake.test_cfg plain_conv renamed_entry renamed_world))
       !! e_key renamed_entry = Some (py "777").
Proof.
  destruct (publish_entry_rename_stable Fake.test_cfg plain_conv renamed_entry
              (py "file:docs/a/old.md") (py "docs/a/old.md") (py "777") (py "777")
              renamed_world
              (fst (publish_entry Fake.test_cfg plain_conv renamed_entry renamed_world)))
    as (_ & _ & _ & Hold & Hnew & _).
  - vm_compute. reflexivity.
  - vm_compute. discriminate.
  - vm_compute. discriminate.
  - vm_compute. reflexivity.
  - vm_compute. discriminate.
  - vm_compute. discriminate.
  - vm_compute. reflexivity.
  - vm_compute. discriminate.
  - vm_compute. reflexivity.
  - vm_compute. reflexivity.
  - split; [exact Hold | exact Hnew].
Defined.

(* ===================================================================== *)
(** * Labels (sanitize_label, extract_tag_labels, managed_label_from_cfg) *)
(* ===================================================================== *)

(** [str.lower], for text that is then compared with, or filtered down to,
    ASCII: the ASCII capitals, the Kelvin sign (which lowers to k) and the
    dotted capital I (which lowers to i and U+0307) are lowered; every other
    character lowers to non-ASCII, non-blank text and here stands for it. *)
Definition lower_cp (c : N) : str :=
  if (65 <=? c) && (c <=? 90) then [c + 32]
  else if c =? 8490 then [107]
  else if c =? 304 then [105; 775]
  else [c].
Definition lower_text (s : str) : str := flat_map lower_cp s.

(** [s.replace(a, b)] for single characters. *)
Definition replace_char (a b : N) (s : str) : str :=
  map (fun c => if c =? a then b else c) s.

(** [s.strip(ch)] *)
Definition strip_char (ch : N) (s : str) : str := rstrip_char ch (lstrip_char ch s).

(** [pattern.sub(repl, s)] for a pattern that matches no empty string: the
    text is scanned from the left; where the pattern matches, the match is
    replaced by [repl] of its groups and the scan goes on after it. *)
Fixpoint re_sub_aux (r : re) (repl : caps -> str) (fuel : nat) (s : str) : str :=
  match fuel with
  | O => s
  | S fuel' =>
      match s with
      | [] => []
      | x :: s' =>
          match re_match r s with
          | Some (rest, c) =>
              if (length rest <? length s)%nat
              then repl c ++ re_sub_aux r repl fuel' rest
              else x :: re_sub_aux r repl fuel' s'
          | None => x :: re_sub_aux r repl fuel' s'
          end
      end
  end.
Definition re_sub (r : re) (repl : caps -> str) (s : str) : str :=
  re_sub_aux r repl (length s) s.

(** The characters of a Confluence label: [a-z0-9-]. *)
Definition is_label_char (c : N) : bool :=
  ((97 <=? c) && (c <=? 122)) || ((48 <=? c) && (c <=? 57)) || (c =? 45).

(** [_LABEL_SANITIZE_RE = re.compile(r"[^a-z0-9-]+")] *)
Definition _LABEL_SANITIZE_RE : re := plus (Chr (fun c => negb (is_label_char c))).

Definition sanitize_label (raw : str) : option str :=
  let s := lower_text (strip raw) in
  match s with
  | [] => None
  | _ =>
      let s :=
        if startswith s (py "<") && endswith s (py ">")
        then strip (removelast (drop 1 s)) else s in
      let s := replace_char 32 45 (replace_char 95 45 s) in
      let s := re_sub _LABEL_SANITIZE_RE (fun _ => py "-") s in
      let s := strip_char 45 (re_sub (plus (chr 45)) (fun _ => py "-") s) in
      match s with [] => None | _ => Some s end
  end.

Example sanitize_label_tests :
  sanitize_label (py "Service") = Some (py "service")
  /\ sanitize_label (py "<domain_tag>") = Some (py "domain-tag")
  /\ sanitize_label (py "a_b c") = Some (py "a-b-c")
  /\ sanitize_label (py " --Ünïcode!!  label__ ") = Some (py "n-code-label")
  /\ sanitize_label (py "<>") = None.
Proof. repeat split; vm_compute; reflexivity. Qed.

(** [is_label s]: [s] is a label as Confluence wants it, and as
    [sanitize_label] leaves it: not empty, made of [a-z0-9-], with no hyphen
    at either end and no two hyphens in a row. *)
Definition is_label (s : str) : bool :=
  negb (str_eqb s []) && forallb is_label_char s
  && negb (startswith s (py "-")) && negb (endswith s (py "-"))
  && negb (contains (py "--") s).

Section LabelFacts.

(** The run of characters satisfying [p] at the head of [s], dropped. *)
Fixpoint skip_run (p : N -> bool) (s : str) : str :=
  match s with
  | x :: s' => if p x then skip_run p s' else s
  | [] => []
  end.

Lemma skip_run_length (p : N -> bool) (s : str) : (length (skip_run p s) <= length s)%nat.
Proof. induction s as [|x s IH]; simpl; [lia|]. destruct (p x); simpl; lia. Qed.

Lemma skip_run_head (p : N -> bool) (s : str) (x : N) :
  head (skip_run p s) = Some x -> p x = false.
Proof.
  induction s as [|y s IH]; simpl; [discriminate|].
  destruct (p y) eqn:Hy; [exact IH|]. simpl. intros Heq. injection Heq as <-. exact Hy.
Qed.

Lemma skip_run_id (p : N -> bool) (s : str) :
  match s with x :: _ => p x = false | [] => True end -> skip_run p s = s.
Proof. destruct s as [|x s]; simpl; [reflexivity|]. intros ->. reflexivity. Qed.

(** A greedy [[p]*] followed by nothing takes the whole run. *)
Lemma star_chr_greedy (p : N -> bool) (n : nat) (s : str) (c : caps) :
  (length s <= n)%nat ->
  star_loop (rmatch (Chr p)) true (fun s' c' => Some (s', c')) n s c
  = Some (skip_run p s, c).
Proof.
  revert s. induction n as [|n IH]; intros s Hn.
  - destruct s; [reflexivity | simpl in Hn; lia].
  - destruct s as [|x s]; [reflexivity|].
    cbn [star_loop rmatch skip_run]. destruct (p x) eqn:Hx; [|reflexivity].
    assert (Hlt : (length s <? length (x :: s))%nat = true)
      by (apply Nat.ltb_lt; simpl; lia).
    rewrite Hlt, IH by (simpl in Hn; lia). reflexivity.
Qed.

Lemma re_match_plus_chr (p : N -> bool) (s : str) :
  re_match (plus (Chr p)) s
  = match s with
    | x :: s' => if p x then Some (skip_run p s', []) else None
    | [] => None
    end.
Proof.
  unfold re_match, plus. destruct s as [|x s]; [reflexivity|].
  cbn [rmatch]. destruct (p x); [|reflexivity].
  apply star_chr_greedy. lia.
Qed.

(** One step of the substitution of [[p]+] by a constant. *)
Lemma re_sub_plus_chr_step (p : N -> bool) (rep : str) (fuel : nat) (x : N) (s : str) :
  re_sub_aux (plus (Chr p)) (fun _ => rep) (S fuel) (x :: s)
  = if p x then rep ++ re_sub_aux (plus (Chr p)) (fun _ => rep) fuel (skip_run p s)
    else x :: re_sub_aux (plus (Chr p)) (fun _ => rep) fuel s.
Proof.
  cbn [re_sub_aux]. rewrite re_match_plus_chr. destruct (p x); [|reflexivity].
  assert (Hlt : (length (skip_run p s) <? length (x :: s))%nat = true).
  { apply Nat.ltb_lt. pose proof (skip_run_length p s). simpl. lia. }
  rewrite Hlt. reflexivity.
Qed.

(** What is substituted away is gone; what is left was there. *)
Lemma re_sub_plus_chr_forall (p : N -> bool) (rep : str) (Q : N -> Prop) :
  Forall Q rep -> forall fuel s, (length s <= fuel)%nat ->
  Forall (fun c => p c = false -> Q c) s ->
  Forall Q (re_sub_aux (plus (Chr p)) (fun _ => rep) fuel s).
Proof.
  intros Hrep. induction fuel as [|fuel IH]; intros s Hlen Hs.
  - destruct s; [constructor | simpl in Hlen; lia].
  - destruct s as [|x s]; [constructor|].
    rewrite re_sub_plus_chr_step. inversion Hs as [|? ? Hx Hs']; subst.
    pose proof (skip_run_length p s) as Hsk. simpl in Hlen.
    destruct (p x) eqn:Hpx.
    + apply Forall_app. split; [exact Hrep|]. apply IH; [lia|].
      clear -Hs'. induction s as [|y s IHs]; simpl; [constructor|].
      inversion Hs'; subst. destruct (p y); [apply IHs; assumption | assumption].
    + constructor; [exact (Hx eq_refl) | apply IH; [lia | exact Hs']].
Qed.

(** Text without a match is left as it is. *)
Lemma re_sub_plus_chr_id (p : N -> bool) (rep : str) (fuel : nat) (s : str) :
  Forall (fun c => p c = false) s ->
  re_sub_aux (plus (Chr p)) (fun _ => rep) fuel s = s.
Proof.
  revert s. induction fuel as [|fuel IH]; intros s Hs; [reflexivity|].
  destruct s as [|x s]; [reflexivity|].
  rewrite re_sub_plus_chr_step. inversion Hs; subst.
  rewrite H1, IH by assumption. reflexivity.
Qed.

End LabelFacts.

Section StripCharFacts.

Lemma lstrip_char_suffix (ch : N) (s : str) : exists t, s = t ++ lstrip_char ch s.
Proof.
  induction s as [|x s [t IH]]; [exists []; reflexivity|]. simpl.
  destruct (x =? ch); [exists (x :: t); simpl; congruence | exists []; reflexivity].
Qed.

Lemma rstrip_char_prefix (ch : N) (s : str) : exists t, s = rstrip_char ch s ++ t.
Proof.
  unfold rstrip_char. destruct (lstrip_char_suffix ch (rev s)) as [t Ht].
  exists (rev t). rewrite <- rev_app_distr, <- Ht, rev_involutive. reflexivity.
Qed.

Lemma lstrip_char_head (ch : N) (s : str) : head (lstrip_char ch s) <> Some ch.
Proof.
  induction s as [|x s IH]; simpl; [discriminate|].
  destruct (N.eqb_spec x ch); [exact IH|]. simpl. congruence.
Qed.

Lemma lstrip_char_id (ch : N) (s : str) : head s <> Some ch -> lstrip_char ch s = s.
Proof.
  destruct s as [|x s]; simpl; [reflexivity|]. intros Hx.
  destruct (N.eqb_spec x ch); [congruence | reflexivity].
Qed.

Lemma lstrip_char_snoc (ch x : N) (s : str) :
  x <> ch -> lstrip_char ch (s ++ [x]) = lstrip_char ch s ++ [x].
Proof.
  intros Hx. induction s as [|y s IH]; simpl.
  - destruct (N.eqb_spec x ch); [contradiction | reflexivity].
  - destruct (y =? ch); [exact IH | reflexivity].
Qed.

Lemma rstrip_char_cons (ch x : N) (s : str) :
  x <> ch -> rstrip_char ch (x :: s) = x :: rstrip_char ch s.
Proof.
  intros Hx. unfold rstrip_char. simpl rev.
  rewrite lstrip_char_snoc, rev_app_distr by exact Hx. reflexivity.
Qed.

Lemma head_rev_last (s : str) : head (rev s) = last s.
Proof.
  induction s as [|x s IH] using rev_ind; [reflexivity|].
  rewrite rev_app_distr, last_snoc. reflexivity.
Qed.

Lemma rstrip_char_id (ch : N) (s : str) : last s <> Some ch -> rstrip_char ch s = s.
Proof.
  intros Hl. unfold rstrip_char. rewrite lstrip_char_id, rev_involutive; [reflexivity|].
  rewrite head_rev_last. exact Hl.
Qed.

Lemma startswith_one (s : str) (ch : N) :
  startswith s [ch] = false <-> head s <> Some ch.
Proof.
  destruct s as [|x s]; simpl; [split; [discriminate | reflexivity]|].
  replace (startswith s []) with true by (destruct s; reflexivity).
  rewrite andb_true_r. destruct (N.eqb_spec ch x); split; intros Hx; congruence.
Qed.

Lemma strip_char_ends (ch : N) (s : str) :
  startswith (strip_char ch s) [ch] = false /\ endswith (strip_char ch s) [ch] = false.
Proof.
  unfold strip_char. split.
  - apply startswith_one. pose proof (lstrip_char_head ch s) as Hh.
    destruct (lstrip_char ch s) as [|x l]; [discriminate|].
    rewrite rstrip_char_cons by (simpl in Hh; congruence). simpl. simpl in Hh. congruence.
  - unfold endswith. simpl rev. apply startswith_one.
    unfold rstrip_char. rewrite rev_involutive. apply lstrip_char_head.
Qed.

Lemma strip_char_forall (Q : N -> Prop) (ch : N) (s : str) :
  Forall Q s -> Forall Q (strip_char ch s).
Proof.
  intros Hs. unfold strip_char.
  destruct (lstrip_char_suffix ch s) as [t Ht]. rewrite Ht in Hs.
  apply Forall_app in Hs as [_ Hs].
  destruct (rstrip_char_prefix ch (lstrip_char ch s)) as [u Hu]. rewrite Hu in Hs.
  apply Forall_app in Hs as [Hs _]. exact Hs.
Qed.

Lemma startswith_app (s m p : str) : startswith s p = true -> startswith (s ++ m) p = true.
Proof.
  revert s. induction p as [|x p IH]; intros s; [destruct (s ++ m); reflexivity|].
  destruct s as [|y s]; simpl; [discriminate|].
  intros Hs. apply andb_true_iff in Hs as [-> Hs]. simpl. apply IH. exact Hs.
Qed.

Lemma contains_app_l (p s m : str) : contains p s = true -> contains p (s ++ m) = true.
Proof.
  induction s as [|y s IH].
  - simpl. rewrite orb_false_r. intros Hp. destruct p; [|discriminate Hp].
    destruct m; reflexivity.
  - change (contains p (y :: s)) with (startswith (y :: s) p || contains p s).
    change (contains p ((y :: s) ++ m))
      with (startswith ((y :: s) ++ m) p || contains p (s ++ m)).
    intros Hs. apply orb_true_iff in Hs as [Hs|Hs].
    + rewrite (startswith_app (y :: s) m p Hs). reflexivity.
    + rewrite (IH Hs). apply orb_true_r.
Qed.

Lemma contains_app_r (p t s : str) : contains p s = true -> contains p (t ++ s) = true.
Proof.
  intros Hs. induction t as [|y t IH]; [exact Hs|].
  change (contains p ((y :: t) ++ s))
    with (startswith ((y :: t) ++ s) p || contains p (t ++ s)).
  rewrite IH. apply orb_true_r.
Qed.

Lemma strip_char_contains (p : str) (ch : N) (s : str) :
  contains p s = false -> contains p (strip_char ch s) = false.
Proof.
  intros Hs. unfold strip_char.
  destruct (contains p (rstrip_char ch (lstrip_char ch s))) eqn:Hc; [|reflexivity].
  destruct (rstrip_char_prefix ch (lstrip_char ch s)) as [u Hu].
  destruct (lstrip_char_suffix ch s) as [t Ht].
  apply (contains_app_l p _ u) in Hc. rewrite <- Hu in Hc.
  apply (contains_app_r p t) in Hc. rewrite <- Ht in Hc. congruence.
Qed.

End StripCharFacts.

Section SanitizeFacts.

(** After [re.sub(r"-+", "-", s)] no two hyphens are in a row. *)
Lemma re_sub_hyphens (fuel : nat) (s : str) :
  (length s <= fuel)%nat ->
  contains [45; 45] (re_sub_aux (plus (chr 45)) (fun _ => [45]) fuel s) = false
  /\ (head (re_sub_aux (plus (chr 45)) (fun _ => [45]) fuel s) = Some 45 ->
      head s = Some 45).
Proof.
  unfold chr. revert s. induction fuel as [|fuel IH]; intros s Hlen.
  - destruct s; [split; [reflexivity | discriminate] | simpl in Hlen; lia].
  - destruct s as [|x s]; [split; [reflexivity | discriminate]|].
    rewrite re_sub_plus_chr_step. simpl in Hlen.
    pose proof (skip_run_length (N.eqb 45) s) as Hsk.
    destruct (N.eqb_spec 45 x) as [<-|Hx].
    + destruct (IH (skip_run (N.eqb 45) s)) as [Hc Hh]; [lia|].
      split; [|reflexivity].
      set (R := re_sub_aux _ _ fuel (skip_run (N.eqb 45) s)) in *.
      change ([45] ++ R) with (45 :: R). cbn [contains startswith].
      rewrite Hc, orb_false_r.
      change (startswith (45 :: R) [45; 45]) with ((45 =? 45) && startswith R [45]).
      rewrite N.eqb_refl. cbn [andb]. apply startswith_one. intros Hhd.
      apply Hh, skip_run_head in Hhd. discriminate Hhd.
    + destruct (IH s) as [Hc Hh]; [lia|].
      split; [|simpl; congruence].
      cbn [contains startswith]. rewrite Hc.
      destruct (N.eqb_spec 45 x); [contradiction | reflexivity].
Qed.

(** Text without two hyphens in a row is left as it is. *)
Lemma re_sub_hyphens_id (fuel : nat) (s : str) :
  contains [45; 45] s = false ->
  re_sub_aux (plus (chr 45)) (fun _ => [45]) fuel s = s.
Proof.
  unfold chr. revert s. induction fuel as [|fuel IH]; intros s Hs; [reflexivity|].
  destruct s as [|x s]; [reflexivity|].
  rewrite re_sub_plus_chr_step.
  change (contains [45; 45] (x :: s))
    with (startswith (x :: s) [45; 45] || contains [45; 45] s) in Hs.
  apply orb_false_iff in Hs as [Hst Hs].
  destruct (N.eqb_spec 45 x) as [<-|Hx].
  - assert (Hhd : head s <> Some 45).
    { apply startswith_one.
      change (startswith (45 :: s) [45; 45]) with ((45 =? 45) && startswith s [45]) in Hst.
      rewrite N.eqb_refl in Hst. exact Hst. }
    rewrite skip_run_id, IH; [reflexivity | exact Hs |].
    destruct s as [|y s]; [exact I|]. simpl in Hhd.
    destruct (N.eqb_spec 45 y); congruence.
  - rewrite IH by exact Hs. reflexivity.
Qed.

Lemma is_label_char_range (c : N) : is_label_char c = true -> 45 <= c <= 122.
Proof.
  unfold is_label_char.
  rewrite !orb_true_iff, !andb_true_iff, !N.leb_le, N.eqb_eq. lia.
Qed.

Lemma is_label_char_cases (c : N) :
  is_label_char c = true -> 97 <= c <= 122 \/ 48 <= c <= 57 \/ c = 45.
Proof.
  unfold is_label_char.
  rewrite !orb_true_iff, !andb_true_iff, !N.leb_le, N.eqb_eq. tauto.
Qed.

Lemma is_label_char_not_space (c : N) : is_label_char c = true -> is_space c = false.
Proof.
  intros Hc. apply is_label_char_range in Hc. unfold is_space.
  replace (c <=? 13) with false by (symmetry; apply N.leb_gt; lia).
  replace (c <=? 32) with false by (symmetry; apply N.leb_gt; lia).
  replace (8192 <=? c) with false by (symmetry; apply N.leb_gt; lia).
  repeat match goal with
         | |- context [c =? ?k] =>
             replace (c =? k) with false by (symmetry; apply N.eqb_neq; lia)
         end.
  rewrite !andb_false_r. reflexivity.
Qed.

Lemma lstrip_id (s : str) :
  match s with x :: _ => is_space x = false | [] => True end -> lstrip s = s.
Proof. destruct s as [|x s]; simpl; [reflexivity|]. intros ->. reflexivity. Qed.

Lemma strip_id (s : str) : Forall (fun c => is_space c = false) s -> strip s = s.
Proof.
  intros Hs. unfold strip, rstrip.
  rewrite (lstrip_id s) by (destruct Hs; [exact I | assumption]).
  rewrite lstrip_id, rev_involutive; [reflexivity|].
  apply Forall_rev in Hs. destruct Hs; [exact I | assumption].
Qed.

End SanitizeFacts.

Lemma sanitize_label_valid (raw s : str) :
  sanitize_label raw = Some s -> is_label s = true.
Proof.
  unfold sanitize_label. destruct (lower_text (strip raw)) as [|x0 l0]; [discriminate|].
  set (s0 := if startswith (x0 :: l0) (py "<") && endswith (x0 :: l0) (py ">")
             then strip (removelast (drop 1 (x0 :: l0))) else x0 :: l0).
  set (s1 := replace_char 32 45 (replace_char 95 45 s0)).
  unfold _LABEL_SANITIZE_RE, re_sub. py_norm.
  set (s2 := re_sub_aux _ _ (length s1) s1).
  set (s3 := re_sub_aux _ _ (length s2) s2).
  destruct (strip_char 45 s3) as [|x r] eqn:Hr; [discriminate|].
  intros Heq. injection Heq as <-. rewrite <- Hr.
  assert (H2 : Forall (fun c => is_label_char c = true) s2).
  { apply re_sub_plus_chr_forall; [repeat constructor | lia |].
    apply Forall_forall. intros c _ Hc. apply negb_false_iff in Hc. exact Hc. }
  assert (H3 : Forall (fun c => is_label_char c = true) s3).
  { apply (re_sub_plus_chr_forall (N.eqb 45)); [repeat constructor | lia |].
    eapply Forall_impl; [exact H2|]. intros c Hc _. exact Hc. }
  destruct (re_sub_hyphens (length s2) s2 (le_n _)) as [Hdd _]. fold s3 in Hdd.
  destruct (strip_char_ends 45 s3) as [Hst Hen].
  unfold is_label. py_norm.
  assert (Hnz : str_eqb (strip_char 45 s3) [] = false)
    by (apply str_eqb_neq; rewrite Hr; discriminate).
  rewrite Hst, Hen, (strip_char_contains [45; 45] 45 s3 Hdd), Hnz.
  rewrite (proj2 (List.forallb_forall is_label_char (strip_char 45 s3))).
  - reflexivity.
  - apply List.Forall_forall. apply strip_char_forall. exact H3.
Qed.

Lemma sanitize_label_keeps (s : str) :
  is_label s = true -> sanitize_label s = Some s.
Proof.
  unfold is_label. py_norm. rewrite !andb_true_iff, !negb_true_iff.
  intros ((((Hne & Hall) & Hst) & Hen) & Hdd).
  assert (Hc : Forall (fun c => is_label_char c = true) s)
    by (apply List.Forall_forall, List.forallb_forall; exact Hall).
  unfold sanitize_label. py_norm.
  rewrite (strip_id s)
    by (eapply Forall_impl; [exact Hc | exact is_label_char_not_space]).
  assert (Hlow : lower_text s = s).
  { clear -Hc. induction Hc as [|c s Hc _ IH]; [reflexivity|].
    simpl. rewrite IH. apply is_label_char_cases in Hc. unfold lower_cp.
    replace (65 <=? c) with (65 <=? c) by reflexivity.
    replace ((65 <=? c) && (c <=? 90)) with false
      by (symmetry; apply andb_false_iff; rewrite N.leb_gt, N.leb_gt; lia).
    replace (c =? 8490) with false by (symmetry; apply N.eqb_neq; lia).
    replace (c =? 304) with false by (symmetry; apply N.eqb_neq; lia). reflexivity. }
  rewrite Hlow. destruct s as [|x s'] eqn:Hs; [discriminate Hne|]. rewrite <- Hs in *.
  assert (Hx : is_label_char x = true) by (rewrite Hs in Hc; inversion Hc; assumption).
  assert (Hlt : startswith s [60] = false).
  { apply startswith_one. rewrite Hs. simpl. apply is_label_char_cases in Hx.
    intros Heq. injection Heq as ->. lia. }
  rewrite Hlt. cbn [andb].
  assert (Hrep : replace_char 32 45 (replace_char 95 45 s) = s).
  { clear -Hc. unfold replace_char. rewrite map_map.
    induction Hc as [|c s Hc _ IH]; [reflexivity|]. simpl. rewrite IH.
    apply is_label_char_cases in Hc.
    replace (c =? 95) with false by (symmetry; apply N.eqb_neq; lia).
    replace (c =? 32) with false by (symmetry; apply N.eqb_neq; lia). reflexivity. }
  rewrite Hrep. unfold _LABEL_SANITIZE_RE, re_sub.
  rewrite re_sub_plus_chr_id
    by (eapply Forall_impl; [exact Hc | intros c Hcc; rewrite Hcc; reflexivity]).
  rewrite re_sub_hyphens_id by exact Hdd.
  unfold strip_char. rewrite (lstrip_char_id 45 s) by (apply startswith_one; exact Hst).
  rewrite rstrip_char_id.
  - rewrite Hs. reflexivity.
  - rewrite <- head_rev_last. apply startswith_one. exact Hen.
Qed.

(** Whatever [sanitize_label] returns is a label: not empty, made of
    [a-z0-9-], with no hyphen at either end and no two hyphens in a row; and
    sanitizing it again gives it back ([sanitize_label] is idempotent). *)
Theorem sanitize_label_is_label (raw s : str) :
  sanitize_label raw = Some s -> is_label s = true /\ sanitize_label s = Some s.
Proof.
  intros Hs. pose proof (sanitize_label_valid raw s Hs) as Hl.
  split; [exact Hl | exact (sanitize_label_keeps s Hl)].
Qed.

(** The labels are exactly the strings [sanitize_label] returns unchanged:
    a string that is already a label is neither altered nor dropped. *)
Theorem sanitize_label_fixpoint (s : str) :
  is_label s = true -> sanitize_label s = Some s.
Proof. exact (sanitize_label_keeps s). Qed.

Lemma sanitize_label_is_label_witness :
  is_label (py "domain-tag") = true
  /\ sanitize_label (py "domain-tag") = Some (py "domain-tag").
Proof.
  apply (sanitize_label_is_label (py "<domain_tag>")). vm_compute. reflexivity.
Defined.

Lemma sanitize_label_fixpoint_witness :
  sanitize_label (py "release-2024") = Some (py "release-2024").
Proof. apply sanitize_label_fixpoint. vm_compute. reflexivity. Defined.

(** ** Tags of the front matter *)

(** [d.get(k)] on a loaded mapping, for a string key (a dict holds a key
    once). *)
Fixpoint ymap_get (k : str) (items : list (yaml * yaml)) : option yaml :=
  match items with
  | [] => None
  | (YStr k', v) :: rest => if str_eqb k k' then Some v else ymap_get k rest
  | _ :: rest => ymap_get k rest
  end.

Section TagLabels.

(** [str(v)] for a loaded sequence or mapping: the [repr] of a Python list or
    dict. *)
Variable repr : yaml -> str.

(** [str(v)] *)
Definition py_str (v : yaml) : str :=
  match v with
  | YNull => py "None"
  | YBool b => if b then py "True" else py "False"
  | YInt z => (if (z <? 0)%Z then py "-" else []) ++ str_of_N (Z.abs_N z)
  | YStr s => s
  | YSeq _ | YMap _ => repr v
  end.

Definition extract_tag_labels (front_matter : yaml) : list str :=
  match front_matter with
  | YMap items =>
      let tags := default YNull (ymap_get (py "tags") items) in
      let tags :=
        match tags with
        | YStr s =>
            YSeq (map (fun t => YStr (strip t))
                    (List.filter (fun t => negb (str_eqb (strip t) [])) (split_char 44 s)))
        | _ => tags
        end in
      let out :=
        match tags with
        | YSeq l => omap (fun t => sanitize_label (py_str t)) l
        | _ => []
        end in
      uniq [] out
  | _ => []
  end.

End TagLabels.

(** [DEFAULT_MANAGED_LABEL = "managed-docs"] *)
Definition DEFAULT_MANAGED_LABEL : str := py "managed-docs".

(** [managed_label_from_cfg], of the entry [managed_label] of [cfg.options]
    ([None] when it is missing). *)
Definition managed_label_from_cfg (managed_label : option str) : str :=
  match strip (default [] managed_label) with
  | [] => DEFAULT_MANAGED_LABEL
  | raw => default DEFAULT_MANAGED_LABEL (sanitize_label raw)
  end.

Example extract_tag_labels_test :
  extract_tag_labels (fun _ => [])
    (YMap [(YStr (py "tags"),
            YSeq [YStr (py "service"); YStr (py "api"); YStr (py "<protocol>");
                  YStr (py "<domain_tag>")])])
  = [py "service"; py "api"; py "protocol"; py "domain-tag"]
  /\ extract_tag_labels (fun _ => [])
       (YMap [(YStr (py "tags"), YStr (py "API, api , ,<x>, 42"))])
     = [py "api"; py "x"; py "42"]
  /\ managed_label_from_cfg (Some (py "team-a-docs")) = py "team-a-docs"
  /\ managed_label_from_cfg (Some (py " !! ")) = py "managed-docs".
Proof. repeat split; vm_compute; reflexivity. Qed.

Section TagLabelFacts.

Lemma uniq_sub (seen l : list str) (x : str) : x ∈ uniq seen l -> x ∈ l.
Proof.
  revert seen. induction l as [|t l IH]; intros seen; simpl; [exact id|].
  destruct (bool_decide (t ∈ seen)).
  - intros Hx. right. exact (IH _ Hx).
  - intros [->|Hx]%elem_of_cons; [left | right; exact (IH _ Hx)].
Qed.

Lemma uniq_fresh (seen l : list str) (x : str) : x ∈ uniq seen l -> x ∉ seen.
Proof.
  revert seen. induction l as [|t l IH]; intros seen; simpl.
  - intros Hx. apply elem_of_nil in Hx. contradiction.
  - destruct (bool_decide (t ∈ seen)) eqn:Ht; [apply IH|].
    apply bool_decide_eq_false in Ht.
    intros [->|Hx]%elem_of_cons; [exact Ht|].
    apply IH in Hx. intros Hin. apply Hx. right. exact Hin.
Qed.

Lemma uniq_NoDup (seen l : list str) : NoDup (uniq seen l).
Proof.
  revert seen. induction l as [|t l IH]; intros seen; simpl; [constructor|].
  destruct (bool_decide (t ∈ seen)); [apply IH|].
  constructor; [|apply IH].
  intros Hin. apply uniq_fresh in Hin. apply Hin. left.
Qed.

End TagLabelFacts.

(** The page labels taken from the front matter are labels, each listed
    once; front matter that is not a mapping, or has no tags, gives none. *)
Theorem extract_tag_labels_labels (repr : yaml -> str) (front_matter : yaml) :
  NoDup (extract_tag_labels repr front_matter)
  /\ Forall (fun l => is_label l = true) (extract_tag_labels repr front_matter)
  /\ (match front_matter with
      | YMap items => ymap_get (py "tags") items = None
      | _ => True
      end -> extract_tag_labels repr front_matter = []).
Proof.
  split; [|split].
  - destruct front_matter; try constructor. apply uniq_NoDup.
  - destruct front_matter as [| | | | |items]; try constructor.
    apply Forall_forall. intros l Hl. apply uniq_sub in Hl.
    destruct (default YNull (ymap_get (py "tags") items)) as [| | |s|l0|its];
      cbv beta iota zeta in Hl; try (apply elem_of_nil in Hl; contradiction).
    all: apply list_elem_of_omap in Hl; destruct Hl as (t & _ & Hs).
    all: exact (sanitize_label_valid _ _ Hs).
  - destruct front_matter as [| | | | |items]; try reflexivity.
    intros Hn. unfold extract_tag_labels. rewrite Hn. reflexivity.
Qed.

(** The managed label is always a label: the configured one sanitized, or
    the default when none is left. *)
Theorem managed_label_is_label (managed_label : option str) :
  is_label (managed_label_from_cfg managed_label) = true.
Proof.
  unfold managed_label_from_cfg.
  destruct (strip (default [] managed_label)) as [|x raw]; [vm_compute; reflexivity|].
  destruct (sanitize_label (x :: raw)) as [s|] eqn:Hs; [|vm_compute; reflexivity].
  exact (sanitize_label_valid _ _ Hs).
Qed.

Section LegacyLabelFacts.

Lemma hex_digit_label_char (c : N) : is_hex_digit c = true -> is_label_char c = true.
Proof.
  unfold is_hex_digit, is_label_char.
  rewrite !orb_true_iff, !andb_true_iff, !N.leb_le, N.eqb_eq. lia.
Qed.

Lemma contains_hyphens_none (s : str) :
  Forall (fun c => c <> 45) s -> contains [45; 45] s = false.
Proof.
  induction 1 as [|x s Hx _ IH]; [reflexivity|].
  change (contains [45; 45] (x :: s))
    with ((45 =? x) && startswith s [45] || contains [45; 45] s).
  rewrite IH. destruct (N.eqb_spec 45 x); [congruence | reflexivity].
Qed.

Lemma last_cons_some {A} (x : A) (l : list A) (y : A) :
  last l = Some y -> last (x :: l) = Some y.
Proof. destruct l; [discriminate|]. exact id. Qed.

End LegacyLabelFacts.

(** [LEGACY_SRC_LABEL_PREFIX = "src-"] *)
Definition LEGACY_SRC_LABEL_PREFIX : str := py "src-".


(* ===================================================================== *)
(** * Paths (_norm_posix) *)
(* ===================================================================== *)

Example norm_posix_tests :
  _norm_posix (py "docs\\\\a\\\\b\\\\file.md") = py "docs/a/b/file.md"
  /\ _norm_posix (py "./docs/a/../b/file.md") = py "docs/b/file.md"
  /\ _norm_posix [] = py "."
  /\ _norm_posix (py "../../x/./y//") = py "../../x/y"
  /\ _norm_posix (py "//a/../../b") = py "//b"
  /\ _norm_posix (py "///a") = py "/a".
Proof. repeat split; vm_compute; reflexivity. Qed.

Section PathFacts.

(** A component of a normalized path: not empty, not ".", without a slash. *)
Definition comp_ok (c : str) : Prop := c <> [] /\ c <> [46] /\ 47 ∉ c.

(** ".." stands only at the head of a relative path, after other "..". *)
Definition dotdot_ok (k : nat) (comps : list str) : Prop :=
  forall a b, comps = a ++ [46; 46] :: b -> k = 0%nat /\ Forall (fun c => c = [46; 46]) a.

Definition comps_ok (k : nat) (comps : list str) : Prop :=
  Forall comp_ok comps /\ dotdot_ok k comps.

Lemma split_char_cons (ch : N) (s : str) : exists c rest, split_char ch s = c :: rest.
Proof.
  induction s as [|x s (c & rest & IH)]; [eexists _, _; reflexivity|].
  simpl. rewrite IH. destruct (x =? ch); eexists _, _; reflexivity.
Qed.

Lemma split_char_sep (ch : N) (s : str) : split_char ch (ch :: s) = [] :: split_char ch s.
Proof.
  simpl. destruct (split_char_cons ch s) as (c & rest & ->).
  rewrite N.eqb_refl. reflexivity.
Qed.

Lemma split_char_none (ch : N) (s : str) : ch ∉ s -> split_char ch s = [s].
Proof.
  induction s as [|x s IH]; [reflexivity|]. intros Hs.
  apply not_elem_of_cons in Hs as [Hx Hs]. simpl. rewrite (IH Hs).
  destruct (N.eqb_spec x ch); [congruence | reflexivity].
Qed.

Lemma split_char_app (ch : N) (p t : str) :
  ch ∉ p -> split_char ch (p ++ ch :: t) = p :: split_char ch t.
Proof.
  induction p as [|x p IH]; intros Hp; [apply split_char_sep|].
  apply not_elem_of_cons in Hp as [Hx Hp]. simpl. rewrite (IH Hp).
  destruct (N.eqb_spec x ch); [congruence | reflexivity].
Qed.

(** Splitting what was joined gives the components back. *)
Lemma split_join (comps : list str) :
  comps <> [] -> Forall (fun c => 47 ∉ c) comps ->
  split_char 47 (join [47] comps) = comps.
Proof.
  induction comps as [|p comps IH]; [congruence|]. intros _ Hall.
  inversion Hall as [|? ? Hp Hrest]; subst.
  destruct comps as [|q comps]; [apply split_char_none; exact Hp|].
  change (join [47] (p :: q :: comps)) with (p ++ 47 :: join [47] (q :: comps)).
  rewrite split_char_app by exact Hp. rewrite IH by (congruence || assumption).
  reflexivity.
Qed.

(** The components of a split have no separator. *)
Lemma split_char_no_sep (ch : N) (s : str) : Forall (fun c => ch ∉ c) (split_char ch s).
Proof.
  induction s as [|x s IH]; [repeat constructor; apply not_elem_of_nil|].
  simpl. destruct (split_char_cons ch s) as (c & rest & Heq). rewrite Heq in *.
  inversion IH; subst. destruct (N.eqb_spec x ch).
  - constructor; [apply not_elem_of_nil | constructor; assumption].
  - constructor; [|assumption]. apply not_elem_of_cons. split; [congruence | assumption].
Qed.

Lemma split_char_chars (Q : N -> Prop) (ch : N) (s : str) :
  Forall Q s -> Forall (Forall Q) (split_char ch s).
Proof.
  induction 1 as [|x s Hx _ IH]; [repeat constructor|].
  simpl. destruct (split_char ch s) as [|c rest]; [repeat constructor; exact Hx|].
  inversion IH; subst. destruct (x =? ch); repeat constructor; assumption.
Qed.

Lemma dotdot_ok_prefix (k : nat) (l m : list str) : dotdot_ok k (l ++ m) -> dotdot_ok k l.
Proof.
  intros Hd a b ->. apply (Hd a (b ++ m)). rewrite <- app_assoc. reflexivity.
Qed.

Lemma removelast_prefix {A} (l : list A) : exists m, l = removelast l ++ m.
Proof.
  destruct l as [|x l] using rev_ind; [exists []; reflexivity|].
  rewrite removelast_last. eexists. reflexivity.
Qed.

(** One step of [normpath] keeps the components normalized. *)
Lemma normpath_step_ok (k : nat) (acc : list str) (comp : str) :
  47 ∉ comp -> comps_ok k acc -> comps_ok k (normpath_step k acc comp).
Proof.
  intros Hsl [Hall Hdd]. unfold normpath_step. py_norm.
  destruct (str_eqb comp []) eqn:He; [split; assumption|].
  destruct (str_eqb comp [46]) eqn:Hd; [split; assumption|].
  apply str_eqb_neq in He, Hd. cbn [orb].
  destruct (str_eqb comp [46; 46]) eqn:Hdd2; cbn [negb orb].
  - apply str_eqb_eq in Hdd2. subst comp.
    destruct (((k =? 0)%nat && (length acc =? 0)%nat)
              || match last acc with Some l => str_eqb l [46; 46] | None => false end)
      eqn:Hc.
    + assert (Hk : k = 0%nat /\ Forall (fun c => c = [46; 46]) acc).
      { apply orb_true_iff in Hc as [Hc|Hc].
        - apply andb_true_iff in Hc as [Hk Hl]. apply Nat.eqb_eq in Hk, Hl.
          destruct acc; [split; [exact Hk | constructor] | discriminate Hl].
        - destruct (last acc) as [l|] eqn:Hl; [|discriminate Hc].
          apply str_eqb_eq in Hc. subst l. apply last_Some in Hl as [a ->].
          destruct (Hdd a [] eq_refl) as [Hk Ha]. split; [exact Hk|].
          apply Forall_app. split; [exact Ha | repeat constructor]. }
      destruct Hk as [Hk Hacc]. split.
      * apply Forall_app. split; [exact Hall|]. repeat constructor; congruence.
      * intros a b Heq. split; [exact Hk|].
        assert (Hall2 : Forall (fun c => c = [46; 46]) (acc ++ [[46; 46]]))
          by (apply Forall_app; split; [exact Hacc | repeat constructor]).
        rewrite Heq in Hall2. apply Forall_app in Hall2 as [Ha _]. exact Ha.
    + destruct (removelast_prefix acc) as [m Hm]. split.
      * rewrite Hm in Hall. apply Forall_app in Hall as [Hall _]. exact Hall.
      * rewrite Hm in Hdd. exact (dotdot_ok_prefix _ _ _ Hdd).
  - apply str_eqb_neq in Hdd2. split.
    + apply Forall_app. split; [exact Hall|]. repeat constructor; assumption.
    + intros a b Heq. destruct b as [|b0 b] using rev_ind.
      * apply app_inj_tail in Heq as [_ Heq]. congruence.
      * clear IHb. rewrite app_comm_cons, app_assoc in Heq.
        apply app_inj_tail in Heq as [Heq _]. exact (Hdd a b Heq).
Qed.

Lemma normpath_fold_ok (k : nat) (cs acc : list str) :
  Forall (fun c => 47 ∉ c) cs -> comps_ok k acc ->
  comps_ok k (fold_left (normpath_step k) cs acc).
Proof.
  revert acc. induction cs as [|c cs IH]; intros acc Hcs Hacc; [exact Hacc|].
  inversion Hcs; subst. simpl. apply IH; [assumption|].
  apply normpath_step_ok; assumption.
Qed.

(** Normalized components go through [normpath] unchanged. *)
Lemma normpath_fold_id (k : nat) (cs acc : list str) :
  comps_ok k (acc ++ cs) -> fold_left (normpath_step k) cs acc = acc ++ cs.
Proof.
  revert acc. induction cs as [|c cs IH]; intros acc Hok; [rewrite app_nil_r; reflexivity|].
  simpl. assert (Hstep : normpath_step k acc c = acc ++ [c]).
  { destruct Hok as [Hall Hdd]. apply Forall_app in Hall as [_ Hall].
    inversion Hall as [|? ? (He & Hd & _) _]; subst.
    unfold normpath_step. py_norm.
    rewrite (proj2 (str_eqb_neq c []) He), (proj2 (str_eqb_neq c [46]) Hd). cbn [orb].
    destruct (str_eqb c [46; 46]) eqn:Hdd2; [|reflexivity]. cbn [negb orb].
    apply str_eqb_eq in Hdd2. subst c.
    destruct (Hdd acc cs eq_refl) as [-> Hacc].
    destruct acc as [|a0 acc'] using rev_ind; [reflexivity|].
    apply Forall_app in Hacc as [_ Ha0]. inversion Ha0; subst.
    rewrite last_snoc, str_eqb_refl, orb_true_r. reflexivity. }
  rewrite Hstep, IH by (rewrite <- app_assoc; exact Hok).
  rewrite <- app_assoc. reflexivity.
Qed.

End PathFacts.

Section NormpathFacts.

(** The text [normpath] builds from the number of leading slashes and the
    components. *)
Definition path_of (k : nat) (comps : list str) : str :=
  match repeat 47 k ++ join [47] comps with
  | [] => [46]
  | _ => repeat 47 k ++ join [47] comps
  end.

Lemma join_head (c0 : str) (cs : list str) :
  comp_ok c0 -> exists x t, join [47] (c0 :: cs) = x :: t /\ x <> 47.
Proof.
  intros (Hne & _ & Hsl). destruct c0 as [|x c0]; [congruence|].
  apply not_elem_of_cons in Hsl as [Hx _].
  destruct cs; simpl; eexists _, _; (split; [reflexivity | congruence]).
Qed.

Lemma comps_ok_nil (k : nat) : comps_ok k [].
Proof.
  split; [constructor|]. intros a b Heq. destruct a; discriminate Heq.
Qed.

Lemma normpath_shape (path : str) :
  exists k comps,
    (k <= 2)%nat /\ comps_ok k comps /\ normpath path = path_of k comps
    /\ forall Q : N -> Prop, Q 46 -> Q 47 -> Forall Q path -> Forall (Forall Q) comps.
Proof.
  unfold normpath. py_norm. destruct path as [|x path].
  { exists 0%nat, []. split; [lia|]. split; [apply comps_ok_nil|].
    split; [reflexivity | constructor]. }
  set (k := if startswith (x :: path) [47]
            then if startswith (x :: path) [47; 47] && negb (startswith (x :: path) [47; 47; 47])
                 then 2%nat else 1%nat
            else 0%nat).
  exists k, (fold_left (normpath_step k) (split_char 47 (x :: path)) []).
  split; [unfold k; repeat destruct (_ : bool); simpl; lia|].
  split; [apply normpath_fold_ok; [apply split_char_no_sep | apply comps_ok_nil]|].
  split; [reflexivity|].
  intros Q _ _ HQ. apply (split_char_chars Q 47) in HQ.
  assert (Hgen : forall cs acc, Forall (Forall Q) cs -> Forall (Forall Q) acc ->
                   Forall (Forall Q) (fold_left (normpath_step k) cs acc)).
  { induction cs as [|c cs IH]; intros acc Hcs Hacc; [exact Hacc|].
    inversion Hcs; subst. simpl. apply IH; [assumption|].
    unfold normpath_step.
    destruct (_ || _); [exact Hacc|].
    destruct (_ || _).
    - apply Forall_app. split; [exact Hacc | repeat constructor; assumption].
    - destruct (removelast_prefix acc) as [m Hm]. rewrite Hm in Hacc.
      apply Forall_app in Hacc as [Hacc _]. exact Hacc. }
  apply Hgen; [exact HQ | constructor].
Qed.

Lemma join_chars (Q : N -> Prop) (comps : list str) :
  Q 47 -> Forall (Forall Q) comps -> Forall Q (join [47] comps).
Proof.
  intros Hs. induction 1 as [|c comps Hc Hcs IH]; [constructor|].
  destruct comps as [|d comps]; [exact Hc|].
  change (join [47] (c :: d :: comps)) with (c ++ 47 :: join [47] (d :: comps)).
  apply Forall_app. split; [exact Hc | constructor; assumption].
Qed.

Lemma path_of_chars (Q : N -> Prop) (k : nat) (comps : list str) :
  Q 46 -> Q 47 -> Forall (Forall Q) comps -> Forall Q (path_of k comps).
Proof.
  intros Hd Hs Hc. unfold path_of.
  assert (Hp : Forall Q (repeat 47 k ++ join [47] comps)).
  { apply Forall_app. split; [|apply join_chars; assumption].
    clear -Hs. induction k; simpl; constructor; assumption. }
  destruct (repeat 47 k ++ join [47] comps); [repeat constructor; exact Hd | exact Hp].
Qed.

Lemma fold_skip_empty (k : nat) (cs : list str) :
  fold_left (normpath_step k) ([] :: cs) [] = fold_left (normpath_step k) cs [].
Proof. reflexivity. Qed.

(** A normalized path is a fixed point of [normpath]. *)
Lemma normpath_path_of (k : nat) (comps : list str) :
  (k <= 2)%nat -> comps_ok k comps -> normpath (path_of k comps) = path_of k comps.
Proof.
  intros Hk Hok. pose proof Hok as [Hall Hdd].
  assert (Hsl : Forall (fun c => 47 ∉ c) comps).
  { eapply Forall_impl; [exact Hall|]. intros c (_ & _ & Hc). exact Hc. }
  assert (Hfold : fold_left (normpath_step k) comps [] = comps)
    by (apply (normpath_fold_id k comps []); exact Hok).
  destruct comps as [|c0 cs].
  - destruct k as [|[|[|k]]]; [vm_compute; reflexivity..|lia].
  - inversion Hall as [|? ? Hc0 _]; subst.
    destruct (join_head c0 cs Hc0) as (x & t & Hj & Hx).
    assert (Hsplit : split_char 47 (x :: t) = c0 :: cs)
      by (rewrite <- Hj; apply split_join; [discriminate | exact Hsl]).
    unfold path_of. rewrite Hj.
    destruct k as [|[|[|k]]]; [| | |lia]; cbn [repeat app]; unfold normpath; py_norm.
    + replace (startswith (x :: t) [47]) with false
        by (symmetry; apply startswith_one; simpl; congruence).
      rewrite Hsplit, Hfold, Hj. reflexivity.
    + replace (startswith (47 :: x :: t) [47]) with true by reflexivity.
      replace (startswith (47 :: x :: t) [47; 47]) with false.
      2: { symmetry. change (startswith (47 :: x :: t) [47; 47])
             with ((47 =? 47) && startswith (x :: t) [47]).
           rewrite N.eqb_refl. apply startswith_one. simpl. congruence. }
      cbn [andb]. rewrite split_char_sep, fold_skip_empty, Hsplit, Hfold, Hj. reflexivity.
    + replace (startswith (47 :: 47 :: x :: t) [47]) with true by reflexivity.
      replace (startswith (47 :: 47 :: x :: t) [47; 47]) with true by reflexivity.
      replace (startswith (47 :: 47 :: x :: t) [47; 47; 47]) with false.
      2: { symmetry. change (startswith (47 :: 47 :: x :: t) [47; 47; 47])
             with ((47 =? 47) && ((47 =? 47) && startswith (x :: t) [47])).
           rewrite N.eqb_refl. apply startswith_one. simpl. congruence. }
      cbn [andb negb].
      rewrite !split_char_sep, !fold_skip_empty, Hsplit, Hfold, Hj. reflexivity.
Qed.

(** A normalized path does not begin with "./". *)
Lemma path_of_no_dot_slash (k : nat) (comps : list str) :
  comps_ok k comps -> startswith (path_of k comps) [46; 47] = false.
Proof.
  intros [Hall _]. unfold path_of. destruct k as [|k]; [|reflexivity].
  destruct comps as [|c0 cs]; [reflexivity|]. cbn [repeat app].
  inversion Hall as [|? ? (Hne & Hd & Hsl) _]; subst.
  destruct c0 as [|x c0]; [congruence|].
  assert (Hj : exists t, join [47] ((x :: c0) :: cs) = x :: t
                 /\ (c0 = [] \/ exists y t', c0 = y :: t' /\ t = y :: t' ++
                       match cs with [] => [] | _ => 47 :: join [47] cs end)).
  { destruct cs; simpl.
    - exists c0. split; [reflexivity|]. destruct c0; [left; reflexivity|].
      right. eexists _, _. rewrite app_nil_r. split; reflexivity.
    - eexists. split; [reflexivity|]. destruct c0; [left; reflexivity|].
      right. eexists _, _. split; reflexivity. }
  destruct Hj as (t & -> & Ht).
  change (startswith (x :: t) [46; 47]) with ((46 =? x) && startswith t [47]).
  destruct (N.eqb_spec 46 x) as [<-|]; [|reflexivity]. cbn [andb].
  destruct Ht as [->|(y & t' & -> & ->)]; [congruence|].
  apply startswith_one. simpl. intros Heq. injection Heq as ->.
  apply Hsl. right. left.
Qed.

End NormpathFacts.

Lemma norm_posix_canonical (p : str) :
  _norm_posix (_norm_posix p) = _norm_posix p
  /\ _norm_posix p = normpath (map (fun c => if c =? 92 then 47 else c) p)
  /\ _norm_posix p <> []
  /\ (92 ∉ _norm_posix p)
  /\ startswith (_norm_posix p) (py "./") = false.
Proof.
  set (f := fun c : N => if c =? 92 then 47 else c).
  destruct (normpath_shape (map f p)) as (k & comps & Hk & Hok & Hn & Hch).
  assert (Hdead : forall q, _norm_posix q = normpath (map f q)).
  { intros q. unfold _norm_posix. fold f. py_norm.
    destruct (normpath_shape (map f q)) as (k' & comps' & _ & Hok' & -> & _).
    rewrite path_of_no_dot_slash by exact Hok'. reflexivity. }
  assert (Hno : Forall (fun c => c <> 92) (_norm_posix p)).
  { rewrite Hdead, Hn. apply path_of_chars; [discriminate..|].
    apply Hch; [discriminate..|].
    apply Forall_forall. intros c Hc. apply list_elem_of_fmap in Hc as (c' & -> & _).
    unfold f. destruct (N.eqb_spec c' 92); [discriminate | assumption]. }
  assert (Hid : map f (_norm_posix p) = _norm_posix p).
  { clear -Hno. induction Hno as [|c s Hc _ IH]; [reflexivity|].
    simpl. rewrite IH. unfold f. destruct (N.eqb_spec c 92); [contradiction | reflexivity]. }
  split.
  { rewrite (Hdead (_norm_posix p)), Hid, Hdead, Hn. apply normpath_path_of; assumption. }
  split; [apply Hdead|].
  split.
  { rewrite Hdead, Hn. unfold path_of. destruct (repeat 47 k ++ join [47] comps); discriminate. }
  split.
  { intros Hin. rewrite Forall_forall in Hno. exact (Hno 92 Hin eq_refl). }
  rewrite Hdead, Hn. py_norm. apply path_of_no_dot_slash. exact Hok.
Qed.

(** [_norm_posix] gives a canonical path: normalizing twice changes nothing;
    the result is never empty, holds no backslash and does not begin with
    "./" (so the last step of the function never applies). *)
Theorem norm_posix_idempotent (p : str) :
  _norm_posix (_norm_posix p) = _norm_posix p
  /\ _norm_posix p = normpath (map (fun c => if c =? 92 then 47 else c) p)
  /\ _norm_posix p <> []
  /\ (92 ∉ _norm_posix p)
  /\ startswith (_norm_posix p) (py "./") = false.
Proof. exact (norm_posix_canonical p). Qed.

(* ===================================================================== *)
(** * The client: paging through search results (Confluence.cql_iter) *)
(* ===================================================================== *)

Section CqlIter.

Context {S A : Type}.

(** One request of the loop: GET rest/api/content/search with [limit] and
    [start] on the server in state [S]; the answer is the list
    [data.get("results", []) or []], or the [HTTPError] of
    [raise_for_status]. *)
Variable search : nat -> nat -> S -> S * Res (list A).

(** [list(conf.cql_iter(cql, limit=limit))], from [start] on: the pages are
    requested until one comes back short. The loop is a [while True]; [None]
    is a loop still running after [fuel] requests. *)
Fixpoint cql_iter (fuel : nat) (limit start : nat) (s : S) : option (S * Res (list A)) :=
  match fuel with
  | O => None
  | Datatypes.S fuel' =>
      let '(s1, r) := search limit start s in
      match r with
      | Raise e => Some (s1, Raise e)
      | Ok results =>
          if (length results <? limit)%nat then Some (s1, Ok results)
          else
            match cql_iter fuel' limit (start + limit) s1 with
            | Some (s2, Ok more) => Some (s2, Ok (results ++ more))
            | other => other
            end
      end
  end.

(** A server that answers a search with the slice asked for of the list
    [all] of its matches. *)
Definition serves (all : list A) : Prop :=
  forall limit start s, search limit start s = (s, Ok (take limit (drop start all))).

Lemma cql_iter_drop (all : list A) (limit : nat) :
  serves all -> (0 < limit)%nat ->
  forall fuel start s,
    (length all - start < fuel * limit)%nat ->
    cql_iter fuel limit start s = Some (s, Ok (drop start all)).
Proof.
  intros Hsrv Hlim. induction fuel as [|fuel IH]; intros start s Hfuel; [simpl in Hfuel; lia|].
  cbn [cql_iter]. rewrite Hsrv.
  destruct (Nat.ltb_spec (length (take limit (drop start all))) limit) as [Hshort|Hfull].
  - rewrite take_ge; [reflexivity|].
    rewrite length_take in Hshort. lia.
  - rewrite length_take, length_drop in Hfull.
    rewrite IH by (simpl in Hfuel; lia).
    rewrite <- (take_drop limit (drop start all)) at 2.
    rewrite drop_drop. reflexivity.
Qed.

End CqlIter.

(** Paging loses and repeats nothing: against a server that serves the
    slices of its list of matches, with a positive page size, the loop ends
    and returns exactly that list, also when its length is a multiple of
    the page size; it makes one request more than there are full pages. *)
Theorem cql_iter_complete {S A : Type} (search : nat -> nat -> S -> S * Res (list A))
    (all : list A) (limit : nat) (s : S) :
  serves search all -> (0 < limit)%nat ->
  cql_iter search (length all / limit + 1) limit 0 s = Some (s, Ok all)
  /\ cql_iter search (length all / limit) limit 0 s = None.
Proof.
  intros Hsrv Hlim. split.
  - rewrite (cql_iter_drop search all limit Hsrv Hlim); [reflexivity|].
    rewrite Nat.sub_0_r. pose proof (Nat.div_mod_eq (length all) limit) as Hdm.
    pose proof (Nat.mod_upper_bound (length all) limit ltac:(lia)). nia.
  - assert (Hgen : forall fuel start,
              (fuel * limit <= length all - start)%nat ->
              cql_iter search fuel limit start s = None).
    { induction fuel as [|fuel IH]; intros start Hfuel; [reflexivity|].
      cbn [cql_iter]. rewrite Hsrv.
      destruct (Nat.ltb_spec (length (take limit (drop start all))) limit) as [Hshort|Hfull].
      - rewrite length_take, length_drop in Hshort. simpl in Hfuel. lia.
      - rewrite IH by (simpl in Hfuel; lia). reflexivity. }
    apply Hgen. rewrite Nat.sub_0_r.
    pose proof (Nat.div_mod_eq (length all) limit). nia.
Qed.

(** Witness: five matches, pages of two. *)
Lemma cql_iter_complete_witness :
  cql_iter (fun limit start (s : unit) => (s, Ok (take limit (drop start [1; 2; 3; 4; 5]))))
    3 2 0 tt
  = Some (tt, Ok [1; 2; 3; 4; 5]).
Proof.
  refine (proj1 (cql_iter_complete
                   (fun limit start (s : unit) => (s, Ok (take limit (drop start [1; 2; 3; 4; 5]))))
                   [1; 2; 3; 4; 5] 2 tt _ _)).
  - intros limit start s. reflexivity.
  - lia.
Defined.

(* ===================================================================== *)
(** * Post-processing of the parsed fragment *)
(* ===================================================================== *)

(** [soup.find_all(name)], as the attribute dicts of the tags of that name in
    document order. *)
Fixpoint elems_named (name : str) (n : node) : list (list (str * str)) :=
  match n with
  | Text _ => []
  | Elem nm attrs children =>
      (if str_eqb nm name then [attrs] else []) ++ flat_map (elems_named name) children
  end.
Definition find_all (name : str) (soup : list node) : list (list (str * str)) :=
  flat_map (elems_named name) soup.

(** ** Images (_convert_images, _resolve_image) *)

(** [ImageResolver = Callable[[str, Optional[str]], tuple[str, str]]] *)
Definition ImageResolver : Type := str -> option str -> str * str.

(** [os.path.basename]: what follows the last slash. *)
Definition basename (p : str) : str := default [] (last (split_char 47 p)).

Section Images.

Variable image_resolver : option ImageResolver.
Variable current_path : option str.

Definition _resolve_image (src : str) : str * str :=
  match image_resolver with
  | Some f => f src current_path
  | None =>
      if startswith src (py "http://") || startswith src (py "https://")
      then (py "url", src)
      else (py "attachment", src)
  end.

(** The body of the loop of [_convert_images] for one [img]: the nodes that
    take its place (none when it is removed) and the file names added to
    [attachments]. *)
Definition convert_img (attrs : list (str * str)) : list node * list str :=
  let src := strip (default [] (attr_get (py "src") attrs)) in
  let alt := strip (default [] (attr_get (py "alt") attrs)) in
  match src with
  | [] => ([], [])
  | _ =>
      let '(kind, value) := _resolve_image src in
      let ac_attrs := match alt with [] => [] | _ => [(py "ac:alt", alt)] end in
      if str_eqb kind (py "attachment") then
        let filename := basename value in
        ([Elem (py "ac:image") ac_attrs
            [Elem (py "ri:attachment") [(py "ri:filename", filename)] []]],
         [filename])
      else
        ([Elem (py "ac:image") ac_attrs [Elem (py "ri:url") [(py "ri:value", value)] []]],
         [])
  end.

(** [for img in list(soup.find_all("img")): ...] over the whole tree. An
    [img] is a void element for html.parser: it has no children. *)
Fixpoint convert_images_node (n : node) : list node * list str :=
  match n with
  | Text s => ([Text s], [])
  | Elem name attrs children =>
      if str_eqb name (py "img") then convert_img attrs
      else
        let rs := map convert_images_node children in
        ([Elem name attrs (flat_map fst rs)], flat_map snd rs)
  end.

Definition _convert_images (soup : list node) (attachments : gset str)
    : list node * gset str :=
  let rs := map convert_images_node soup in
  (flat_map fst rs, attachments ∪ list_to_set (flat_map snd rs)).

End Images.

(** ** Task lists (_tasklist_inputs_to_unicode) *)

Definition tasklist_mark (attrs : list (str * str)) : option str :=
  if str_eqb (lower_text (default [] (attr_get (py "type") attrs))) (py "checkbox")
  then Some (match attr_get (py "checked") attrs with
             | Some _ => py "☑ "
             | None => py "☐ "
             end)
  else None.

Fixpoint tasklist_node (n : node) : node :=
  match n with
  | Text s => Text s
  | Elem name attrs children =>
      match (if str_eqb name (py "input") then tasklist_mark attrs else None) with
      | Some mark => Text mark
      | None => Elem name attrs (map tasklist_node children)
      end
  end.

Definition _tasklist_inputs_to_unicode (soup : list node) : list node :=
  map tasklist_node soup.

(** Fragments of the kind the tests
    test_converter_images_attachment_and_url and
    test_converter_tasklists_become_unicode_not_inputs feed to the two
    passes; the type of the second checkbox is capitalized, the code
    compares it in lower case. *)
Example convert_images_test :
  _convert_images None (Some (py "docs/domain/section/file.md"))
    [Elem (py "p") [] [Elem (py "img") [(py "src", py "images/pic.png"); (py "alt", py "rel")] []];
     Text (py "\n");
     Elem (py "p") []
       [Elem (py "img") [(py "src", py "https://example.com/a.png"); (py "alt", py "abs")] []]]
    ∅
  = ([Elem (py "p") []
        [Elem (py "ac:image") [(py "ac:alt", py "rel")]
           [Elem (py "ri:attachment") [(py "ri:filename", py "pic.png")] []]];
      Text (py "\n");
      Elem (py "p") []
        [Elem (py "ac:image") [(py "ac:alt", py "abs")]
           [Elem (py "ri:url") [(py "ri:value", py "https://example.com/a.png")] []]]],
     {[ py "pic.png" ]}).
Proof. vm_compute. reflexivity. Qed.

Example tasklist_test :
  _tasklist_inputs_to_unicode
    [Elem (py "li") []
       [Elem (py "input") [(py "type", py "checkbox"); (py "checked", [])] [];
        Text (py " done")];
     Elem (py "li") [] [Elem (py "input") [(py "type", py "Checkbox")] []; Text (py " todo")]]
  = [Elem (py "li") [] [Text (py "☑ "); Text (py " done")];
     Elem (py "li") [] [Text (py "☐ "); Text (py " todo")]].
Proof. vm_compute. reflexivity. Qed.

Section SoupFacts.

Lemma basename_no_slash (p : str) : 47 ∉ basename p.
Proof.
  unfold basename. destruct (last (split_char 47 p)) as [c|] eqn:Hl; [|apply not_elem_of_nil].
  simpl. apply last_Some in Hl as [l' Hl].
  pose proof (split_char_no_sep 47 p) as Hall. rewrite Hl in Hall.
  apply Forall_app in Hall as [_ Hall]. inversion Hall. assumption.
Qed.

Lemma flat_map_nil {A B} (f : A -> list B) (l : list A) :
  Forall (fun x => f x = []) l -> flat_map f l = [].
Proof. induction 1 as [|x l Hx _ IH]; [reflexivity|]. simpl. rewrite Hx, IH. reflexivity. Qed.

Variable image_resolver : option ImageResolver.
Variable current_path : option str.

Lemma convert_img_spec (attrs : list (str * str)) :
  flat_map (elems_named (py "img")) (fst (convert_img image_resolver current_path attrs)) = []
  /\ Forall (fun f => 47 ∉ f) (snd (convert_img image_resolver current_path attrs)).
Proof.
  unfold convert_img.
  destruct (strip (default [] (attr_get (py "src") attrs))) as [|x src];
    [split; [reflexivity | constructor]|].
  destruct (_resolve_image image_resolver current_path (x :: src)) as [kind value].
  assert (H1 : str_eqb (py "ac:image") (py "img") = false) by (vm_compute; reflexivity).
  assert (H2 : str_eqb (py "ri:attachment") (py "img") = false) by (vm_compute; reflexivity).
  assert (H3 : str_eqb (py "ri:url") (py "img") = false) by (vm_compute; reflexivity).
  destruct (str_eqb kind (py "attachment")); cbn [fst snd flat_map elems_named app];
    rewrite H1, ?H2, ?H3; (split; [reflexivity|]).
  - repeat constructor. apply basename_no_slash.
  - constructor.
Qed.

Lemma convert_images_node_spec (n : node) :
  flat_map (elems_named (py "img")) (fst (convert_images_node image_resolver current_path n))
  = []
  /\ Forall (fun f => 47 ∉ f) (snd (convert_images_node image_resolver current_path n)).
Proof.
  induction n as [s|name attrs children IH] using node_rect';
    [split; [reflexivity | constructor]|].
  cbn [convert_images_node]. destruct (str_eqb name (py "img")) eqn:Hn;
    [apply convert_img_spec|].
  cbn [fst snd flat_map elems_named]. rewrite Hn, app_nil_r. cbn [app].
  induction IH as [|c children [Hc1 Hc2] _ [IH1 IH2]]; [split; [reflexivity | constructor]|].
  cbn [map flat_map]. split.
  - rewrite flat_map_app, Hc1, IH1. reflexivity.
  - apply Forall_app. split; assumption.
Qed.

End SoupFacts.

(** After [_convert_images] no [img] is left in the fragment, whatever the
    image resolver; the attachments recorded before are kept, and every name
    added is a bare file name, without a directory. *)
Theorem convert_images_no_img (image_resolver : option ImageResolver)
    (current_path : option str) (soup : list node) (attachments : gset str) :
  find_all (py "img") (fst (_convert_images image_resolver current_path soup attachments)) = []
  /\ attachments ⊆ snd (_convert_images image_resolver current_path soup attachments)
  /\ (forall f, f ∈ snd (_convert_images image_resolver current_path soup attachments) ->
        f ∈ attachments \/ 47 ∉ f).
Proof.
  unfold _convert_images, find_all. cbn [fst snd].
  assert (Hall : flat_map (elems_named (py "img"))
                   (flat_map fst (map (convert_images_node image_resolver current_path) soup))
                 = []
                 /\ Forall (fun f => 47 ∉ f)
                      (flat_map snd (map (convert_images_node image_resolver current_path) soup))).
  { induction soup as [|n soup [IH1 IH2]]; [split; [reflexivity | constructor]|].
    destruct (convert_images_node_spec image_resolver current_path n) as [H1 H2].
    cbn [map flat_map]. split.
    - rewrite flat_map_app, H1, IH1. reflexivity.
    - apply Forall_app. split; assumption. }
  destruct Hall as [H1 H2]. split; [exact H1|]. split; [set_solver|].
  intros f [Hf|Hf]%elem_of_union; [left; exact Hf | right].
  apply elem_of_list_to_set in Hf. rewrite Forall_forall in H2. exact (H2 f Hf).
Qed.

(** After [_tasklist_inputs_to_unicode] no checkbox is left: an [input] still
    in the fragment has another type. Running the step again changes
    nothing. *)
Theorem tasklist_no_checkbox (soup : list node) :
  Forall (fun attrs => tasklist_mark attrs = None)
    (find_all (py "input") (_tasklist_inputs_to_unicode soup))
  /\ _tasklist_inputs_to_unicode (_tasklist_inputs_to_unicode soup)
     = _tasklist_inputs_to_unicode soup.
Proof.
  assert (Hnode : forall n,
            Forall (fun attrs => tasklist_mark attrs = None)
              (elems_named (py "input") (tasklist_node n))
            /\ tasklist_node (tasklist_node n) = tasklist_node n).
  { induction n as [s|name attrs children IH] using node_rect';
      [split; [constructor | reflexivity]|].
    assert (Hch : Forall (fun attrs => tasklist_mark attrs = None)
                    (flat_map (elems_named (py "input")) (map tasklist_node children))
                  /\ map tasklist_node (map tasklist_node children)
                     = map tasklist_node children).
    { induction IH as [|c children [Hc1 Hc2] _ [IH1 IH2]]; [split; [constructor | reflexivity]|].
      cbn [map flat_map]. split; [apply Forall_app; split; assumption|].
      rewrite Hc2, IH2. reflexivity. }
    destruct Hch as [Hch1 Hch2].
    cbn [tasklist_node]. destruct (str_eqb name (py "input")) eqn:Hn.
    - destruct (tasklist_mark attrs) as [mark|] eqn:Hm; [split; [constructor | reflexivity]|].
      cbn [elems_named tasklist_node]. rewrite Hn, Hm, Hch2. split; [|reflexivity].
      constructor; assumption.
    - cbn [elems_named tasklist_node]. rewrite Hn, Hch2. split; [exact Hch1 | reflexivity]. }
  unfold _tasklist_inputs_to_unicode, find_all.
  induction soup as [|n soup [IH1 IH2]]; [split; [constructor | reflexivity]|].
  destruct (Hnode n) as [H1 H2]. cbn [map flat_map]. split.
  - apply Forall_app. split; assumption.
  - rewrite H2, IH2. reflexivity.
Qed.

(** ** The table of contents (_inject_toc) *)

(** The TOC settings of the converter. *)
Record TocOptions : Type := mkToc {
  toc_min_level : Z;
  toc_max_level : Z;
  toc_type : str;
  toc_style : str;
  toc_outline : bool
}.

(** [str(n)] for an int. *)
Definition str_of_Z (z : Z) : str :=
  (if (z <? 0)%Z then py "-" else []) ++ str_of_N (Z.abs_N z).

(** [p = soup.new_tag("ac:parameter", attrs={"ac:name": name}); p.string = value] *)
Definition ac_parameter (name value : str) : node :=
  Elem (py "ac:parameter") [(py "ac:name", name)] [Text value].

Definition toc_macro (o : TocOptions) : node :=
  Elem (py "ac:structured-macro") [(py "ac:name", py "toc")]
    [ac_parameter (py "minLevel") (str_of_Z (toc_min_level o));
     ac_parameter (py "maxLevel") (str_of_Z (toc_max_level o));
     ac_parameter (py "outline") (if toc_outline o then py "true" else py "false");
     ac_parameter (py "type") (toc_type o);
     ac_parameter (py "style") (toc_style o)].

Definition expand_macro (o : TocOptions) : node :=
  Elem (py "ac:structured-macro") [(py "ac:name", py "expand")]
    [ac_parameter (py "title") (py "Оглавление");
     ac_parameter (py "expanded") (py "false");
     Elem (py "ac:rich-text-body") [] [toc_macro o]].

Definition spacer : node := Elem (py "p") [] [Elem (py "br") [] []].

(** A text node of white space only. *)
Definition is_blank (n : node) : bool :=
  match n with
  | Text s => str_eqb (strip s) []
  | Elem _ _ _ => false
  end.

(** The Page Properties macro. *)
Definition is_details (n : node) : bool :=
  match n with
  | Text _ => false
  | Elem name attrs _ =>
      str_eqb name (py "ac:structured-macro")
      && bool_decide (attr_get (py "ac:name") attrs = Some (py "details"))
  end.

(** The loop that looks for the place of the TOC, from index [i] on:
    [(insert_at, details_found)]. *)
Fixpoint toc_position (i : nat) (contents : list node) : nat * bool :=
  match contents with
  | [] => (0%nat, false)
  | n :: rest =>
      if is_blank n then toc_position (S i) rest
      else if is_details n then (S i, true)
      else (i, false)
  end.

(** [soup.insert(position, new_child)] *)
Definition soup_insert (position : nat) (new_child : node) (contents : list node)
    : list node :=
  take position contents ++ new_child :: drop position contents.

Definition _inject_toc (o : TocOptions) (soup : list node) : list node :=
  let '(insert_at, details_found) := toc_position 0 soup in
  if details_found then
    soup_insert (S insert_at) (expand_macro o) (soup_insert insert_at spacer soup)
  else soup_insert insert_at (expand_macro o) soup.

Definition default_toc : TocOptions := mkToc 1 3 (py "list") (py "none") false.

Example inject_toc_tests :
  _inject_toc default_toc [Elem (py "h1") [] [Text (py "Section")]; Text (py "\n")]
  = [expand_macro default_toc; Elem (py "h1") [] [Text (py "Section")]; Text (py "\n")]
  /\ _inject_toc default_toc
       [Elem (py "ac:structured-macro") [(py "ac:name", py "details")] [];
        Elem (py "h1") [] [Text (py "Section")]]
     = [Elem (py "ac:structured-macro") [(py "ac:name", py "details")] [];
        spacer; expand_macro default_toc; Elem (py "h1") [] [Text (py "Section")]]
  /\ toc_macro default_toc
     = Elem (py "ac:structured-macro") [(py "ac:name", py "toc")]
         [ac_parameter (py "minLevel") (py "1"); ac_parameter (py "maxLevel") (py "3");
          ac_parameter (py "outline") (py "false"); ac_parameter (py "type") (py "list");
          ac_parameter (py "style") (py "none")]
  /\ str_of_Z 0 = py "0" /\ str_of_Z (-12) = py "-12".
Proof. repeat split; vm_compute; reflexivity. Qed.

Section TocFacts.

Lemma toc_position_spec (contents : list node) :
  forall i,
  exists blanks rest,
    contents = blanks ++ rest
    /\ forallb is_blank blanks = true
    /\ match rest with
       | [] => toc_position i contents = (0%nat, false)
       | d :: _ =>
           is_blank d = false
           /\ toc_position i contents
              = if is_details d then (S (i + length blanks), true)
                else ((i + length blanks)%nat, false)
       end.
Proof.
  induction contents as [|n contents IH]; intros i.
  - exists [], []. repeat split.
  - cbn [toc_position]. destruct (is_blank n) eqn:Hb.
    + destruct (IH (S i)) as (blanks & rest & -> & Hbl & Hrest).
      exists (n :: blanks), rest. split; [reflexivity|].
      split; [simpl; rewrite Hb, Hbl; reflexivity|].
      destruct rest as [|d rest]; [exact Hrest|].
      destruct Hrest as [Hd ->]. split; [exact Hd|].
      cbn [length]. replace (S i + length blanks)%nat with (i + S (length blanks))%nat by lia.
      reflexivity.
    + exists [], (n :: contents). split; [reflexivity|]. split; [reflexivity|].
      split; [exact Hb|]. cbn [length]. rewrite Nat.add_0_r. reflexivity.
Qed.

End TocFacts.

(** [_inject_toc] only inserts: every node of the fragment is kept, in
    order. The macro goes in front of the first node that is not blank text;
    when that node is the Page Properties macro, the TOC follows it, behind
    a spacer paragraph. A fragment of blank text only gets the TOC in
    front. *)
Theorem inject_toc_placement (o : TocOptions) (soup : list node) :
  exists blanks rest,
    soup = blanks ++ rest
    /\ forallb is_blank blanks = true
    /\ match rest with
       | [] => _inject_toc o soup = expand_macro o :: soup
       | d :: rest' =>
           is_blank d = false
           /\ _inject_toc o soup
              = if is_details d
                then blanks ++ d :: spacer :: expand_macro o :: rest'
                else blanks ++ expand_macro o :: d :: rest'
       end.
Proof.
  destruct (toc_position_spec soup 0) as (blanks & rest & Hs & Hbl & Hpos).
  exists blanks, rest. split; [exact Hs|]. split; [exact Hbl|].
  unfold _inject_toc, soup_insert. destruct rest as [|d rest'].
  - rewrite Hpos. reflexivity.
  - destruct Hpos as [Hd Hpos]. split; [exact Hd|]. rewrite Hpos, Hs. cbn [Nat.add].
    destruct (is_details d).
    + replace (take (S (length blanks)) (blanks ++ d :: rest')) with (blanks ++ [d]).
      2: { rewrite take_app_ge by lia.
           replace (S (length blanks) - length blanks)%nat with 1%nat by lia. reflexivity. }
      replace (drop (S (length blanks)) (blanks ++ d :: rest')) with rest'.
      2: { rewrite drop_app_ge by lia.
           replace (S (length blanks) - length blanks)%nat with 1%nat by lia. reflexivity. }
      replace (S (S (length blanks))) with (length (blanks ++ [d; spacer]))
        by (rewrite length_app; simpl; lia).
      replace ((blanks ++ [d]) ++ spacer :: rest') with ((blanks ++ [d; spacer]) ++ rest')
        by (rewrite <- !app_assoc; reflexivity).
      rewrite take_app_length, drop_app_length, <- app_assoc. reflexivity.
    + rewrite take_app_length, drop_app_length. reflexivity.
Qed.

(* ===================================================================== *)
(** * The list of changed paths (_parse_paths_file) *)
(* ===================================================================== *)

(** [s.splitlines()]: the lines without their terminators. *)
Definition strip_terminator (line : str) : str :=
  if endswith line (py "\r\n") then take (length line - 2) line
  else match last line with
       | Some c => if is_linebreak c then removelast line else line
       | None => line
       end.
Definition splitlines (s : str) : list str := map strip_terminator (splitlines_keepends s).

(** [s.split()]: the runs of characters that are not white space. [cur] is
    the current run, reversed. *)
Fixpoint split_ws_aux (cur : str) (s : str) : list str :=
  match s with
  | [] => match cur with [] => [] | _ => [rev cur] end
  | c :: s' =>
      if is_space c
      then match cur with [] => [] | _ => [rev cur] end ++ split_ws_aux [] s'
      else split_ws_aux (c :: cur) s'
  end.
Definition split_ws (s : str) : list str := split_ws_aux [] s.

(** [Change]: the operation (A, M, R or D), the path, and the new path of a
    rename. *)
Record Change : Type := mkChange {
  op : str;
  path : str;
  new_path : option str
}.

(** What the function reads of [docs_dir]: [str(docs_dir)] and
    [docs_dir.name]. *)
Record DocsDir : Type := mkDocsDir {
  dir_text : str;
  dir_name : str
}.

(** The body of the first loop: the change a line stands for, if any. *)
Definition parse_line (raw : str) : option Change :=
  let line := strip raw in
  if str_eqb line [] || startswith line (py "#") then None
  else
    let parts := split_ws line in
    match parts with
    | [] => None
    | p0 :: rest =>
        if (length parts =? 1)%nat && (endswith p0 (py ".md") || contains (py ".md") p0)
        then Some (mkChange (py "M") (_norm_posix p0) None)
        else
          match rest with
          | p1 :: p2 :: _ =>
              if startswith p0 (py "R")
              then Some (mkChange (py "R") (_norm_posix p1) (Some (_norm_posix p2)))
              else if bool_decide (p0 ∈ [py "A"; py "M"; py "D"])
                   then Some (mkChange p0 (_norm_posix p1) None)
                   else None
          | [p1] =>
              if bool_decide (p0 ∈ [py "A"; py "M"; py "D"])
              then Some (mkChange p0 (_norm_posix p1) None)
              else None
          | [] => None
          end
    end.

Definition is_under_docs (docs_dir : DocsDir) (p : str) : bool :=
  let docs_root := _norm_posix (dir_text docs_dir) in
  let p := _norm_posix p in
  str_eqb p docs_root || startswith p (docs_root ++ py "/")
  || (str_eqb (dir_name docs_dir) (py "docs") && startswith p (py "docs/")).

(** The test of the second loop. *)
Definition keep_change (docs_dir : DocsDir) (ch : Change) : bool :=
  if str_eqb (op ch) (py "R") then
    match nonempty (new_path ch) with
    | Some np => is_under_docs docs_dir np && is_under_docs docs_dir (path ch)
    | None => false
    end
  else is_under_docs docs_dir (path ch).

(** [_parse_paths_file], of the text of the file. *)
Definition _parse_paths_file (text : str) (docs_dir : DocsDir) : list Change :=
  let out := omap parse_line (splitlines text) in
  List.filter (keep_change docs_dir) out.

(** The file of the test
    test_parse_paths_file_supports_plain_and_status_lines, with a path
    outside docs and a malformed line added. *)
Example parse_paths_file_test :
  _parse_paths_file
    (py "# comment\ndocs/a/b.md\nM docs/c/d.md\nA docs/e/f.md\nD docs/g/h.md\nR docs/old.md docs/new.md\nR100 docs/old2.md docs\\\\x\\\\..\\\\new2.md\nM src/main.py\nX docs/q.md\n\n")
    (mkDocsDir (py "/tmp/t/docs") (py "docs"))
  = [mkChange (py "M") (py "docs/a/b.md") None;
     mkChange (py "M") (py "docs/c/d.md") None;
     mkChange (py "A") (py "docs/e/f.md") None;
     mkChange (py "D") (py "docs/g/h.md") None;
     mkChange (py "R") (py "docs/old.md") (Some (py "docs/new.md"));
     mkChange (py "R") (py "docs/old2.md") (Some (py "docs/new2.md"))].
Proof. vm_compute. reflexivity. Qed.

(** Every change returned is one of the four operations on paths under the
    docs directory, in normalized form; a rename carries its new path, the
    others none. *)
Theorem parse_paths_file_changes (text : str) (docs_dir : DocsDir) :
  Forall (fun ch =>
            op ch ∈ [py "A"; py "M"; py "D"; py "R"]
            /\ _norm_posix (path ch) = path ch
            /\ is_under_docs docs_dir (path ch) = true
            /\ match new_path ch with
               | Some np =>
                   op ch = py "R" /\ _norm_posix np = np
                   /\ is_under_docs docs_dir np = true
               | None => op ch <> py "R"
               end)
    (_parse_paths_file text docs_dir).
Proof.
  unfold _parse_paths_file. apply List.Forall_forall. intros ch Hin. cbv beta.
  apply List.filter_In in Hin as [Hin Hkeep].
  apply list_elem_of_In, list_elem_of_omap in Hin. destruct Hin as (raw & _ & Hline).
  assert (Hnorm : forall q, _norm_posix (_norm_posix q) = _norm_posix q)
    by (intros q; apply norm_posix_canonical).
  assert (Hparse :
    (op ch ∈ [py "A"; py "M"; py "D"] /\ new_path ch = None
     /\ _norm_posix (path ch) = path ch)
    \/ (op ch = py "R" /\ _norm_posix (path ch) = path ch
        /\ exists np, new_path ch = Some np /\ np <> [] /\ _norm_posix np = np)).
  { unfold parse_line in Hline.
    destruct (_ || _); [discriminate Hline|].
    destruct (split_ws (strip raw)) as [|p0 rest]; [discriminate Hline|].
    destruct (_ && _).
    { injection Hline as <-. left. cbn. split; [right; left | split; [reflexivity | apply Hnorm]]. }
    assert (Hamd : forall p1,
              (if bool_decide (p0 ∈ [py "A"; py "M"; py "D"])
               then Some (mkChange p0 (_norm_posix p1) None) else None) = Some ch ->
              op ch ∈ [py "A"; py "M"; py "D"] /\ new_path ch = None
              /\ _norm_posix (path ch) = path ch).
    { intros p1 Heq. destruct (bool_decide _) eqn:Hd; [|discriminate Heq].
      apply bool_decide_eq_true in Hd. injection Heq as <-. cbn.
      split; [exact Hd | split; [reflexivity | apply Hnorm]]. }
    destruct rest as [|p1 [|p2 rest]]; [discriminate Hline | left; exact (Hamd _ Hline)|].
    destruct (startswith p0 (py "R")); [|left; exact (Hamd _ Hline)].
    injection Hline as <-. right. cbn. split; [reflexivity|]. split; [apply Hnorm|].
    exists (_norm_posix p2). split; [reflexivity|]. split; [apply norm_posix_canonical | apply Hnorm]. }
  unfold keep_change in Hkeep.
  destruct Hparse as [(Hop & Hnp & Hpath) | (Hop & Hpath & np & Hnp & Hne & Hnpn)].
  - assert (HR : op ch <> py "R").
    { intros Heq. rewrite Heq in Hop.
      repeat (apply elem_of_cons in Hop as [Hop|Hop];
              [revert Hop; vm_compute; discriminate|]).
      apply elem_of_nil in Hop. exact Hop. }
    rewrite (proj2 (str_eqb_neq _ _) HR) in Hkeep. rewrite Hnp.
    split; [|split; [exact Hpath | split; [exact Hkeep | exact HR]]].
    revert Hop. rewrite !elem_of_cons. tauto.
  - rewrite Hop, (str_eqb_refl (py "R")), Hnp, (nonempty_of_some np Hne) in Hkeep.
    apply andb_true_iff in Hkeep as [Hk1 Hk2]. rewrite Hnp.
    split; [rewrite Hop, !elem_of_cons; auto|].
    split; [exact Hpath|]. split; [exact Hk2|].
    split; [exact Hop | split; [exact Hnpn | exact Hk1]].
Qed.

(* ===================================================================== *)
(** * The title of a document (guess_title) *)
(* ===================================================================== *)

(** [re.search(r"^#\s+(.+)$", body, re.M)]: the pattern is tried at the start
    of each line, from the left ([at_bol] tells whether the scan stands at
    one); [$] holds at the end of the text and in front of a newline.
    The result is [m.group(1)]. *)
Definition at_eol (s : str) (c : caps) : option (str * caps) :=
  match s with
  | [] => Some (s, c)
  | x :: _ => if x =? 10 then Some (s, c) else None
  end.

Fixpoint search_h1 (at_bol : bool) (s : str) : option str :=
  match (if at_bol
         then rmatch (seq_re [chr 35; plus ws; Group 1 (plus dot)]) s [] at_eol
         else None) with
  | Some (_, c) => Some (group 1 c)
  | None =>
      match s with
      | [] => None
      | x :: s' => search_h1 (x =? 10) s'
      end
  end.

Section GuessTitle.

Variable safe_load : str -> Res yaml.
Variable repr : yaml -> str.

Definition guess_title (md_text fallback : str) : Res str :=
  match strip_front_matter safe_load md_text with
  | Raise e => Raise e
  | Ok (fm, body) =>
      let fm_title :=
        match fm with
        | YMap items =>
            match ymap_get (py "title") items with
            | Some v => if truthy v then Some v else None
            | None => None
            end
        | _ => None
        end in
      match fm_title with
      | Some v => Ok (strip (py_str repr v))
      | None =>
          match search_h1 true body with
          | Some t => Ok (strip t)
          | None => Ok fallback
          end
      end
  end.

End GuessTitle.

(** A loader for the front matter of the test: the two documents it is run
    on. *)
Definition title_loader (raw : str) : Res yaml :=
  if str_eqb raw (py "title: From FM")
  then Ok (YMap [(YStr (py "title"), YStr (py "From FM"))])
  else Yaml.safe_load raw.

Example guess_title_tests :
  guess_title title_loader (fun _ => []) (py "---\ntitle: From FM\n---\n# From H1\n") (py "X")
    = Ok (py "From FM")
  /\ guess_title title_loader (fun _ => []) (py "# From H1\ntext\n") (py "X")
     = Ok (py "From H1")
  /\ guess_title title_loader (fun _ => []) (py "no headings\n") (py "Fallback")
     = Ok (py "Fallback")
  /\ guess_title title_loader (fun _ => []) (py "text\n#\n\n  Next line  \n") (py "X")
     = Ok (py "Next line")
  /\ guess_title title_loader (fun _ => []) (py "## Sub\n#  \n") (py "X") = Ok [].
Proof. repeat split; vm_compute; reflexivity. Qed.

Section StripFacts.

Lemma lstrip_head (s : str) :
  match lstrip s with x :: _ => is_space x = false | [] => True end.
Proof.
  induction s as [|x s IH]; simpl; [exact I|].
  destruct (is_space x) eqn:Hx; [exact IH | exact Hx].
Qed.

Lemma lstrip_snoc (s : str) (x : N) :
  is_space x = false -> lstrip (s ++ [x]) = lstrip s ++ [x].
Proof.
  intros Hx. induction s as [|y s IH]; simpl; [rewrite Hx; reflexivity|].
  destruct (is_space y); [exact IH | reflexivity].
Qed.

Lemma rstrip_cons (x : N) (s : str) : is_space x = false -> rstrip (x :: s) = x :: rstrip s.
Proof.
  intros Hx. unfold rstrip. simpl rev. rewrite lstrip_snoc, rev_app_distr by exact Hx.
  reflexivity.
Qed.

Lemma strip_ends (s : str) :
  match strip s with x :: _ => is_space x = false | [] => True end
  /\ match rev (strip s) with x :: _ => is_space x = false | [] => True end.
Proof.
  unfold strip. split.
  - pose proof (lstrip_head s) as Hh. destruct (lstrip s) as [|x l]; [exact I|].
    rewrite rstrip_cons by exact Hh. exact Hh.
  - unfold rstrip. rewrite rev_involutive. apply lstrip_head.
Qed.

(** [strip] is idempotent. *)
Lemma strip_strip (s : str) : strip (strip s) = strip s.
Proof.
  destruct (strip_ends s) as [Hh Hl]. set (t := strip s) in *.
  unfold strip, rstrip. rewrite (lstrip_id t Hh), (lstrip_id (rev t) Hl), rev_involutive.
  reflexivity.
Qed.

End StripFacts.

(** [guess_title] fails only when the front matter does not load. Otherwise
    the title is the fallback or text without white space around it: a
    truthy [title] of the front matter comes first, whatever the body
    holds; without one, and without [#] in the body, it is the fallback. *)
Theorem guess_title_cases (safe_load : str -> Res yaml) (repr : yaml -> str)
    (md_text fallback : str) :
  match strip_front_matter safe_load md_text with
  | Raise e => guess_title safe_load repr md_text fallback = Raise e
  | Ok (fm, body) =>
      exists t,
        guess_title safe_load repr md_text fallback = Ok t
        /\ (t = fallback \/ strip t = t)
        /\ (forall items v, fm = YMap items -> ymap_get (py "title") items = Some v ->
              truthy v = true -> t = strip (py_str repr v))
        /\ ((forall items, fm = YMap items -> ymap_get (py "title") items = None) ->
            35 ∉ body -> t = fallback)
  end.
Proof.
  unfold guess_title. destruct (strip_front_matter safe_load md_text) as [[fm body]|e];
    [|reflexivity].
  set (fm_title := match fm with YMap items => _ | _ => None end).
  assert (Hno : 35 ∉ body -> forall b, search_h1 b body = None).
  { intros Hb. induction body as [|x body IH]; intros b.
    - destruct b; reflexivity.
    - apply not_elem_of_cons in Hb as [Hx Hb]. cbn [search_h1].
      replace (if b then rmatch _ (x :: body) [] at_eol else None) with (@None (str * caps)).
      + apply IH. exact Hb.
      + destruct b; [|reflexivity]. cbn [seq_re rmatch chr].
        destruct (N.eqb_spec 35 x); [congruence | reflexivity]. }
  destruct fm_title as [v|] eqn:Hft.
  - exists (strip (py_str repr v)). split; [reflexivity|].
    split; [right; apply strip_strip|]. split.
    + intros items v' -> Hget Htr. unfold fm_title in Hft. rewrite Hget, Htr in Hft.
      injection Hft as ->. reflexivity.
    + intros Hnone _. unfold fm_title in Hft. destruct fm; try discriminate Hft.
      rewrite (Hnone _ eq_refl) in Hft. discriminate Hft.
  - assert (Hfm : forall items v', fm = YMap items ->
                    ymap_get (py "title") items = Some v' -> truthy v' = true -> False).
    { intros items v' -> Hget Htr. unfold fm_title in Hft. rewrite Hget, Htr in Hft.
      discriminate Hft. }
    destruct (search_h1 true body) as [t|] eqn:Hs.
    + exists (strip t). split; [reflexivity|]. split; [right; apply strip_strip|].
      split; [intros items v' Hi Hg Ht; destruct (Hfm items v' Hi Hg Ht)|].
      intros _ Hb. rewrite (Hno Hb) in Hs. discriminate Hs.
    + exists fallback. split; [reflexivity|]. split; [left; reflexivity|].
      split; [intros items v' Hi Hg Ht; destruct (Hfm items v' Hi Hg Ht)|].
      reflexivity.
Qed.

(* ===================================================================== *)
(** * A pass over the entries (publish_all: phases A and B) *)
(* ===================================================================== *)

Section PublishFacts.

Context {R : Type} `{Confluence R}.
Variable cfg : Cfg.

Local Abbreviation WorldR := (@World R).
Local Existing Instance M_ret.
Local Existing Instance M_bind.

Ltac minv_n Hm wn xn Hn :=
  let e := fresh "err" in
  apply bind_inv in Hm as [(wn & xn & Hn & Hm) | (e & Hn & ->)].

(** [ensure_page] leaves the path index and the legacy index alone, and
    changes the primary index at most at its key, to the id it returns. *)
Lemma ensure_page_frame (key : str) (a : Args) (w w' : WorldR) (r : Res str) :
  ensure_page cfg key a w = (w', r) ->
  path_to_page w' = path_to_page w
  /\ label_to_page w' = label_to_page w
  /\ (key_to_page w' = key_to_page w
      \/ exists p, r = Ok p /\ key_to_page w' = <[key:=p]> (key_to_page w)).
Proof.
  intros Hrun. apply ensure_page_cases in Hrun as (t0 & rest & _ & Hcase).
  assert (Hmig : forall q w1,
            key_to_page w1 = key_to_page w -> label_to_page w1 = label_to_page w ->
            path_to_page w1 = path_to_page w ->
            migrate_outcome cfg key a q t0 w1 w' r ->
            path_to_page w' = path_to_page w
            /\ label_to_page w' = label_to_page w
            /\ (key_to_page w' = key_to_page w
                \/ exists p, r = Ok p /\ key_to_page w' = <[key:=p]> (key_to_page w))).
  { intros q w1 Hk Hl Hp (evs & _ & Hl2 & Hp2 & _ & _ & Hraise & Hok).
    split; [congruence|]. split; [congruence|].
    destruct r as [x|e].
    - right. exists x. split; [reflexivity|].
      destruct (Hok x eq_refl) as (-> & Hins & _). rewrite Hins, Hk. reflexivity.
    - left. rewrite (Hraise e eq_refl). exact Hk. }
  assert (Hcre : forall w1,
            key_to_page w1 = key_to_page w -> label_to_page w1 = label_to_page w ->
            path_to_page w1 = path_to_page w ->
            create_outcome cfg key a t0 w1 w' r ->
            path_to_page w' = path_to_page w
            /\ label_to_page w' = label_to_page w
            /\ (key_to_page w' = key_to_page w
                \/ exists p, r = Ok p /\ key_to_page w' = <[key:=p]> (key_to_page w))).
  { intros w1 Hk Hl Hp (evs & r0 & evs' & _ & Hl2 & Hp2 & _ & _ & _ & Hraise & Hok & _).
    split; [congruence|]. split; [congruence|].
    destruct r as [x|e].
    - right. exists x. split; [reflexivity|]. rewrite (Hok x eq_refl), Hk. reflexivity.
    - left. rewrite (Hraise e eq_refl). exact Hk. }
  destruct (chosen_branch cfg key a w) as [[p|q|p|]|e].
  - destruct Hcase as (evs & (Hk & Hl & Hp & _) & _). split; [exact Hp|].
    split; [exact Hl | left; exact Hk].
  - apply (Hmig q w); [reflexivity.. | exact Hcase].
  - destruct Hcase as (w1 & Hs & Hm).
    apply searched_extends in Hs as (evs0 & (Hk & Hl & Hp & _) & _).
    exact (Hmig p w1 Hk Hl Hp Hm).
  - destruct Hcase as (w1 & Hs & Hm).
    apply searched_extends in Hs as (evs0 & (Hk & Hl & Hp & _) & _).
    exact (Hcre w1 Hk Hl Hp Hm).
  - destruct Hcase as [Hs _].
    apply searched_extends in Hs as (evs0 & (Hk & Hl & Hp & _) & _).
    split; [exact Hp|]. split; [exact Hl | left; exact Hk].
Qed.

(** The state an entry's key is in when its page is known. *)
Definition key_known (w : WorldR) (k : str) : Prop :=
  exists p, key_to_page w !! k = Some p /\ p <> [].

(** What publishing one entry does to the indexes and to the number of
    pages. *)
Lemma publish_entry_frame (conv : Conv) (e : Entry) (w w' : WorldR) (r : Res str) :
  publish_entry cfg conv e w = (w', r) ->
  label_to_page w' = label_to_page w
  /\ (pages_created (log w') <= pages_created (log w) + 1)%nat
  /\ (key_known w (e_key e) -> pages_created (log w') = pages_created (log w))
  /\ (forall k, k <> e_key e -> rename_from_key e <> Some k ->
        key_to_page w' !! k = key_to_page w !! k)
  /\ (key_known w (e_key e) -> key_known w' (e_key e))
  /\ (forall p, r = Ok p ->
        key_to_page w' !! e_key e = Some p
        /\ (rename_from_path e <> Some (e_current_path e) ->
            path_to_page w' !! e_current_path e = Some p)
        /\ (forall q, q <> e_current_path e -> rename_from_path e <> Some q ->
              path_to_page w' !! q = path_to_page w !! q)).
Proof.
  intros Hrun. unfold publish_entry in Hrun.
  (* the pre-claim *)
  minv_n Hrun wa xa Ha.
  2: { exfalso. destruct (nonempty (rename_from_key e)) as [rk|]; [|discriminate Ha].
       destruct (negb (str_eqb rk (e_key e))); [|discriminate Ha].
       destruct (nonempty (key_to_page w !! rk)); [|discriminate Ha].
       destruct (key_to_page w !! e_key e); discriminate Ha. }
  assert (Hpre : label_to_page wa = label_to_page w
                 /\ path_to_page wa = path_to_page w /\ log wa = log w
                 /\ (forall k, k <> e_key e -> key_to_page wa !! k = key_to_page w !! k)
                 /\ (key_known w (e_key e) -> key_to_page wa = key_to_page w)).
  { destruct (nonempty (rename_from_key e)) as [rk|];
      [|injection Ha as <- _; repeat split; auto].
    destruct (negb (str_eqb rk (e_key e))); [|injection Ha as <- _; repeat split; auto].
    destruct (nonempty (key_to_page w !! rk)) as [old|] eqn:Hold;
      [|injection Ha as <- _; repeat split; auto].
    destruct (key_to_page w !! e_key e) as [cur|] eqn:Hcur;
      [injection Ha as <- _; repeat split; auto|].
    unfold set_key_to_page in Ha. injection Ha as <- _. cbn.
    repeat split; auto.
    - intros k Hk. apply lookup_insert_ne. congruence.
    - intros (p & Hp & _). congruence. }
  destruct Hpre as (Hl1 & Hp1 & Hlog1 & Hk1 & Hkn1).
  (* the conversion *)
  minv_n Hrun wb res Hb.
  2: { injection Hb as <- _. split; [exact Hl1|]. split; [rewrite Hlog1; lia|].
       split; [intros _; rewrite Hlog1; reflexivity|].
       split; [intros k Hk _; exact (Hk1 k Hk)|].
       split; [intros Hkn; unfold key_known; rewrite (Hkn1 Hkn); exact Hkn | discriminate]. }
  injection Hb as <- _.
  (* the upsert *)
  set (a := mkArgs (e_title e) (e_parent_id e) (fst res) [py "md"] (Some (snd res))
              (Some (e_collision_prefix e))) in *.
  assert (Hens : forall w2 r2, ensure_page cfg (e_key e) a wa = (w2, r2) ->
            label_to_page w2 = label_to_page w
            /\ path_to_page w2 = path_to_page w
            /\ (pages_created (log w2) <= pages_created (log w) + 1)%nat
            /\ (key_known w (e_key e) -> pages_created (log w2) = pages_created (log w))
            /\ (forall k, k <> e_key e -> key_to_page w2 !! k = key_to_page w !! k)
            /\ (key_known w (e_key e) -> key_known w2 (e_key e))
            /\ (forall p, r2 = Ok p -> key_to_page w2 !! e_key e = Some p)).
  { intros w2 r2 Hens.
    destruct (ensure_page_frame _ _ _ _ _ Hens) as (Hp2 & Hl2 & Hk2).
    pose proof (ensure_page_creates_at_most_one cfg _ _ _ _ _ Hens) as Hle.
    split; [congruence|]. split; [congruence|]. split; [rewrite <- Hlog1; exact Hle|].
    split.
    { intros Hkn. pose proof Hkn as (p & Hp & Hne). rewrite <- (Hkn1 Hkn) in Hp.
      destruct (ensure_page_known cfg _ _ _ _ p _ Hp Hne Hens)
        as (_ & evs & (_ & _ & _ & Hlog) & Hall & _).
      rewrite Hlog, pages_created_app, (touches_not_created p evs Hall), Hlog1. lia. }
    split.
    { intros k Hk. rewrite <- (Hk1 k Hk).
      destruct Hk2 as [->|(p & _ & ->)]; [reflexivity|].
      apply lookup_insert_ne. congruence. }
    split.
    { intros Hkn. pose proof Hkn as (p & Hp & Hne). rewrite <- (Hkn1 Hkn) in Hp.
      destruct (ensure_page_known cfg _ _ _ _ p _ Hp Hne Hens)
        as (_ & evs & (Hkk & _) & _).
      exists p. rewrite Hkk. split; assumption. }
    intros p ->. exact (ensure_page_ok_installed cfg _ _ _ _ _ Hens). }
  minv_n Hrun wc pid Hc.
  2: { destruct (Hens _ _ Hc) as (Hl2 & Hp2 & Hle & Hsame & Hk2 & Hkn2 & _).
       split; [exact Hl2|]. split; [exact Hle|]. split; [exact Hsame|].
       split; [intros k Hk _; exact (Hk2 k Hk)|]. split; [exact Hkn2 | discriminate]. }
  destruct (Hens _ _ Hc) as (Hl2 & Hp2 & Hle & Hsame & Hk2 & Hkn2 & Hinst).
  specialize (Hinst pid eq_refl).
  (* the path index *)
  minv_n Hrun wd xd Hd; unfold set_path_to_page in Hd; [|discriminate Hd].
  injection Hd as <- _.
  minv_n Hrun we xe He.
  2: { exfalso. destruct (nonempty (rename_from_path e)); discriminate He. }
  assert (Hpath : key_to_page we = key_to_page wc
                  /\ label_to_page we = label_to_page wc /\ log we = log wc
                  /\ (rename_from_path e <> Some (e_current_path e) ->
                      path_to_page we !! e_current_path e = Some pid)
                  /\ (forall q, q <> e_current_path e -> rename_from_path e <> Some q ->
                        path_to_page we !! q = path_to_page w !! q)).
  { destruct (nonempty (rename_from_path e)) as [rp|] eqn:Hrp.
    - apply nonempty_some in Hrp as [Hrp _].
      unfold pop_path_to_page in He. injection He as <- _. cbn.
      repeat split; auto.
      + intros Hne. rewrite lookup_delete_ne by congruence. apply lookup_insert_eq.
      + intros q Hq Hq2. rewrite lookup_delete_ne by congruence.
        rewrite lookup_insert_ne by congruence. rewrite Hp2. reflexivity.
    - injection He as <- _. cbn. repeat split; auto.
      + intros _. apply lookup_insert_eq.
      + intros q Hq _. rewrite lookup_insert_ne by congruence. rewrite Hp2. reflexivity. }
  destruct Hpath as (Hk4 & Hl4 & Hlog4 & Hcur & Hother).
  (* the old key *)
  minv_n Hrun wf xf Hf.
  2: { exfalso. destruct (nonempty (rename_from_key e)) as [rk|]; [|discriminate Hf].
       destruct (negb (str_eqb rk (e_key e))); [|discriminate Hf].
       cbn in Hf. destruct (bool_decide _); discriminate Hf. }
  apply ret_inv in Hrun as [-> ->].
  assert (Hlast : label_to_page wf = label_to_page we /\ path_to_page wf = path_to_page we
                  /\ log wf = log we
                  /\ key_to_page wf !! e_key e = key_to_page we !! e_key e
                  /\ (forall k, rename_from_key e <> Some k ->
                        key_to_page wf !! k = key_to_page we !! k)).
  { destruct (nonempty (rename_from_key e)) as [rk|] eqn:Hrk;
      [|injection Hf as <- _; repeat split; auto].
    apply nonempty_some in Hrk as [Hrk _].
    destruct (str_eqb rk (e_key e)) eqn:Heq; cbn [negb] in Hf;
      [injection Hf as <- _; repeat split; auto|].
    apply str_eqb_neq in Heq. cbn in Hf.
    destruct (bool_decide _); [|injection Hf as <- _; repeat split; auto].
    unfold pop_key_to_page in Hf. injection Hf as <- _. cbn.
    repeat split; auto.
    - apply lookup_delete_ne. exact Heq.
    - intros k Hk. apply lookup_delete_ne. congruence. }
  destruct Hlast as (Hl5 & Hp5 & Hlog5 & Hkey5 & Hk5).
  split; [congruence|]. split; [rewrite Hlog5, Hlog4; exact Hle|].
  split; [intros Hkn; rewrite Hlog5, Hlog4; exact (Hsame Hkn)|].
  split; [intros k Hk Hrk; rewrite (Hk5 k Hrk), Hk4; exact (Hk2 k Hk)|].
  split.
  { intros Hkn. destruct (Hkn2 Hkn) as (p & Hp & Hne). exists p.
    rewrite Hkey5, Hk4. split; assumption. }
  intros p Heq. injection Heq as <-.
  split; [rewrite Hkey5, Hk4; exact Hinst|].
  split; [intros Hne; rewrite Hp5; exact (Hcur Hne)|].
  intros q Hq Hq2. rewrite Hp5. exact (Hother q Hq Hq2).
Qed.

End PublishFacts.

Section PassFacts.

Context {R : Type} `{Confluence R}.
Variable cfg : Cfg.

Local Abbreviation WorldR := (@World R).
Local Existing Instance M_ret.
Local Existing Instance M_bind.

Ltac minv_n Hm wn xn Hn :=
  let e := fresh "err" in
  apply bind_inv in Hm as [(wn & xn & Hn & Hm) | (e & Hn & ->)].

Ltac minv_ok Hm wn xn Hn :=
  let e := fresh "err" in
  let Hbad := fresh "Hbad" in
  apply bind_inv in Hm as [(wn & xn & Hn & Hm) | (e & Hn & Hbad)]; [|discriminate Hbad].

(** An id some call of [create_page] returns. *)
Definition created_id (pid : str) : Prop :=
  exists space parent_id title storage rem,
    snd (create_page space parent_id title storage rem) = Ok pid.

Lemma try_create_loop_id (key : str) (a : Args) (cands : list str) :
  forall (last_err : option exn) (w w' : WorldR) (pid t : str),
  try_create_loop cfg key a cands last_err w = (w', Ok (pid, t)) ->
  pid <> [] \/ created_id pid.
Proof.
  induction cands as [|c rest IH]; intros last_err w w' pid t Hrun; simpl in Hrun.
  - apply raise_inv in Hrun as [_ Hbad]. discriminate Hbad.
  - minv_ok Hrun w1 res Hatt.
    unfold attempt, call in Hatt.
    destruct (create_page (space cfg) (parent_id a) c (storage a) (remote w))
      as [rem' cres] eqn:Hcreate.
    injection Hatt as _ <-.
    destruct cres as [cid|[msg|cls msg]].
    + apply ret_inv in Hrun as [_ Heq]. injection Heq as <- _. right.
      exists (space cfg), (parent_id a), c, (storage a), (remote w).
      rewrite Hcreate. reflexivity.
    + destruct (is_title_exists msg).
      * minv_ok Hrun w2 adopted Had.
        destruct (nonempty adopted) as [aid|] eqn:Hne.
        -- apply nonempty_some in Hne as [_ Hne].
           minv_ok Hrun w3 used Hup.
           apply ret_inv in Hrun as [_ Heq]. injection Heq as <- _. left. exact Hne.
        -- exact (IH _ _ _ _ _ Hrun).
      * apply raise_inv in Hrun as [_ Hbad]. discriminate Hbad.
    + apply raise_inv in Hrun as [_ Hbad]. discriminate Hbad.
Qed.

(** The id [ensure_page] returns is not empty, unless [create_page] returned
    the empty id. *)
Lemma ensure_page_result_id (key : str) (a : Args) (w w' : WorldR) (p : str) :
  ensure_page cfg key a w = (w', Ok p) -> p <> [] \/ created_id p.
Proof.
  intros Hrun. destruct (title_candidates_cons key a (title a)) as (t0 & rest & Hc).
  rewrite ensure_page_unfold in Hrun.
  assert (Hmig : forall q w1, q <> [] -> upsert_migrate cfg key a q w1 = (w', Ok p) ->
                   p <> [] \/ created_id p).
  { intros q w1 Hq Hm. left.
    destruct (upsert_migrate_spec cfg key a q t0 rest w1 w' (Ok p) Hc Hm)
      as (evs & _ & _ & _ & _ & _ & _ & Hok).
    destruct (Hok p eq_refl) as (-> & _). exact Hq. }
  destruct (nonempty (key_to_page w !! key)) as [p0|] eqn:Hk.
  { apply nonempty_some in Hk as [_ Hk]. left.
    destruct (upsert_existing_spec cfg key a p0 t0 rest w w' (Ok p) Hc Hrun)
      as (evs & _ & _ & _ & Hok).
    destruct (Hok p eq_refl) as [-> _]. exact Hk. }
  destruct (nonempty (label_to_page w !! _label_for key)) as [q|] eqn:Hl.
  { apply nonempty_some in Hl as [_ Hl]. exact (Hmig q w Hl Hrun). }
  minv_ok Hrun w1 adopted Had.
  destruct (nonempty adopted) as [aid|] eqn:Hne.
  { apply nonempty_some in Hne as [_ Hne]. exact (Hmig aid w1 Hne Hrun). }
  unfold upsert_create, try_create in Hrun.
  minv_ok Hrun w2 created Hcr. destruct created as [pid used].
  minv_ok Hrun w3 x3 H3. minv_ok Hrun w4 x4 H4. minv_ok Hrun w5 x5 H5.
  apply ret_inv in Hrun as [_ Heq]. injection Heq as <-.
  exact (try_create_loop_id _ _ _ _ _ _ _ _ Hcr).
Qed.

Variable conv : Conv.

(** A pass creates at most one page per entry. *)
Lemma publish_entries_bound (entries : list Entry) :
  forall (w w' : WorldR) (r : Res unit),
  publish_entries cfg conv entries w = (w', r) ->
  (pages_created (log w') <= pages_created (log w) + length entries)%nat.
Proof.
  induction entries as [|e rest IH]; intros w w' r Hrun; simpl in Hrun.
  - apply ret_inv in Hrun as [-> _]. lia.
  - minv_n Hrun w1 p He.
    + apply publish_entry_frame in He as (_ & Hle & _). apply IH in Hrun. simpl. lia.
    + apply publish_entry_frame in He as (_ & Hle & _). simpl. lia.
Qed.

(** The old keys of the renames are not keys of entries of the pass. *)
Definition renames_apart (entries : list Entry) : Prop :=
  forall e e', e ∈ entries -> e' ∈ entries -> rename_from_key e <> Some (e_key e').

(** The old paths of the renames are not paths of entries of the pass. *)
Definition rename_paths_apart (entries : list Entry) : Prop :=
  forall e e', e ∈ entries -> e' ∈ entries ->
    rename_from_path e <> Some (e_current_path e').

(** With every key of the pass known, the pass creates nothing and the keys
    stay known. *)
Lemma publish_entries_known (all entries : list Entry) :
  renames_apart all -> entries ⊆ all ->
  forall (w w' : WorldR) (r : Res unit),
  Forall (fun e => key_known w (e_key e)) all ->
  publish_entries cfg conv entries w = (w', r) ->
  pages_created (log w') = pages_created (log w)
  /\ Forall (fun e => key_known w' (e_key e)) all.
Proof.
  intros Hapart. induction entries as [|e rest IH]; intros Hsub w w' r Hall Hrun;
    simpl in Hrun.
  - apply ret_inv in Hrun as [-> _]. split; [reflexivity | exact Hall].
  - assert (He_in : e ∈ all) by (apply Hsub; left).
    assert (Hkn : key_known w (e_key e)).
    { rewrite Forall_forall in Hall. exact (Hall e He_in). }
    assert (Hstep : forall w1 r1, publish_entry cfg conv e w = (w1, r1) ->
              pages_created (log w1) = pages_created (log w)
              /\ Forall (fun e0 => key_known w1 (e_key e0)) all).
    { intros w1 r1 He. apply publish_entry_frame in He as (_ & _ & Hsame & Hk & Hkeep & _).
      split; [exact (Hsame Hkn)|].
      apply Forall_forall. intros e0 He0. rewrite Forall_forall in Hall.
      destruct (decide (e_key e0 = e_key e)) as [Heq|Hneq].
      - rewrite Heq. exact (Hkeep Hkn).
      - destruct (Hall e0 He0) as (p & Hp & Hne). exists p.
        rewrite (Hk (e_key e0) Hneq (Hapart e e0 He_in He0)). split; assumption. }
    minv_n Hrun w1 p He.
    + destruct (Hstep _ _ He) as [Hsame Hall1].
      destruct (IH ltac:(intros x Hx; apply Hsub; right; exact Hx) _ _ _ Hall1 Hrun)
        as [Hsame2 Hall2].
      split; [congruence | exact Hall2].
    + exact (Hstep _ _ He).
Qed.

(** After a pass that went through, the keys and the paths of its entries
    are in the indexes. *)
Lemma publish_entries_installed (all entries : list Entry) :
  entries ⊆ all ->
  forall (w w' : WorldR),
  publish_entries cfg conv entries w = (w', Ok tt) ->
  (renames_apart all ->
   Forall (fun e => is_Some (key_to_page w' !! e_key e)) entries
   /\ forall e, e ∈ all -> is_Some (key_to_page w !! e_key e) ->
        is_Some (key_to_page w' !! e_key e))
  /\ (rename_paths_apart all ->
      Forall (fun e => is_Some (path_to_page w' !! e_current_path e)) entries
      /\ forall e, e ∈ all -> is_Some (path_to_page w !! e_current_path e) ->
           is_Some (path_to_page w' !! e_current_path e)).
Proof.
  induction entries as [|e rest IH]; intros Hsub w w' Hrun; simpl in Hrun.
  - apply ret_inv in Hrun as [-> _]. split; intros _; (split; [constructor | auto]).
  - assert (He_in : e ∈ all) by (apply Hsub; left).
    minv_ok Hrun w1 p He.
    apply publish_entry_frame in He as (_ & _ & _ & Hk & _ & Hok).
    destruct (Hok p eq_refl) as (Hkey & Hcur & Hother).
    destruct (IH ltac:(intros x Hx; apply Hsub; right; exact Hx) _ _ Hrun) as [IHk IHp].
    split.
    + intros Hapart. destruct (IHk Hapart) as [Hrest Hkeep].
      assert (Hstep : forall e0, e0 ∈ all -> is_Some (key_to_page w !! e_key e0) ->
                        is_Some (key_to_page w1 !! e_key e0)).
      { intros e0 He0 Hs. destruct (decide (e_key e0 = e_key e)) as [Heq|Hneq].
        - rewrite Heq, Hkey. eauto.
        - rewrite (Hk (e_key e0) Hneq (Hapart e e0 He_in He0)). exact Hs. }
      split.
      * constructor; [|exact Hrest]. apply (Hkeep e He_in). rewrite Hkey. eauto.
      * intros e0 He0 Hs. exact (Hkeep e0 He0 (Hstep e0 He0 Hs)).
    + intros Hapart. destruct (IHp Hapart) as [Hrest Hkeep].
      specialize (Hcur (Hapart e e He_in He_in)).
      assert (Hstep : forall e0, e0 ∈ all -> is_Some (path_to_page w !! e_current_path e0) ->
                        is_Some (path_to_page w1 !! e_current_path e0)).
      { intros e0 He0 Hs.
        destruct (decide (e_current_path e0 = e_current_path e)) as [Heq|Hneq].
        - rewrite Heq, Hcur. eauto.
        - rewrite (Hother _ Hneq (Hapart e e0 He_in He0)). exact Hs. }
      split.
      * constructor; [|exact Hrest]. apply (Hkeep e He_in). rewrite Hcur. eauto.
      * intros e0 He0 Hs. exact (Hkeep e0 He0 (Hstep e0 He0 Hs)).
Qed.

End PassFacts.

Section PhaseFacts.

Context {R : Type} `{Confluence R}.
Variable cfg : Cfg.
Variable conv : Conv.

Local Abbreviation WorldR := (@World R).
Local Existing Instance M_ret.
Local Existing Instance M_bind.

Ltac minv_ok Hm wn xn Hn :=
  let e := fresh "err" in
  let Hbad := fresh "Hbad" in
  apply bind_inv in Hm as [(wn & xn & Hn & Hm) | (e & Hn & Hbad)]; [|discriminate Hbad].

Lemma publish_entry_result_id (e : Entry) (w w' : WorldR) (p : str) :
  publish_entry cfg conv e w = (w', Ok p) -> p <> [] \/ created_id p.
Proof.
  intros Hrun. unfold publish_entry in Hrun.
  minv_ok Hrun wa xa Ha. minv_ok Hrun wb res Hb. minv_ok Hrun wc pid Hc.
  minv_ok Hrun wd xd Hd. minv_ok Hrun we xe He. minv_ok Hrun wf xf Hf.
  apply ret_inv in Hrun as [_ Heq]. injection Heq as <-.
  exact (ensure_page_result_id cfg _ _ _ _ _ Hc).
Qed.

(** [create_page] returns no empty id. *)
Hypothesis create_ids :
  forall space parent_id title storage rem pid,
    snd (create_page space parent_id title storage rem) = Ok pid -> pid <> [].

(** After a pass that went through, the keys of its entries are known. *)
Lemma publish_entries_keys_known (all entries : list Entry) :
  renames_apart all -> entries ⊆ all ->
  forall (w w' : WorldR),
  publish_entries cfg conv entries w = (w', Ok tt) ->
  Forall (fun e => key_known w' (e_key e)) entries
  /\ forall e, e ∈ all -> key_known w (e_key e) -> key_known w' (e_key e).
Proof.
  intros Hapart. induction entries as [|e rest IH]; intros Hsub w w' Hrun; simpl in Hrun.
  - apply ret_inv in Hrun as [-> _]. split; [constructor | auto].
  - assert (He_in : e ∈ all) by (apply Hsub; left).
    minv_ok Hrun w1 p He.
    assert (Hp : p <> []).
    { destruct (publish_entry_result_id _ _ _ _ He) as [Hp|Hc]; [exact Hp|].
      destruct Hc as (s & pi & t & st & rem & Hc). exact (create_ids _ _ _ _ _ _ Hc). }
    apply publish_entry_frame in He as (_ & _ & _ & Hk & _ & Hok).
    destruct (Hok p eq_refl) as (Hkey & _).
    destruct (IH ltac:(intros x Hx; apply Hsub; right; exact Hx) _ _ Hrun) as [Hrest Hkeep].
    assert (Hstep : forall e0, e0 ∈ all -> key_known w (e_key e0) -> key_known w1 (e_key e0)).
    { intros e0 He0 Hs. destruct (decide (e_key e0 = e_key e)) as [Heq|Hneq].
      - exists p. rewrite Heq. split; assumption.
      - destruct Hs as (q & Hq & Hne). exists q.
        rewrite (Hk (e_key e0) Hneq (Hapart e e0 He_in He0)). split; assumption. }
    split.
    + constructor; [|exact Hrest]. apply (Hkeep e He_in). exists p. split; assumption.
    + intros e0 He0 Hs. exact (Hkeep e0 He0 (Hstep e0 He0 Hs)).
Qed.

End PhaseFacts.

(** After a pass over the entries that went through (phase A), every entry's
    key is in the primary index and every entry's path in the path index, so
    that the links between the documents of the pass can be resolved;
    provided no entry was renamed from the key or the path of an entry of
    the pass. A pass creates at most one page per entry. *)
Theorem publish_entries_indexed {R : Type} `{Confluence R} (cfg : Cfg) (conv : Conv)
    (entries : list Entry) (w w' : @World R) :
  renames_apart entries -> rename_paths_apart entries ->
  publish_entries cfg conv entries w = (w', Ok tt) ->
  Forall (fun e => is_Some (key_to_page w' !! e_key e)
                   /\ is_Some (path_to_page w' !! e_current_path e)) entries
  /\ (pages_created (log w') <= pages_created (log w) + length entries)%nat.
Proof.
  intros Hk Hp Hrun.
  destruct (publish_entries_installed cfg conv entries entries ltac:(auto) w w' Hrun)
    as [Hkeys Hpaths].
  destruct (Hkeys Hk) as [Hkeys' _]. destruct (Hpaths Hp) as [Hpaths' _].
  split; [|exact (publish_entries_bound cfg conv entries w w' _ Hrun)].
  apply Forall_forall. intros e He. rewrite Forall_forall in Hkeys', Hpaths'.
  split; [exact (Hkeys' e He) | exact (Hpaths' e He)].
Qed.

(** The second phase of pass 2 creates no page: when a pass over the entries
    went through, another pass over them, with whatever converter, only
    updates (also when it stops on an error), given that [create_page]
    returns no empty id and that no entry was renamed from the key of an
    entry of the pass. *)
Theorem publish_second_pass_creates_nothing {R : Type} `{Confluence R} (cfg : Cfg)
    (conv1 conv2 : Conv) (entries : list Entry) (w w1 w2 : @World R) (r : Res unit) :
  (forall space parent_id title storage rem pid,
     snd (create_page space parent_id title storage rem) = Ok pid -> pid <> []) ->
  renames_apart entries ->
  publish_entries cfg conv1 entries w = (w1, Ok tt) ->
  publish_entries cfg conv2 entries w1 = (w2, r) ->
  pages_created (log w2) = pages_created (log w1)
  /\ Forall (fun e => exists p, key_to_page w2 !! e_key e = Some p /\ p <> []) entries.
Proof.
  intros Hids Hapart Hrun1 Hrun2.
  destruct (publish_entries_keys_known cfg conv1 Hids entries entries Hapart ltac:(auto)
              w w1 Hrun1) as [Hknown _].
  exact (publish_entries_known cfg conv2 entries entries Hapart ltac:(auto) w1 w2 r
           Hknown Hrun2).
Qed.

(* ===================================================================== *)
(** * Discovery of the existing pages (DocsPublisher.bootstrap_existing) *)
(* ===================================================================== *)

(** What the loop reads of a search result: [str(page["id"])] and the names
    of [page["metadata"]["labels"]["results"]]. *)
Record PageInfo : Type := mkPage {
  pg_id : str;
  pg_labels : list str
}.

Section Bootstrap.

Context {R : Type} `{Confluence R}.

Local Abbreviation WorldR := (@World R).
Local Abbreviation MR := (@M R).
Local Existing Instance M_ret.
Local Existing Instance M_bind.

(** The two reading operations of [confl_client.Confluence] the discovery
    uses. [search limit start] is one request of [cql_iter] for the managed
    pages under the root. [get_property page_id key] gives [None] when the
    page has no such property (404), and otherwise what the code reads of
    it: [value["key"]] when [value] is a dict holding a key. *)
Variable search : nat -> nat -> R -> R * Res (list PageInfo).
Variable get_property : str -> str -> R -> R * Res (option (option str)).

Variable cfg : Cfg.
(** [options.get("migrate_legacy_src_labels", True)] *)
Variable migrate_legacy_src_labels : bool.

(** A reading call: the remote store moves on, nothing is written. *)
Definition query {A} (op : R -> R * Res A) : MR A :=
  fun w =>
    let '(rem, res) := op (remote w) in
    (mkWorld rem (key_to_page w) (label_to_page w) (path_to_page w) (log w), res).

Definition set_label_to_page (k v : str) : MR unit :=
  fun w => (mkWorld (remote w) (key_to_page w) (<[k:=v]> (label_to_page w))
              (path_to_page w) (log w), Ok tt).

(** One [try: ... get_property ... except Exception] block: the key read, if
    any. *)
Definition read_src_key (page_id key : str) : MR (option str) :=
  fun w =>
    let '(w1, r) := query (get_property page_id key) w in
    (w1, Ok (match r with
             | Ok (Some (Some k)) => Some k
             | _ => None
             end)).

Fixpoint set_labels_to_page (labels : list str) (page_id : str) : MR unit :=
  match labels with
  | [] => ret tt
  | lb :: rest => set_label_to_page lb page_id;; set_labels_to_page rest page_id
  end.

(** The body of the loop, for one page. *)
Definition process_page (page : PageInfo) : MR unit :=
  let page_id := pg_id page in
  let labels := pg_labels page in
  k1 ← read_src_key page_id PROPERTY_KEY;
  src_key ← match nonempty k1 with
            | Some k => ret (Some k)
            | None => k2 ← read_src_key page_id (py "source"); ret (nonempty k2)
            end;
  match src_key with
  | Some k =>
      set_key_to_page k page_id;;
      if startswith k (py "file:") then
        match _norm_posix (drop 5 k) with
        | [] => ret tt
        | p => set_path_to_page p page_id
        end
      else ret tt
  | None => ret tt
  end;;
  let legacy_src_labels :=
    List.filter (fun lb => startswith lb LEGACY_SRC_LABEL_PREFIX) labels in
  set_labels_to_page legacy_src_labels page_id;;
  (if migrate_legacy_src_labels
      && match src_key with Some _ => true | None => false end
      && match legacy_src_labels with [] => false | _ => true end
   then delete_labels_quietly page_id legacy_src_labels
   else ret tt);;
  if migrate_legacy_doc_labels cfg
  then delete_labels_quietly page_id
         (List.filter (fun lb2 => bool_decide (lb2 ∈ labels)) VISIBLE_META_LABELS)
  else ret tt.

Fixpoint process_pages (pages : list PageInfo) : MR unit :=
  match pages with
  | [] => ret tt
  | page :: rest => process_page page;; process_pages rest
  end.

(** [for page in self.conf.cql_iter(cql, ...)]: the pages come 200 at a time
    (the default [limit] of [cql_iter]); each batch is processed before the
    next one is asked for. [None] is a loop still running after [fuel]
    requests. *)
Fixpoint bootstrap_loop (fuel : nat) (start : nat) (w : WorldR)
    : option (WorldR * Res unit) :=
  match fuel with
  | O => None
  | Datatypes.S fuel' =>
      match query (search 200 start) w with
      | (w1, Raise e) => Some (w1, Raise e)
      | (w1, Ok results) =>
          match process_pages results w1 with
          | (w2, Raise e) => Some (w2, Raise e)
          | (w2, Ok _) =>
              if (length results <? 200)%nat then Some (w2, Ok tt)
              else bootstrap_loop fuel' (start + 200) w2
          end
      end
  end.

Definition bootstrap_existing (fuel : nat) (w : WorldR) : option (WorldR * Res unit) :=
  bootstrap_loop fuel 0 w.

End Bootstrap.

(** The only writes of the discovery: the removal of a legacy label or of a
    visible technical label. *)
Definition is_label_cleanup (ev : Event) : Prop :=
  match ev with
  | EvDeleteLabel _ lb _ =>
      startswith lb LEGACY_SRC_LABEL_PREFIX = true \/ lb ∈ VISIBLE_META_LABELS
  | _ => False
  end.

(** What the code reads of an answer of [get_property]. *)
Definition key_of (r : Res (option (option str))) : option str :=
  match r with
  | Ok (Some (Some k)) => Some k
  | _ => None
  end.

(** The key a page is indexed under, from its two properties. *)
Definition source_key (prop_of : str -> str -> Res (option (option str))) (page_id : str)
    : option str :=
  match nonempty (key_of (prop_of page_id PROPERTY_KEY)) with
  | Some k => Some k
  | None => nonempty (key_of (prop_of page_id (py "source")))
  end.

(** The primary index after the pages were processed, in order. *)
Definition index_pages (prop_of : str -> str -> Res (option (option str)))
    (pages : list PageInfo) (index : gmap str str) : gmap str str :=
  fold_left (fun idx page =>
               match source_key prop_of (pg_id page) with
               | Some k => <[k := pg_id page]> idx
               | None => idx
               end) pages index.

Section BootstrapFacts.

Context {R : Type} `{Confluence R}.

Local Abbreviation WorldR := (@World R).
Local Existing Instance M_ret.
Local Existing Instance M_bind.

Variable search : nat -> nat -> R -> R * Res (list PageInfo).
Variable get_property : str -> str -> R -> R * Res (option (option str)).
Variable cfg : Cfg.
Variable migrate_legacy_src_labels : bool.

Ltac minv_n Hm wn xn Hn :=
  let e := fresh "err" in
  apply bind_inv in Hm as [(wn & xn & Hn & Hm) | (e & Hn & ->)].

Ltac minv_ok Hm wn xn Hn :=
  let e := fresh "err" in
  let Hbad := fresh "Hbad" in
  apply bind_inv in Hm as [(wn & xn & Hn & Hm) | (e & Hn & Hbad)]; [|discriminate Hbad].

Ltac minv_e Hm wn xn Hn :=
  let e := fresh "err" in
  let Hr := fresh "Hr" in
  apply bind_inv in Hm as [(wn & xn & Hn & Hm) | (e & Hn & Hr)].

(** [w'] is [w] with [evs] appended to the log. *)
Definition logged (w w' : WorldR) (evs : list Event) : Prop := log w' = log w ++ evs.

Lemma delete_labels_quietly_events (pid : str) (labels : list str) :
  forall (w w' : WorldR) (r : Res unit),
  delete_labels_quietly pid labels w = (w', r) ->
  r = Ok tt
  /\ key_to_page w' = key_to_page w
  /\ exists evs,
       logged w w' evs
       /\ Forall (fun ev => exists lb res, ev = EvDeleteLabel pid lb res /\ lb ∈ labels) evs.
Proof.
  induction labels as [|lb rest IH]; intros w w' r Hrun; simpl in Hrun.
  - apply ret_inv in Hrun as [-> ->]. split; [reflexivity|]. split; [reflexivity|].
    exists []. split; [unfold logged; rewrite app_nil_r; reflexivity | constructor].
  - minv_n Hrun w1 x1 H1.
    2: { apply swallow_call_inv in H1 as [Heq _]. discriminate Heq. }
    apply swallow_call_inv in H1 as [_ (res & (Hk & _ & _ & Hlog))].
    apply IH in Hrun as (-> & Hk2 & evs & Hlog2 & Hall). split; [reflexivity|].
    split; [congruence|].
    exists (EvDeleteLabel pid lb res :: evs). split.
    + unfold logged in *. rewrite Hlog2, Hlog, <- app_assoc. reflexivity.
    + constructor; [exists lb, res; split; [reflexivity | left]|].
      eapply Forall_impl; [exact Hall|]. intros ev (lb' & res' & -> & Hin).
      exists lb', res'. split; [reflexivity | right; exact Hin].
Qed.

Lemma read_src_key_spec (page_id key : str) (w w' : WorldR) (r : Res (option str)) :
  read_src_key get_property page_id key w = (w', r) ->
  key_to_page w' = key_to_page w /\ log w' = log w
  /\ r = Ok (key_of (snd (get_property page_id key (remote w)))).
Proof.
  unfold read_src_key, query. destruct (get_property page_id key (remote w)) as [rem res].
  intros Heq. injection Heq as <- <-. repeat split.
Qed.

Lemma set_labels_to_page_spec (labels : list str) (page_id : str) :
  forall (w w' : WorldR) (r : Res unit),
  set_labels_to_page labels page_id w = (w', r) ->
  r = Ok tt /\ key_to_page w' = key_to_page w /\ log w' = log w /\ remote w' = remote w.
Proof.
  induction labels as [|lb rest IH]; intros w w' r Hrun; simpl in Hrun.
  - apply ret_inv in Hrun as [-> ->]. repeat split.
  - minv_n Hrun w1 x1 H1; [|discriminate H1].
    unfold set_label_to_page in H1. injection H1 as <- _.
    apply IH in Hrun as (-> & Hk & Hl & Hr). repeat split; assumption.
Qed.

(** One page: the loop body never raises; it writes nothing but label
    removals; the primary index gets the key read from the properties. *)
Lemma process_page_spec (page : PageInfo) (w w' : WorldR) (r : Res unit) :
  process_page get_property cfg migrate_legacy_src_labels page w = (w', r) ->
  r = Ok tt
  /\ (exists evs, logged w w' evs /\ Forall is_label_cleanup evs)
  /\ forall prop_of,
       (forall pid key rem, get_property pid key rem = (rem, prop_of pid key)) ->
       key_to_page w' = index_pages prop_of [page] (key_to_page w).
Proof.
  intros Hrun. unfold process_page in Hrun.
  minv_n Hrun wa k1 Ha.
  2: { apply read_src_key_spec in Ha as (_ & _ & Hbad). discriminate Hbad. }
  apply read_src_key_spec in Ha as (Hka & Hla & Hk1). injection Hk1 as ->.
  minv_n Hrun wb src_key Hb.
  2: { exfalso. destruct (nonempty _); [discriminate Hb|].
       minv_e Hb wx k2 Hx; [discriminate Hb|].
       apply read_src_key_spec in Hx as (_ & _ & Hbad). discriminate Hbad. }
  assert (Hsrc : key_to_page wb = key_to_page w /\ log wb = log w
                 /\ forall prop_of,
                      (forall pid key rem, get_property pid key rem = (rem, prop_of pid key)) ->
                      src_key = source_key prop_of (pg_id page)).
  { destruct (nonempty (key_of (snd (get_property (pg_id page) PROPERTY_KEY (remote w)))))
      as [k|] eqn:Hk.
    - injection Hb as <- <-. split; [exact Hka|]. split; [exact Hla|].
      intros prop_of Hreads. unfold source_key. rewrite Hreads in Hk. cbn [snd] in Hk.
      rewrite Hk. reflexivity.
    - minv_ok Hb wx k2 Hx.
      apply read_src_key_spec in Hx as (Hkx & Hlx & Hk2). injection Hk2 as ->.
      injection Hb as <- <-. split; [congruence|]. split; [congruence|].
      intros prop_of Hreads. unfold source_key. rewrite Hreads in Hk. cbn [snd] in Hk.
      rewrite Hk, Hreads. reflexivity. }
  destruct Hsrc as (Hkb & Hlb & Hsrc).
  minv_n Hrun wc xc Hc.
  2: { exfalso. destruct src_key as [k|]; [|discriminate Hc].
       minv_e Hc wx xx Hx; [|discriminate Hx].
       destruct (startswith k (py "file:")); [|discriminate Hc].
       destruct (_norm_posix (drop 5 k)); discriminate Hc. }
  assert (Hidx : log wc = log wb
                 /\ key_to_page wc = match src_key with
                                     | Some k => <[k := pg_id page]> (key_to_page wb)
                                     | None => key_to_page wb
                                     end).
  { destruct src_key as [k|]; [|injection Hc as <- _; split; reflexivity].
    minv_ok Hc wx xx Hx.
    unfold set_key_to_page in Hx. injection Hx as <- _.
    destruct (startswith k (py "file:")); [|injection Hc as <- _; split; reflexivity].
    destruct (_norm_posix (drop 5 k)); injection Hc as <- _; split; reflexivity. }
  destruct Hidx as (Hlc & Hkc).
  minv_n Hrun wd xd Hd.
  2: { apply set_labels_to_page_spec in Hd as (Hbad & _). discriminate Hbad. }
  apply set_labels_to_page_spec in Hd as (_ & Hkd & Hld & _).
  set (legacy := List.filter (fun lb => startswith lb LEGACY_SRC_LABEL_PREFIX)
                   (pg_labels page)) in *.
  minv_n Hrun we xe He.
  2: { exfalso. destruct (_ && _ && _); [|discriminate He].
       apply delete_labels_quietly_events in He as (Hbad & _). discriminate Hbad. }
  assert (Hleg : key_to_page we = key_to_page wd
                 /\ exists evs, logged wd we evs /\ Forall is_label_cleanup evs).
  { destruct (_ && _ && _).
    - apply delete_labels_quietly_events in He as (_ & Hk & evs & Hlog & Hall).
      split; [exact Hk|]. exists evs. split; [exact Hlog|].
      eapply Forall_impl; [exact Hall|]. intros ev (lb & res & -> & Hin).
      left. unfold legacy in Hin. apply list_elem_of_In, List.filter_In in Hin as [_ Hin].
      exact Hin.
    - injection He as <- _. split; [reflexivity|]. exists [].
      split; [unfold logged; rewrite app_nil_r; reflexivity | constructor]. }
  destruct Hleg as (Hke & evs1 & Hlog1 & Hall1).
  assert (Hvis : r = Ok tt /\ key_to_page w' = key_to_page we
                 /\ exists evs, logged we w' evs /\ Forall is_label_cleanup evs).
  { destruct (migrate_legacy_doc_labels cfg).
    - apply delete_labels_quietly_events in Hrun as (-> & Hk & evs & Hlog & Hall).
      split; [reflexivity|]. split; [exact Hk|]. exists evs. split; [exact Hlog|].
      eapply Forall_impl; [exact Hall|]. intros ev (lb & res & -> & Hin).
      right. apply list_elem_of_In, List.filter_In in Hin as [Hin _].
      apply list_elem_of_In. exact Hin.
    - apply ret_inv in Hrun as [-> ->]. split; [reflexivity|]. split; [reflexivity|].
      exists []. split; [unfold logged; rewrite app_nil_r; reflexivity | constructor]. }
  destruct Hvis as (-> & Hkf & evs2 & Hlog2 & Hall2).
  split; [reflexivity|]. split.
  - exists (evs1 ++ evs2). split; [|apply Forall_app; split; assumption].
    unfold logged in *. rewrite Hlog2, Hlog1, Hld, Hlc, Hlb, <- app_assoc. reflexivity.
  - intros prop_of Hreads. unfold index_pages. cbn [fold_left].
    rewrite <- (Hsrc prop_of Hreads), Hkf, Hke, Hkd, Hkc, Hkb. reflexivity.
Qed.

Lemma process_pages_spec (pages : list PageInfo) :
  forall (w w' : WorldR) (r : Res unit),
  process_pages get_property cfg migrate_legacy_src_labels pages w = (w', r) ->
  r = Ok tt
  /\ (exists evs, logged w w' evs /\ Forall is_label_cleanup evs)
  /\ forall prop_of,
       (forall pid key rem, get_property pid key rem = (rem, prop_of pid key)) ->
       key_to_page w' = index_pages prop_of pages (key_to_page w).
Proof.
  induction pages as [|page rest IH]; intros w w' r Hrun; simpl in Hrun.
  - apply ret_inv in Hrun as [-> ->]. split; [reflexivity|]. split; [|reflexivity].
    exists []. split; [unfold logged; rewrite app_nil_r; reflexivity | constructor].
  - minv_n Hrun w1 x1 H1.
    2: { apply process_page_spec in H1 as (Hbad & _). discriminate Hbad. }
    apply process_page_spec in H1 as (_ & (evs1 & Hlog1 & Hall1) & Hidx1).
    apply IH in Hrun as (-> & (evs2 & Hlog2 & Hall2) & Hidx2).
    split; [reflexivity|]. split.
    + exists (evs1 ++ evs2). split; [|apply Forall_app; split; assumption].
      unfold logged in *. rewrite Hlog2, Hlog1, <- app_assoc. reflexivity.
    + intros prop_of Hreads. rewrite (Hidx2 prop_of Hreads), (Hidx1 prop_of Hreads).
      reflexivity.
Qed.

End BootstrapFacts.

Section BootstrapRun.

Context {R : Type} `{Confluence R}.

Local Abbreviation WorldR := (@World R).

Variable search : nat -> nat -> R -> R * Res (list PageInfo).
Variable get_property : str -> str -> R -> R * Res (option (option str)).
Variable cfg : Cfg.
Variable migrate_legacy_src_labels : bool.

Lemma bootstrap_loop_spec (fuel : nat) :
  forall (start : nat) (w w' : WorldR) (r : Res unit),
  bootstrap_loop search get_property cfg migrate_legacy_src_labels fuel start w
  = Some (w', r) ->
  (exists evs, logged w w' evs /\ Forall is_label_cleanup evs)
  /\ (r = Ok tt
      \/ exists e (start' : nat) rem, snd (search 200%nat start' rem) = Raise e /\ r = Raise e).
Proof.
  induction fuel as [|fuel IH]; intros start w w' r Hrun; [discriminate Hrun|].
  cbn [bootstrap_loop] in Hrun. unfold query in Hrun.
  destruct (search 200 start (remote w)) as [rem [results|e]] eqn:Hs.
  - destruct (process_pages get_property cfg migrate_legacy_src_labels results _)
      as [w2 res] eqn:Hp.
    apply process_pages_spec in Hp as (-> & (evs & Hlog & Hall) & _).
    cbn [log] in Hlog.
    destruct (length results <? 200)%nat.
    + injection Hrun as <- <-. split; [|left; reflexivity].
      exists evs. split; [exact Hlog | exact Hall].
    + apply IH in Hrun as ((evs2 & Hlog2 & Hall2) & Hres). split; [|exact Hres].
      exists (evs ++ evs2). split; [|apply Forall_app; split; assumption].
      unfold logged in *. cbn [log] in Hlog. rewrite Hlog2, Hlog, <- app_assoc. reflexivity.
  - injection Hrun as <- <-. split.
    + exists []. split; [unfold logged; cbn [log]; rewrite app_nil_r; reflexivity | constructor].
    + right. exists e, start, (remote w). rewrite Hs. split; reflexivity.
Qed.

Lemma cleanup_not_created (evs : list Event) :
  Forall is_label_cleanup evs -> pages_created evs = 0%nat.
Proof.
  induction 1 as [|ev evs Hev _ IH]; [reflexivity|].
  change (ev :: evs) with ([ev] ++ evs). rewrite pages_created_app, IH.
  destruct ev; try contradiction. reflexivity.
Qed.

Lemma index_pages_app (prop_of : str -> str -> Res (option (option str)))
    (l1 l2 : list PageInfo) (index : gmap str str) :
  index_pages prop_of (l1 ++ l2) index = index_pages prop_of l2 (index_pages prop_of l1 index).
Proof. unfold index_pages. apply fold_left_app. Qed.

Lemma index_pages_keep (prop_of : str -> str -> Res (option (option str))) (k : str)
    (pages : list PageInfo) :
  Forall (fun page => source_key prop_of (pg_id page) <> Some k) pages ->
  forall index, index_pages prop_of pages index !! k = index !! k.
Proof.
  induction 1 as [|page rest Hne _ IH]; intros index; [reflexivity|].
  change (index_pages prop_of (page :: rest) index)
    with (index_pages prop_of rest (index_pages prop_of [page] index)).
  rewrite IH. unfold index_pages. cbn [fold_left].
  destruct (source_key prop_of (pg_id page)) as [k'|]; [|reflexivity].
  apply lookup_insert_ne. congruence.
Qed.

Lemma index_pages_last (prop_of : str -> str -> Res (option (option str))) (k : str)
    (pre post : list PageInfo) (page : PageInfo) (index : gmap str str) :
  source_key prop_of (pg_id page) = Some k ->
  Forall (fun later => source_key prop_of (pg_id later) <> Some k) post ->
  index_pages prop_of (pre ++ page :: post) index !! k = Some (pg_id page).
Proof.
  intros Hk Hpost. rewrite index_pages_app.
  change (index_pages prop_of (page :: post) (index_pages prop_of pre index))
    with (index_pages prop_of post
            (index_pages prop_of [page] (index_pages prop_of pre index))).
  rewrite (index_pages_keep prop_of k post Hpost).
  unfold index_pages at 1. cbn [fold_left]. rewrite Hk. apply lookup_insert_eq.
Qed.

Lemma bootstrap_loop_index (all : list PageInfo)
    (prop_of : str -> str -> Res (option (option str))) :
  serves search all ->
  (forall pid key rem, get_property pid key rem = (rem, prop_of pid key)) ->
  forall (fuel start : nat) (w : WorldR),
    (length all - start < fuel * 200)%nat ->
    exists w',
      bootstrap_loop search get_property cfg migrate_legacy_src_labels fuel start w
      = Some (w', Ok tt)
      /\ key_to_page w' = index_pages prop_of (drop start all) (key_to_page w).
Proof.
  intros Hsrv Hreads. induction fuel as [|fuel IH]; intros start w Hfuel;
    [simpl in Hfuel; lia|].
  cbn [bootstrap_loop]. unfold query. rewrite Hsrv.
  destruct (process_pages get_property cfg migrate_legacy_src_labels
              (take 200%nat (drop start all)) _) as [w2 res] eqn:Hp.
  apply process_pages_spec in Hp as (-> & _ & Hidx).
  specialize (Hidx prop_of Hreads). cbn [key_to_page] in Hidx.
  destruct (Nat.ltb_spec (length (take 200%nat (drop start all))) 200%nat) as [Hshort|Hfull].
  - exists w2. split; [reflexivity|]. rewrite Hidx. f_equal. apply take_ge.
    rewrite length_take in Hshort. lia.
  - rewrite length_take, length_drop in Hfull.
    destruct (IH (start + 200)%nat w2) as (w' & Hrun & Hkeys); [simpl in Hfuel; lia|].
    exists w'. split; [exact Hrun|].
    rewrite Hkeys, Hidx, <- index_pages_app, <- drop_drop, take_drop. reflexivity.
Qed.

End BootstrapRun.



(** ** The discovery on the fake server *)

(** Two managed pages: one published by an older version, with a legacy
    label, a visible technical label and the source property; one without
    any of them. *)
Definition found_pages : list PageInfo :=
  [mkPage (py "777") [py "managed-docs"; py "src-0123456789ab"; py "md"];
   mkPage (py "778") [py "managed-docs"]].

Definition found_search (limit start : nat) (f : Fake.Fake)
    : Fake.Fake * Res (list PageInfo) :=
  (f, Ok (take limit (drop start found_pages))).

Definition found_props (page_id key : str) : Res (option (option str)) :=
  if str_eqb page_id (py "777") && str_eqb key PROPERTY_KEY
  then Ok (Some (Some (py "file:docs/a.md")))
  else Ok None.

Definition found_get_property (page_id key : str) (f : Fake.Fake)
    : Fake.Fake * Res (option (option str)) :=
  (f, found_props page_id key).

Abbreviation found_run :=
  (bootstrap_existing found_search found_get_property Fake.test_cfg true 1
     (Fake.world0 Fake.fresh)).

(** The state the discovery leaves. *)
Definition found_world : @World Fake.Fake :=
  fst (default (Fake.world0 Fake.fresh, Ok tt) found_run).

Example bootstrap_existing_test :
  exists w',
    found_run = Some (w', Ok tt)
    /\ key_to_page w' !! py "file:docs/a.md" = Some (py "777")
    /\ path_to_page w' !! py "docs/a.md" = Some (py "777")
    /\ label_to_page w' !! py "src-0123456789ab" = Some (py "777")
    /\ Fake.deleted_labels (remote w')
       = [(py "777", py "src-0123456789ab"); (py "777", py "md")].
Proof.
  exists found_world.
  split; [vm_compute; reflexivity|]. split; [vm_compute; reflexivity|].
  split; [vm_compute; reflexivity|]. split; vm_compute; reflexivity.
Qed.



(** ** A pass on the fake server *)

(** A new file and a renamed one. *)
Definition pass_entries : list Entry :=
  [entry_for (py "docs/a.md") (py "# A\n") (py "A") (py "100") (py "DOCS") None;
   entry_for (py "docs/b/new.md") (py "# B\n") (py "B") (py "100") (py "DOCS")
     (Some (py "docs/b/old.md"))].

Lemma pass_entries_cases (P : Entry -> Prop) (e : Entry) :
  e ∈ pass_entries ->
  P (entry_for (py "docs/a.md") (py "# A\n") (py "A") (py "100") (py "DOCS") None) ->
  P (entry_for (py "docs/b/new.md") (py "# B\n") (py "B") (py "100") (py "DOCS")
       (Some (py "docs/b/old.md"))) ->
  P e.
Proof.
  intros He Ha Hb. unfold pass_entries in He.
  apply elem_of_cons in He as [->|He]; [exact Ha|].
  apply list_elem_of_singleton in He as ->. exact Hb.
Defined.

Lemma publish_entries_indexed_witness :
  Forall (fun e =>
            is_Some (key_to_page
                       (fst (publish_entries Fake.test_cfg plain_conv pass_entries
                               (Fake.world0 Fake.fresh))) !! e_key e)
            /\ is_Some (path_to_page
                          (fst (publish_entries Fake.test_cfg plain_conv pass_entries
                                  (Fake.world0 Fake.fresh))) !! e_current_path e))
    pass_entries.
Proof.
  set (run := publish_entries Fake.test_cfg plain_conv pass_entries (Fake.world0 Fake.fresh)).
  assert (Hok : snd run = Ok tt) by (vm_compute; reflexivity).
  assert (Hrun : run = (fst run, Ok tt)) by (rewrite <- Hok; apply surjective_pairing).
  refine (proj1 (publish_entries_indexed Fake.test_cfg plain_conv pass_entries
                   (Fake.world0 Fake.fresh) (fst run) _ _ Hrun)).
  - intros e e' He He'.
    apply (pass_entries_cases (fun e => rename_from_key e <> Some (e_key e')) e He);
      apply (pass_entries_cases (fun e' => _ <> Some (e_key e')) e' He');
      vm_compute; discriminate.
  - intros e e' He He'.
    apply (pass_entries_cases (fun e => rename_from_path e <> Some (e_current_path e')) e He);
      apply (pass_entries_cases (fun e' => _ <> Some (e_current_path e')) e' He');
      vm_compute; discriminate.
Defined.

Lemma publish_second_pass_creates_nothing_witness :
  let w1 := fst (publish_entries Fake.test_cfg plain_conv pass_entries
                   (Fake.world0 Fake.fresh)) in
  let w2 := fst (publish_entries Fake.test_cfg plain_conv pass_entries w1) in
  pages_created (log w2) = pages_created (log w1).
Proof.
  intros w1 w2.
  set (run1 := publish_entries Fake.test_cfg plain_conv pass_entries (Fake.world0 Fake.fresh)).
  assert (Hok : snd run1 = Ok tt) by (vm_compute; reflexivity).
  assert (Hrun1 : run1 = (w1, Ok tt)) by (rewrite <- Hok; apply surjective_pairing).
  refine (proj1 (publish_second_pass_creates_nothing Fake.test_cfg plain_conv plain_conv
                   pass_entries (Fake.world0 Fake.fresh) w1 w2
                   (snd (publish_entries Fake.test_cfg plain_conv pass_entries w1))
                   _ _ Hrun1 (surjective_pairing _))).
  - intros space parent_id title storage rem pid.
    unfold create_page, Fake.fake_confluence, Fake.fake_create_page.
    destruct (bool_decide _); cbn [snd]; intros Heq; [discriminate Heq|].
    injection Heq as <-. discriminate.
  - intros e e' He He'.
    apply (pass_entries_cases (fun e => rename_from_key e <> Some (e_key e')) e He);
      apply (pass_entries_cases (fun e' => _ <> Some (e_key e')) e' He');
      vm_compute; discriminate.
Defined.
